(** * The game manager of the Bomberman server

    A shallow embedding of [server/game_manager.py] (class [Manager]) and
    the properties of its registry, queues, sessions and shutdown.

    Python objects are modelled as follows.
    - [self.players], [self.games] and [self.queues] are dictionaries:
      finite maps ([gmap]); a [deque] is a list with its left end first.
    - A method is a function from the manager's state to an outcome and a
      new state; a raised exception keeps the mutations made before it.
    - The game object, the web server and the settings modules are not part
      of this file of the repository: the game is a parameter ([GameAPI]),
      the constants are parameters ([Settings]), and a message handed to
      [webserver.send_message] is appended to an outbox.
    - A session worker (the thread running [game_handler]) advances one
      pass of its loop at a time; the loop takes fuel, and running out of
      fuel is the outcome [Diverge].
    - The threads of the server take turns between calls. [safe_stop] is
      the one method that waits for other threads: what they do before and
      during each of its waits and before each of its disconnections is
      given by a [Schedule]. *)

From stdpp Require Import gmap strings list fin_maps.
From Stdlib Require Import ZArith.
From Stdlib.Strings Require Import Ascii Byte.

Open Scope Z_scope.

(** ** Exceptions *)

(** The classes of [server.exceptions], the built-in exceptions the code
    can meet, and whatever a game object raises. All derive from
    [Exception]. *)
Inductive exn : Type :=
  | ServerStopping
  | AlreadyRegistered
  | NotRegistered
  | InvalidQueue
  | InGame
  | NotInGame
  | InvalidEvent
  | KeyError
  | ValueError
  | IndexError
  | ZeroDivisionError
  | GameException (code : nat).

#[global] Instance exn_eq_dec : EqDecision exn.
Proof. solve_decision. Defined.

(** What a call into a collaborator gives back. *)
Inductive result (A : Type) : Type :=
  | Returns (a : A)
  | Throws (e : exn).
Arguments Returns {A} a.
Arguments Throws {A} e.

(** What a method of the manager gives back; [Diverge] is a worker loop
    that has not left its loop when the fuel is spent. *)
Inductive outcome (A : Type) : Type :=
  | Ok (a : A)
  | Raise (e : exn)
  | Diverge.
Arguments Ok {A} a.
Arguments Raise {A} e.
Arguments Diverge {A}.

(** ** Collaborators *)

(** The status dictionary returned by [game.main()]. *)
Record Status (Details : Type) : Type := mkStatus {
  didsmthhappen : bool;
  winner : option Z;
  fields : Details
}.
Arguments mkStatus {Details} _ _ _.
Arguments didsmthhappen {Details} _.
Arguments winner {Details} _.
Arguments fields {Details} _.

(** The interface of a game object. A method that changes the game returns
    the changed game also when it raises. *)
Class GameAPI : Type := {
  Game : Type;
  Details : Type;
  Kwargs : Type;
  Args : Type;
  game_main : Game → result (Status Details) * Game;
  game_gameover : Game → bool;
  game_kill : Z → Game → result unit * Game;
  game_get_events : Game → result (list string);
  game_run_event : Z → string → Args → Game → result unit * Game;
  game_get_startup_status : Game → result Details
}.

(** An entry of the [GAMES] dictionary. *)
Record GameConf `{GameAPI} : Type := mkGameConf {
  gamefunc : positive → list Z → Kwargs → result Game;
  initfunc : result Kwargs
}.

(** The constants of [settings.game_settings] and
    [settings.server_settings]. *)
Class Settings `{GameAPI} : Type := {
  GAMES : gmap string GameConf;
  PLAYERS_PER_GAME : Z;
  GAME_TICKS_PER_SECOND : Z;
  TOKEN_LENGTH : Z
}.

(** The bytes the operating system hands out through [os.urandom], in the
    order it hands them out. *)
Class Entropy : Type := { entropy_tape : nat → byte }.

(** ** Hexadecimal encoding *)

Definition hexdigit (n : N) : ascii :=
  match n with
  | 0%N => "0" | 1%N => "1" | 2%N => "2" | 3%N => "3"
  | 4%N => "4" | 5%N => "5" | 6%N => "6" | 7%N => "7"
  | 8%N => "8" | 9%N => "9" | 10%N => "a" | 11%N => "b"
  | 12%N => "c" | 13%N => "d" | 14%N => "e" | _ => "f"
  end%char.

(** [binascii.hexlify(bs).decode()]: two lower-case digits per byte. *)
Fixpoint hexlify (bs : list byte) : string :=
  match bs with
  | [] => EmptyString
  | b :: bs' =>
      String (hexdigit (N.div (Byte.to_N b) 16))
        (String (hexdigit (N.modulo (Byte.to_N b) 16)) (hexlify bs'))
  end.

(** ** The manager's state *)

(** The client dictionary of the web server; the manager reads its ["id"]. *)
Record Client : Type := mkClient {
  client_id : Z;
  handler : Z
}.

#[global] Instance Client_eq_dec : EqDecision Client.
Proof. solve_decision. Defined.

(** An entry of [self.players]. *)
Record Player : Type := mkPlayer {
  socket : Client;
  alive : bool;
  gameid : option positive;
  queue : option string;
  token : string
}.

#[global] Instance Player_eq_dec : EqDecision Player.
Proof. solve_decision. Defined.

Definition set_alive (b : bool) (p : Player) : Player :=
  mkPlayer (socket p) b (gameid p) (queue p) (token p).
Definition set_gameid (g : option positive) (p : Player) : Player :=
  mkPlayer (socket p) (alive p) g (queue p) (token p).
Definition set_queue (q : option string) (p : Player) : Player :=
  mkPlayer (socket p) (alive p) (gameid p) q (token p).

(** The worker thread of a session: the roster it was started with, and
    whether its target has returned. Its other two arguments are the key
    and the game of the entry that holds it. *)
Record Thread : Type := mkThread {
  roster : list Z;
  finished : bool
}.

Section Manager.

Context {api : GameAPI} {settings : Settings} {os : Entropy}.

(** An entry of [self.games]. *)
Record Session : Type := mkSession {
  game : Game;
  thread : Thread
}.

(** The messages serialised by [json.dumps]. *)
Inductive Message : Type :=
  | StartupStatus (d : Details)
  | StatusUpdate (s : Status Details)
  | ErrorNotice (e : exn).

(** The records handed to the loggers, one constructor per call site. *)
Inductive LogRecord : Type :=
  | LogLeftQueue (cid : Z)
  | LogRemoved (cid : Z)
  | LogKilled (cid : Z) (gid : positive)
  | LogJoined (cid : Z) (q : string) (len : nat)
  | LogStarting (q : string) (gid : positive) (ps : list Z)
  | LogCommand (gid : positive) (m : Message)
  | LogWon (gid : positive) (w : Z)
  | LogException (e : exn)
  | LogGameOver (gid : positive)
  | LogFired (cid : Z) (ev : string) (gid : positive)
  | LogStopping
  | LogClosingFailed (gid : positive)
  | LogKickingFailed (cid : Z)
  | LogAllTerminated.

(** The fields of [Manager], with what the process shares with it: the
    messages given to the web server (oldest first), the log (oldest
    first) and the number of bytes taken from the entropy tape. *)
Record Manager : Type := mkManager {
  players : gmap Z Player;
  games : gmap positive Session;
  next_gameid : positive;
  queues : gmap string (list Z);
  running : bool;
  outbox : list (Client * Message);
  logged : list LogRecord;
  entropy_used : nat
}.

(** [Manager.__init__]. *)
Definition init : Manager :=
  mkManager ∅ ∅ 1%positive ∅ true [] [] 0%nat.

Definition with_players (f : gmap Z Player → gmap Z Player) (m : Manager) : Manager :=
  mkManager (f (players m)) (games m) (next_gameid m) (queues m) (running m)
    (outbox m) (logged m) (entropy_used m).
Definition with_games (f : gmap positive Session → gmap positive Session) (m : Manager) : Manager :=
  mkManager (players m) (f (games m)) (next_gameid m) (queues m) (running m)
    (outbox m) (logged m) (entropy_used m).
Definition with_next_gameid (g : positive) (m : Manager) : Manager :=
  mkManager (players m) (games m) g (queues m) (running m)
    (outbox m) (logged m) (entropy_used m).
Definition with_queues (f : gmap string (list Z) → gmap string (list Z)) (m : Manager) : Manager :=
  mkManager (players m) (games m) (next_gameid m) (f (queues m)) (running m)
    (outbox m) (logged m) (entropy_used m).
Definition with_running (b : bool) (m : Manager) : Manager :=
  mkManager (players m) (games m) (next_gameid m) (queues m) b
    (outbox m) (logged m) (entropy_used m).
Definition with_outbox (f : list (Client * Message) → list (Client * Message)) (m : Manager) : Manager :=
  mkManager (players m) (games m) (next_gameid m) (queues m) (running m)
    (f (outbox m)) (logged m) (entropy_used m).
Definition with_logged (f : list LogRecord → list LogRecord) (m : Manager) : Manager :=
  mkManager (players m) (games m) (next_gameid m) (queues m) (running m)
    (outbox m) (f (logged m)) (entropy_used m).
Definition with_entropy_used (n : nat) (m : Manager) : Manager :=
  mkManager (players m) (games m) (next_gameid m) (queues m) (running m)
    (outbox m) (logged m) n.

(** ** Methods as state transformers *)

Definition M (A : Type) : Type := Manager → outcome A * Manager.

Definition ret {A} (a : A) : M A := λ m, (Ok a, m).

Definition bind {A B} (c : M A) (k : A → M B) : M B :=
  λ m, match c m with
       | (Ok a, m') => k a m'
       | (Raise e, m') => (Raise e, m')
       | (Diverge, m') => (Diverge, m')
       end.

Notation "'let*' x ':=' c 'in' k" := (bind c (λ x, k))
  (at level 10, x name, c at level 100, k at level 200).
Notation "c '>>' k" := (bind c (λ _, k))
  (at level 80, right associativity).

Definition raise {A} (e : exn) : M A := λ m, (Raise e, m).
Definition get : M Manager := λ m, (Ok m, m).
Definition modify (f : Manager → Manager) : M unit := λ m, (Ok tt, f m).

(** [if cond: raise e]. *)
Definition raise_if (cond : bool) (e : exn) : M unit :=
  if cond then raise e else ret tt.

(** [if cond: body]. *)
Definition when (cond : bool) (body : M unit) : M unit :=
  if cond then body else ret tt.

(** [for x in xs: body(x)]. *)
Fixpoint for_each {A} (xs : list A) (body : A → M unit) : M unit :=
  match xs with
  | [] => ret tt
  | x :: xs' => body x >> for_each xs' body
  end.

(** [try: body / except Exception as e: handler(e)]. *)
Definition try_except {A} (body : M A) (handler : exn → M A) : M A :=
  λ m, match body m with
       | (Raise e, m') => handler e m'
       | r => r
       end.

(** [try: body / finally: final]. The final block runs after a return and
    after a raise; when it raises, its exception is the one that leaves. *)
Definition try_finally {A} (body : M A) (final : M unit) : M A :=
  λ m, match body m with
       | (Diverge, m') => (Diverge, m')
       | (r, m') =>
           match final m' with
           | (Ok _, m'') => (r, m'')
           | (Raise e, m'') => (Raise e, m'')
           | (Diverge, m'') => (Diverge, m'')
           end
       end.

(** A call into a collaborator that cannot change the manager. *)
Definition call {A} (r : result A) : M A :=
  match r with
  | Returns a => ret a
  | Throws e => raise e
  end.

Definition log (r : LogRecord) : M unit :=
  modify (with_logged (λ l, l ++ [r])).

(** [self.webserver.send_message(socket, message)]. *)
Definition send_message (s : Client) (msg : Message) : M unit :=
  modify (with_outbox (λ l, l ++ [(s, msg)])).

(** [self.players[cid]]. *)
Definition player_at (cid : Z) : M Player :=
  let* m := get in
  match players m !! cid with
  | Some p => ret p
  | None => raise KeyError
  end.

(** [self.players[cid][field] = value], as an update of the entry that
    [self.players[cid]] was found to be. *)
Definition update_player (cid : Z) (f : Player → Player) : M unit :=
  modify (with_players (alter f cid)).

(** [os.urandom(n)]. *)
Definition urandom (n : Z) : M (list byte) :=
  if n <? 0 then raise ValueError
  else
    let* m := get in
    let k := Z.to_nat n in
    modify (with_entropy_used (entropy_used m + k)%nat) >>
    ret (map entropy_tape (seq (entropy_used m) k)).

(** ** [Manager.connect] *)

(** [int(TOKEN_LENGTH / 2)]: the quotient is truncated towards zero. *)
Definition token_bytes : Z := Z.quot TOKEN_LENGTH 2.

Definition connect (client : Client) : M string :=
  let* m := get in
  raise_if (negb (running m)) ServerStopping >>
  raise_if (bool_decide (is_Some (players m !! client_id client))) AlreadyRegistered >>
  let* bs := urandom token_bytes in
  let tok := hexlify bs in
  modify (with_players (insert (client_id client) (mkPlayer client true None None tok))) >>
  ret tok.

(** ** Queues *)

(** [deque.remove(x)]: the first occurrence goes; [None] stands for the
    [ValueError] of an absent value. *)
Fixpoint deque_remove (x : Z) (d : list Z) : option (list Z) :=
  match d with
  | [] => None
  | y :: d' => if decide (y = x) then Some d' else cons y <$> deque_remove x d'
  end.

(** [self.queues[q].remove(cid)]. *)
Definition queue_remove (q : string) (cid : Z) : M unit :=
  let* m := get in
  match queues m !! q with
  | None => raise KeyError
  | Some d =>
      match deque_remove cid d with
      | None => raise ValueError
      | Some d' => modify (with_queues (insert q d'))
      end
  end.

(** [self.queues[q].popleft()]. *)
Definition popleft (q : string) : M Z :=
  let* m := get in
  match queues m !! q with
  | None => raise KeyError
  | Some [] => raise IndexError
  | Some (x :: d) => modify (with_queues (insert q d)) >> ret x
  end.

(** [[self.queues[q].popleft() for n in range(k)]]. *)
Fixpoint popleft_n (k : nat) (q : string) : M (list Z) :=
  match k with
  | O => ret []
  | S k' =>
      let* x := popleft q in
      let* xs := popleft_n k' q in
      ret (x :: xs)
  end.

(** ** Calls into the game of a session *)

(** [self.games[gid]["game"]]. *)
Definition game_at (gid : positive) : M Game :=
  let* m := get in
  match games m !! gid with
  | Some s => ret (game s)
  | None => raise KeyError
  end.

(** A call of a method on the game object of session [gid]. The object is
    shared by the session table and the worker, so the changed game is
    written back to the table, which holds it for the worker's whole life. *)
Definition on_game {A} (gid : positive) (method : Game → result A * Game) : M A :=
  let* m := get in
  match games m !! gid with
  | None => raise KeyError
  | Some s =>
      let r := method (game s) in
      modify (with_games (insert gid (mkSession (snd r) (thread s)))) >>
      call (fst r)
  end.

(** ** [Manager.disconnect] *)

Definition disconnect (cid : Z) : M unit :=
  let* m := get in
  match players m !! cid with
  | None => raise NotRegistered
  | Some player =>
      match queue player with
      | Some q => log (LogLeftQueue cid) >> queue_remove q cid
      | None => ret tt
      end >>
      let* m' := get in
      match gameid player with
      | Some gid =>
          if negb (running m') then
            log (LogRemoved cid) >>
            modify (with_players (delete cid))
          else
            log (LogKilled cid gid) >>
            on_game gid (game_kill cid) >>
            update_player cid (set_alive false)
      | None =>
          log (LogRemoved cid) >>
          modify (with_players (delete cid))
      end
  end.

(** ** [Manager.start_game] and [Manager.join_queue] *)

Definition start_game (q : string) : M unit :=
  let* m := get in
  let gid := next_gameid m in
  modify (with_next_gameid (Pos.succ gid)) >>
  let* ps := popleft_n (Z.to_nat PLAYERS_PER_GAME) q in
  match GAMES !! q with
  | None => raise KeyError
  | Some conf =>
      log (LogStarting q gid ps) >>
      let* kwargs := call (initfunc conf) in
      let* g := call (gamefunc conf gid ps kwargs) in
      let* startup := call (game_get_startup_status g) in
      log (LogCommand gid (StartupStatus startup)) >>
      for_each ps (λ pid,
        player_at pid >>
        update_player pid (set_queue None) >>
        update_player pid (set_gameid (Some gid)) >>
        let* p := player_at pid in
        when (alive p) (send_message (socket p) (StartupStatus startup))) >>
      modify (with_games (insert gid (mkSession g (mkThread ps false))))
  end.

Definition join_queue (cid : Z) (q : string) : M unit :=
  let* m := get in
  raise_if (negb (running m)) ServerStopping >>
  raise_if (bool_decide (GAMES !! q = None)) InvalidQueue >>
  match players m !! cid with
  | None => raise NotRegistered
  | Some player =>
      raise_if (bool_decide (is_Some (gameid player))) InGame >>
      match queue player with
      | Some q0 => queue_remove q0 cid
      | None => ret tt
      end >>
      update_player cid (set_queue (Some q)) >>
      let* m1 := get in
      when (bool_decide (queues m1 !! q = None)) (modify (with_queues (insert q []))) >>
      modify (with_queues (alter (λ d, d ++ [cid]) q)) >>
      let* m2 := get in
      let len := length (default [] (queues m2 !! q)) in
      log (LogJoined cid q len) >>
      when (bool_decide (PLAYERS_PER_GAME ≤ Z.of_nat len)) (start_game q)
  end.

(** ** [Manager.game_handler] *)

Inductive flow : Type := Next | Break.

(** [for pid in players: if self.players[pid]["alive"]: send_message(...)]. *)
Definition notify (ps : list Z) (msg : Message) : M unit :=
  for_each ps (λ pid,
    let* p := player_at pid in
    when (alive p) (send_message (socket p) msg)).

(** One pass from the test of [while self.running] to the end of the loop
    body: [Break] when the loop is left, [Next] when the pass ends at
    [tick.wait()]. The timer only paces the loop; what is kept of it is the
    division [1 / GAME_TICKS_PER_SECOND]. *)
Definition loop_pass (gid : positive) (ps : list Z) : M flow :=
  let* m := get in
  if negb (running m) then ret Break
  else
    raise_if (bool_decide (GAME_TICKS_PER_SECOND = 0)) ZeroDivisionError >>
    let* status := on_game gid game_main in
    when (didsmthhappen status)
      (log (LogCommand gid (StatusUpdate status)) >>
       notify ps (StatusUpdate status)) >>
    let* g := game_at gid in
    if game_gameover g then
      match winner status with
      | Some w => log (LogWon gid w)
      | None => ret tt
      end >>
      ret Break
    else ret Next.

(** The [while] loop, for at most [fuel] passes. *)
Fixpoint while_running (fuel : nat) (gid : positive) (ps : list Z) : M unit :=
  match fuel with
  | O => λ m, (Diverge, m)
  | S fuel' =>
      let* f := loop_pass gid ps in
      match f with
      | Break => ret tt
      | Next => while_running fuel' gid ps
      end
  end.

(** The [except Exception as e] block. *)
Definition report_fault (ps : list Z) (e : exn) : M unit :=
  log (LogException e) >>
  notify ps (ErrorNotice e).

(** The [finally] block. *)
Definition cleanup (gid : positive) (ps : list Z) : M unit :=
  log (LogGameOver gid) >>
  for_each ps (λ pid,
    player_at pid >>
    update_player pid (set_gameid None) >>
    let* p := player_at pid in
    when (negb (alive p)) (disconnect pid)) >>
  let* m := get in
  raise_if (bool_decide (games m !! gid = None)) KeyError >>
  modify (with_games (delete gid)).

Definition game_handler (fuel : nat) (gid : positive) (ps : list Z) : M unit :=
  try_finally
    (try_except (while_running fuel gid ps) (report_fault ps))
    (cleanup gid ps).

(** ** [Manager.send_event] *)

Definition send_event (cid : Z) (event : string) (args : Args) : M unit :=
  let* m := get in
  match players m !! cid with
  | None => raise NotRegistered
  | Some player =>
      match gameid player with
      | None => raise NotInGame
      | Some gid =>
          let* g := game_at gid in
          let* events := call (game_get_events g) in
          raise_if (bool_decide (event ∉ events)) InvalidEvent >>
          log (LogFired cid event gid) >>
          on_game gid (game_run_event cid event args)
      end
  end.

(** ** [Manager.safe_stop] *)

Definition mark_finished (s : Session) : Session :=
  mkSession (game s) (mkThread (roster (thread s)) true).

(** While [safe_stop] goes through its loops the other threads of the
    server go on: the web server answers its clients and the workers make
    their passes. An [activity] is one such step of another thread. *)
Inductive activity : Type :=
  | CallConnect (client : Client)
  | CallDisconnect (cid : Z)
  | CallJoinQueue (cid : Z) (q : string)
  | CallSendEvent (cid : Z) (event : string) (args : Args)
  | Pass (fuel : nat) (gid : positive).

(** The worker of session [gid] runs on from the top of its loop, with the
    roster it was started with. When its target has returned, normally or
    not, the thread is finished; an exception that ends it stays in the
    worker. *)
Definition work (fuel : nat) (gid : positive) : M unit :=
  let* m := get in
  match games m !! gid with
  | None => ret tt
  | Some s =>
      if finished (thread s) then ret tt
      else
        λ m0, match game_handler fuel gid (roster (thread s)) m0 with
              | (Diverge, m1) => (Diverge, m1)
              | (_, m1) => (Ok tt, with_games (alter mark_finished gid) m1)
              end
  end.

(** The state a step of another thread leaves. *)
Definition perform (c : activity) (m : Manager) : Manager :=
  match c with
  | CallConnect client => snd (connect client m)
  | CallDisconnect cid => snd (disconnect cid m)
  | CallJoinQueue cid q => snd (join_queue cid q m)
  | CallSendEvent cid event args => snd (send_event cid event args m)
  | Pass fuel gid => snd (work fuel gid m)
  end.

Definition meanwhile (steps : list activity) (m : Manager) : Manager :=
  foldl (λ m0 c, perform c m0) m steps.

(** [self.games[gid]["thread"].join()]: the caller is blocked until the
    worker's target has returned. The other threads take the steps [during]
    while it waits; then the worker, if it is still going, runs on to its
    end. A thread that has finished is joined at once. *)
Definition join (during : list activity) (fuel : nat) (gid : positive) : M unit :=
  let* m := get in
  match games m !! gid with
  | None => raise KeyError
  | Some s =>
      if finished (thread s) then ret tt
      else modify (meanwhile during) >> work fuel gid
  end.

(** The keys of a dictionary, as [for k in d.copy()] visits them. *)
Definition keys {K A} `{Countable K} (d : gmap K A) : list K :=
  (map_to_list d).*1.

(** The two guarded calls of [safe_stop]: [try: ... except Exception:
    logging.exception(...)]. *)
Definition close_game (during : list activity) (fuel : nat) (gid : positive)
  : M unit :=
  try_except (join during fuel gid) (λ _, log (LogClosingFailed gid)).

Definition kick (pid : Z) : M unit :=
  try_except (disconnect pid) (λ _, log (LogKickingFailed pid)).

(** What the other threads do during a call of [safe_stop]: between the
    test [gid in self.games] and the lookup of the session's thread, while
    the caller waits for that thread, and between the test
    [pid in self.players] and the call of [disconnect]. *)
Record Schedule : Type := mkSchedule {
  ahead_of_wait : positive → list activity;
  during_wait : positive → list activity;
  ahead_of_kick : Z → list activity
}.

(** Nobody else touches the manager. *)
Definition quiet : Schedule :=
  mkSchedule (λ _, []) (λ _, []) (λ _, []).

Definition safe_stop (sched : Schedule) (fuel : nat) : M unit :=
  log LogStopping >>
  modify (with_running false) >>
  let* m := get in
  for_each (keys (games m)) (λ gid,
    let* m' := get in
    when (bool_decide (is_Some (games m' !! gid)))
      (modify (meanwhile (ahead_of_wait sched gid)) >>
       close_game (during_wait sched gid) fuel gid)) >>
  let* m1 := get in
  for_each (keys (players m1)) (λ pid,
    let* m' := get in
    when (bool_decide (is_Some (players m' !! pid)))
      (modify (meanwhile (ahead_of_kick sched pid)) >> kick pid)) >>
  log LogAllTerminated.

(** ** Operations

    What can happen to a manager: a call of one of its methods by the
    web server, and a run of the worker of a session. A call of
    [safe_stop] comes with the schedule of the other threads. *)
Inductive op : Type :=
  | Connect (client : Client)
  | Disconnect (cid : Z)
  | JoinQueue (cid : Z) (q : string)
  | StartGame (q : string)
  | SendEvent (cid : Z) (event : string) (args : Args)
  | Work (fuel : nat) (gid : positive) (ps : list Z)
  | Cleanup (gid : positive) (ps : list Z)
  | SafeStop (sched : Schedule) (fuel : nat).

(** The state an operation leaves, whether it returns, raises or is still
    going. *)
Definition exec (o : op) (m : Manager) : Manager :=
  match o with
  | Connect client => snd (connect client m)
  | Disconnect cid => snd (disconnect cid m)
  | JoinQueue cid q => snd (join_queue cid q m)
  | StartGame q => snd (start_game q m)
  | SendEvent cid event args => snd (send_event cid event args m)
  | Work fuel gid ps => snd (game_handler fuel gid ps m)
  | Cleanup gid ps => snd (cleanup gid ps m)
  | SafeStop sched fuel => snd (safe_stop sched fuel m)
  end.

Definition run (ops : list op) (m : Manager) : Manager :=
  foldl (λ m0 o, exec o m0) m ops.

End Manager.

Arguments ret {api A} a m /.
Arguments bind {api A B} c k m /.
Arguments raise {api A} e m /.
Arguments get {api} m /.
Arguments modify {api} f m /.
Arguments raise_if {api} cond e m /.
Arguments when {api} cond body m /.
Arguments call {api A} r m /.
Arguments log {api} r m /.
Arguments send_message {api} s msg m /.
Arguments try_except {api A} body handler m /.
Arguments try_finally {api A} body final m /.

(** ** A concrete game and configuration

    A two-player duel, used to run the manager on concrete inputs. [main]
    advances a clock and raises when the clock shows 2; the game is over when
    at most one fighter has not fallen. *)
Module Duel.

Record duel : Type := mkDuel {
  fighters : list Z;
  fallen : list Z;
  clock : nat;
  moves : list (Z * string)
}.

Definition standing (g : duel) : list Z :=
  filter (λ x, x ∉ fallen g) (fighters g).

Definition main (g : duel) : result (Status (list Z)) * duel :=
  if decide (clock g = 2%nat) then (Throws (GameException 7), g)
  else
    let g' := mkDuel (fighters g) (fallen g) (S (clock g)) (moves g) in
    (Returns (mkStatus true
                (match standing g with [w] => Some w | _ => None end)
                (standing g)), g').

Definition gameover (g : duel) : bool :=
  bool_decide (length (standing g) ≤ 1)%nat.

Definition kill (pid : Z) (g : duel) : result unit * duel :=
  (Returns tt, mkDuel (fighters g) (pid :: fallen g) (clock g) (moves g)).

Definition run_event (pid : Z) (ev : string) (args : list Z) (g : duel)
  : result unit * duel :=
  (Returns tt, mkDuel (fighters g) (fallen g) (clock g) (moves g ++ [(pid, ev)])).

#[export] Instance api : GameAPI := {|
  Game := duel;
  Details := list Z;
  Kwargs := unit;
  Args := list Z;
  game_main := main;
  game_gameover := gameover;
  game_kill := kill;
  game_get_events := λ _, Returns ["move"; "bomb"]%string;
  game_run_event := run_event;
  game_get_startup_status := λ g, Returns (fighters g)
|}.

Definition conf : GameConf :=
  mkGameConf api (λ _ ps _, Returns (mkDuel ps [] 0 [])) (Returns tt).

Definition settings (batch token_length : Z) : Settings := {|
  GAMES := {[ "duel"%string := conf ]};
  PLAYERS_PER_GAME := batch;
  GAME_TICKS_PER_SECOND := 10;
  TOKEN_LENGTH := token_length
|}.

Definition os : Entropy :=
  {| entropy_tape := λ n,
       default Byte.x00 (Byte.of_N (N.of_nat (7 * n + 3) mod 256)) |}.

Definition standard : Settings := settings 2 32.

Definition alice : Client := mkClient 1 100.
Definition bob : Client := mkClient 2 200.

(** Two players registered, the first of them waiting for a duel. *)
Definition lobby : Manager :=
  Eval vm_compute in
  run (settings := standard) (os := os)
    [Connect alice; Connect bob; JoinQueue 1 "duel"] init.

(** The duel of the two players has started. *)
Definition arena : Manager :=
  Eval vm_compute in
  run (settings := standard) (os := os) [JoinQueue 2 "duel"] lobby.

(** The first player has left the duel. *)
Definition forfeit : Manager :=
  Eval vm_compute in
  run (settings := standard) (os := os) [Disconnect 1] arena.

(** The duel after two passes of its worker. *)
Definition late : Manager :=
  Eval vm_compute in
  run (settings := standard) (os := os) [Work 2 1%positive [1; 2]] arena.

(** Both players waiting, with batches of three. *)
Definition trio : Settings := settings 3 32.

Definition bench : Manager :=
  Eval vm_compute in
  run (settings := trio) (os := os)
    [Connect alice; Connect bob; JoinQueue 1 "duel"; JoinQueue 2 "duel"] init.

End Duel.


(** * Properties *)

Section Properties.

Context {api : GameAPI} {settings : Settings} {os : Entropy}.

Notation "'let*' x ':=' c 'in' k" := (bind c (λ x, k))
  (at level 10, x name, c at level 100, k at level 200).
Notation "c '>>' k" := (bind c (λ _, k))
  (at level 80, right associativity).

(** ** Consistent states

    What holds of the registry, the queues and the session table between
    two operations. *)
Record wf (m : Manager) : Prop := mkWf {
  (** no player both waits and plays *)
  wf_exclusive : ∀ cid p,
    players m !! cid = Some p → queue p = None ∨ gameid p = None;
  (** a waiting player is in the queue it names, a queue of [GAMES] *)
  wf_waiting : ∀ cid p q,
    players m !! cid = Some p → queue p = Some q →
    is_Some (GAMES !! q) ∧ ∃ d, queues m !! q = Some d ∧ cid ∈ d;
  (** a queue holds distinct waiting players, fewer than a batch *)
  wf_queue : ∀ q d,
    queues m !! q = Some d →
    NoDup d ∧ Z.of_nat (length d) < PLAYERS_PER_GAME ∧
    ∀ cid, cid ∈ d → ∃ p, players m !! cid = Some p ∧ queue p = Some q;
  (** a session has a live worker, an id already issued, and a roster of
      distinct registered players that play in it *)
  wf_session : ∀ gid s,
    games m !! gid = Some s →
    finished (thread s) = false ∧ (gid < next_gameid m)%positive ∧
    NoDup (roster (thread s)) ∧
    ∀ cid, cid ∈ roster (thread s) →
      ∃ p, players m !! cid = Some p ∧ gameid p = Some gid;
  (** a playing player is on the roster of its session *)
  wf_playing : ∀ cid p gid,
    players m !! cid = Some p → gameid p = Some gid →
    ∃ s, games m !! gid = Some s ∧ cid ∈ roster (thread s)
}.

Lemma manager_eq (m1 m2 : Manager) :
  players m1 = players m2 → games m1 = games m2 →
  next_gameid m1 = next_gameid m2 → queues m1 = queues m2 →
  running m1 = running m2 → outbox m1 = outbox m2 →
  logged m1 = logged m2 → entropy_used m1 = entropy_used m2 →
  m1 = m2.
Proof. destruct m1, m2; simpl; congruence. Qed.

Lemma bind_unfold {A B} (c : M A) (k : A → M B) (m : Manager) :
  bind c k m =
    match c m with
    | (Ok a, m') => k a m'
    | (Raise e, m') => (Raise e, m')
    | (Diverge, m') => (Diverge, m')
    end.
Proof. reflexivity. Qed.

(** ** Deques *)

Lemma filter_ne_notin (cid : Z) (d : list Z) :
  cid ∉ d → filter (λ x, x ≠ cid) d = d.
Proof.
  induction d as [|y d IH]; [done|].
  intros [Hne Hnotin]%not_elem_of_cons.
  rewrite filter_cons_True by done. by rewrite IH.
Qed.

Lemma deque_remove_elem (cid : Z) (d : list Z) :
  cid ∈ d →
  ∃ d', deque_remove cid d = Some d' ∧
        length d = S (length d') ∧
        (∀ x, x ≠ cid → (x ∈ d' ↔ x ∈ d)) ∧
        (∀ x, x ∈ d' → x ∈ d) ∧
        (NoDup d → NoDup d' ∧ (cid ∉ d') ∧ d' = filter (λ x, x ≠ cid) d).
Proof.
  induction d as [|y d IH]; [by intros ?%elem_of_nil|].
  intros Hin. simpl. destruct (decide (y = cid)) as [->|Hne].
  - exists d. split; [done|]. split; [done|]. split; [|split].
    + intros x Hx. rewrite elem_of_cons. split; [tauto|]. intros [->|?]; [done|tauto].
    + intros x Hx. by right.
    + intros [Hnotin Hnd]%NoDup_cons. split; [done|]. split; [done|].
      rewrite filter_cons_False by naive_solver.
      by rewrite filter_ne_notin.
  - apply elem_of_cons in Hin as [->|Hin]; [done|].
    destruct (IH Hin) as (d' & Hrm & Hlen & Hiff & Hsub & Hnd).
    exists (y :: d'). rewrite Hrm. simpl.
    split; [done|]. split; [by rewrite Hlen|]. split; [|split].
    + intros x Hx. rewrite !elem_of_cons. by rewrite (Hiff x Hx).
    + intros x [->|Hx]%elem_of_cons; [by left|]. right. by apply Hsub.
    + intros [Hnotin Hnd']%NoDup_cons.
      destruct (Hnd Hnd') as (Hnd1 & Hout & Heq).
      split; [|split].
      * apply NoDup_cons. split; [|done]. intros Hy. by apply Hnotin, Hsub.
      * apply not_elem_of_cons. split; [congruence|done].
      * rewrite filter_cons_True by done. by rewrite <- Heq.
Qed.

(** ** Tokens *)

Lemma hexlify_length (bs : list byte) :
  String.length (hexlify bs) = (2 * length bs)%nat.
Proof. induction bs as [|b bs IH]; simpl; [done | rewrite IH; lia]. Qed.

Lemma urandom_ok (n : Z) (m : Manager) :
  0 ≤ n →
  urandom n m =
    (Ok (map entropy_tape (seq (entropy_used m) (Z.to_nat n))),
     with_entropy_used (entropy_used m + Z.to_nat n)%nat m).
Proof.
  intros Hn. unfold urandom.
  destruct (Z.ltb_spec n 0) as [Hlt|_]; [lia | reflexivity].
Qed.

Lemma urandom_negative (n : Z) (m : Manager) :
  n < 0 → urandom n m = (Raise ValueError, m).
Proof.
  intros Hn. unfold urandom.
  destruct (Z.ltb_spec n 0) as [_|Hge]; [reflexivity | lia].
Qed.

(** The token a successful [connect] hands out: the hexadecimal form of
    the next unread bytes of the entropy tape. *)
Definition fresh_token (m : Manager) : string :=
  hexlify (map entropy_tape (seq (entropy_used m) (Z.to_nat token_bytes))).

(** C6. [connect] raises [ServerStopping] when the manager is not running
    (this test comes first); when it is running it raises
    [AlreadyRegistered] for an identity that is present; otherwise it
    registers the client with [alive = True], no queue, no game and a token
    made from unread entropy, returns that token, and leaves every other
    player, the queues, the sessions and the running flag as they were. *)
Theorem connect_spec (client : Client) (m : Manager) :
  (running m = false → connect client m = (Raise ServerStopping, m)) ∧
  (running m = true → is_Some (players m !! client_id client) →
     connect client m = (Raise AlreadyRegistered, m)) ∧
  (running m = true → players m !! client_id client = None →
   0 ≤ TOKEN_LENGTH →
     ∃ m',
       connect client m = (Ok (fresh_token m), m') ∧
       players m' =
         <[client_id client := mkPlayer client true None None (fresh_token m)]>
           (players m) ∧
       (∀ cid, cid ≠ client_id client → players m' !! cid = players m !! cid) ∧
       games m' = games m ∧ queues m' = queues m ∧
       next_gameid m' = next_gameid m ∧ running m' = true ∧
       outbox m' = outbox m ∧ logged m' = logged m ∧
       entropy_used m' = (entropy_used m + Z.to_nat token_bytes)%nat).
Proof.
  split; [|split].
  - intros Hrun. unfold connect. simpl. by rewrite Hrun.
  - intros Hrun Hin. unfold connect. simpl. rewrite Hrun. simpl.
    by rewrite bool_decide_eq_true_2.
  - intros Hrun Hout Hlen. unfold connect. simpl. rewrite Hrun. simpl.
    rewrite bool_decide_eq_false_2 by (rewrite Hout; by intros [? ?]).
    simpl.
    assert (0 ≤ token_bytes) as Hq.
    { unfold token_bytes. apply Z.quot_pos; lia. }
    rewrite (urandom_ok _ _ Hq). simpl.
    eexists. split; [reflexivity|]. simpl.
    repeat split; try done.
    intros cid Hne. by rewrite lookup_insert_ne.
Qed.

(** C7 (as amended). A token returned by [connect] is the hexadecimal
    form of [int(TOKEN_LENGTH / 2)] bytes read from [os.urandom], bytes that
    no earlier call has read; its length is twice that number of bytes
    whatever the client and the state, which is [TOKEN_LENGTH] when
    [TOKEN_LENGTH] is even. *)
Theorem connect_token_length (client : Client) (m m' : Manager) (tok : string) :
  connect client m = (Ok tok, m') →
  tok = hexlify (map entropy_tape (seq (entropy_used m) (Z.to_nat (TOKEN_LENGTH ÷ 2)))) ∧
  entropy_used m' = (entropy_used m + Z.to_nat (TOKEN_LENGTH ÷ 2))%nat ∧
  Z.of_nat (String.length tok) = 2 * (TOKEN_LENGTH ÷ 2) ∧
  (Z.even TOKEN_LENGTH = true → Z.of_nat (String.length tok) = TOKEN_LENGTH).
Proof.
  unfold connect. simpl.
  destruct (running m); simpl; [|done].
  case_bool_decide; simpl; [done|].
  destruct (Z.ltb_spec token_bytes 0) as [Hneg|Hpos].
  { by rewrite urandom_negative. }
  rewrite urandom_ok by done. simpl.
  intros [= <- <-]. fold token_bytes. split; [done|]. split; [done|].
  rewrite hexlify_length, length_map, length_seq.
  split; [lia|].
  intros [k Hk]%Z.even_spec. unfold token_bytes in *.
  rewrite Hk in *. rewrite (Z.mul_comm 2 k), Z.quot_mul in * by lia. lia.
Qed.

(** ** Events *)

(** C8. [send_event] raises [NotRegistered] for an unknown identity,
    [NotInGame] for a player without a game, [InvalidEvent] for an event
    that the game does not list, and in these three cases the state is the
    one before the call; for a listed event it logs the event and calls
    [run_event] on the player's game with the caller's arguments, the
    call's result being the result of [send_event]. *)
Theorem send_event_spec (cid : Z) (event : string) (args : Args) (m : Manager) :
  (players m !! cid = None →
     send_event cid event args m = (Raise NotRegistered, m)) ∧
  (∀ p, players m !! cid = Some p → gameid p = None →
     send_event cid event args m = (Raise NotInGame, m)) ∧
  (∀ p gid s events,
     players m !! cid = Some p → gameid p = Some gid →
     games m !! gid = Some s →
     game_get_events (game s) = Returns events →
     (event ∉ events →
        send_event cid event args m = (Raise InvalidEvent, m)) ∧
     (event ∈ events →
        let r := game_run_event cid event args (game s) in
        send_event cid event args m =
          (match fst r with Returns _ => Ok tt | Throws e => Raise e end,
           with_games (insert gid (mkSession (snd r) (thread s)))
             (with_logged (λ l, l ++ [LogFired cid event gid]) m)))).
Proof.
  split; [|split].
  - intros Hp. unfold send_event. simpl. by rewrite Hp.
  - intros p Hp Hg. unfold send_event. simpl. by rewrite Hp, Hg.
  - intros p gid s events Hp Hg Hs Hev. split.
    + intros Hnot. unfold send_event, game_at. simpl.
      rewrite Hp, Hg. simpl. rewrite Hs. simpl. rewrite Hev. simpl.
      by rewrite bool_decide_eq_true_2.
    + intros Hin. unfold send_event, game_at, on_game. simpl.
      rewrite Hp, Hg. simpl. rewrite Hs. simpl. rewrite Hev. simpl.
      rewrite bool_decide_eq_false_2 by (by intros ?). simpl.
      rewrite Hs. simpl.
      destruct (game_run_event cid event args (game s)) as [[[]|e] g']; done.
Qed.

(** ** Disconnection *)

(** The queues once player [p] (identity [cid]) has left the queue it
    waits in, if any; [None] when that queue or the player's entry in it
    is missing. *)
Definition leave_queue (cid : Z) (p : Player) (qs : gmap string (list Z))
  : option (gmap string (list Z)) :=
  match queue p with
  | None => Some qs
  | Some q =>
      d ← qs !! q;
      d' ← deque_remove cid d;
      Some (<[q := d']> qs)
  end.

(** The log once the player has left its queue. *)
Definition leave_log (cid : Z) (p : Player) (l : list LogRecord) : list LogRecord :=
  match queue p with
  | None => l
  | Some _ => l ++ [LogLeftQueue cid]
  end.

Lemma leave_queue_run (cid : Z) (p : Player) (m : Manager) qs :
  leave_queue cid p (queues m) = Some qs →
  match queue p with
  | Some q => log (LogLeftQueue cid) >> queue_remove q cid
  | None => ret tt
  end m
  = (Ok tt, with_queues (λ _, qs) (with_logged (leave_log cid p) m)).
Proof.
  unfold leave_queue, leave_log, queue_remove.
  destruct (queue p) as [q|]; simpl.
  - destruct (queues m !! q) as [d|] eqn:Hd; simpl; [|done].
    destruct (deque_remove cid d) as [d'|] eqn:Hd'; simpl; [|done].
    by intros [= <-].
  - intros [= <-]. by destruct m.
Qed.

Lemma disconnect_removes (cid : Z) (m : Manager) p qs :
  players m !! cid = Some p →
  leave_queue cid p (queues m) = Some qs →
  gameid p = None ∨ running m = false →
  disconnect cid m =
    (Ok tt,
     with_players (delete cid)
       (with_logged (λ l, l ++ [LogRemoved cid])
          (with_queues (λ _, qs) (with_logged (leave_log cid p) m)))).
Proof.
  intros Hp Hq Hcase. unfold disconnect. simpl. rewrite Hp.
  rewrite bind_unfold, (leave_queue_run _ _ _ _ Hq). simpl.
  destruct (gameid p) as [gid|]; [|done].
  destruct Hcase as [|Hrun]; [done|]. by rewrite Hrun.
Qed.

(** C3. [disconnect] raises [NotRegistered] for an absent identity and
    changes nothing. For a registered player it first takes the player out
    of the queue it waits in. Then, when the player has no game or the
    manager is not running, the player is deleted from the registry;
    otherwise the game of the player's session is told to [kill] the
    player, the player stays registered, and its [alive] flag is cleared. *)
Theorem disconnect_spec (cid : Z) (m : Manager) :
  (players m !! cid = None →
     disconnect cid m = (Raise NotRegistered, m)) ∧
  (∀ p qs,
     players m !! cid = Some p →
     leave_queue cid p (queues m) = Some qs →
     let m1 := with_queues (λ _, qs) (with_logged (leave_log cid p) m) in
     (gameid p = None ∨ running m = false →
        disconnect cid m =
          (Ok tt,
           with_players (delete cid)
             (with_logged (λ l, l ++ [LogRemoved cid]) m1))) ∧
     (∀ gid s g',
        gameid p = Some gid → running m = true →
        games m !! gid = Some s →
        game_kill cid (game s) = (Returns tt, g') →
        disconnect cid m =
          (Ok tt,
           with_players (alter (set_alive false) cid)
             (with_games (insert gid (mkSession g' (thread s)))
                (with_logged (λ l, l ++ [LogKilled cid gid]) m1))))).
Proof.
  split.
  - intros Hp. unfold disconnect. simpl. by rewrite Hp.
  - intros p qs Hp Hq m1. split.
    + intros Hcase. by apply disconnect_removes.
    + intros gid s g' Hg Hrun Hs Hkill. unfold disconnect. simpl. rewrite Hp.
      change (bind ?c ?k m) with (match c m with
        | (Ok a, m') => k a m' | (Raise e, m') => (Raise e, m')
        | (Diverge, m') => (Diverge, m') end).
      rewrite (leave_queue_run _ _ _ _ Hq). simpl.
      rewrite Hg, Hrun. unfold on_game, update_player. simpl.
      rewrite Hs. simpl. by rewrite Hkill.
Qed.

(** ** Joining a queue *)

(** C10. A player who waits in queue [q] and joins [q] again is taken out
    of the queue and appended at its tail: the call returns, the other
    waiting players keep their order, the queue keeps its length, and
    nothing else than the queue and the log changes. *)
Theorem join_queue_again (cid : Z) (q : string) (m : Manager) (p : Player) :
  wf m → running m = true →
  players m !! cid = Some p → queue p = Some q →
  ∃ d, queues m !! q = Some d ∧ cid ∈ d ∧
    let d' := filter (λ x, x ≠ cid) d ++ [cid] in
    length d' = length d ∧
    join_queue cid q m =
      (Ok tt,
       with_queues (insert q d')
         (with_logged (λ l, l ++ [LogJoined cid q (length d)]) m)).
Proof.
  intros Hwf Hrun Hp Hq.
  destruct (wf_waiting m Hwf cid p q Hp Hq) as (Hgames & d & Hd & Hin).
  destruct (wf_queue m Hwf q d Hd) as (Hnd & Hlen & _).
  destruct (wf_exclusive m Hwf cid p Hp) as [Hq'|Hg]; [congruence|].
  destruct (deque_remove_elem cid d Hin) as (d' & Hrm & Hlen' & _ & _ & Hnd').
  destruct (Hnd' Hnd) as (_ & _ & Hfilter).
  exists d. split; [done|]. split; [done|]. simpl.
  rewrite <- Hfilter.
  assert (length (d' ++ [cid]) = length d) as Hsame.
  { rewrite length_app. simpl. lia. }
  split; [done|].
  unfold join_queue. simpl. rewrite Hrun. simpl.
  rewrite bool_decide_eq_false_2 by (intros Hnone; rewrite Hnone in Hgames; by destruct Hgames).
  simpl. rewrite Hp. simpl. rewrite Hg. simpl.
  rewrite Hq. unfold queue_remove, update_player. simpl.
  rewrite Hd. simpl. rewrite Hrm. simpl.
  rewrite lookup_insert_eq.
  rewrite bool_decide_eq_false_2 by done. simpl.
  rewrite lookup_alter_eq, lookup_insert_eq. simpl.
  rewrite Hsame.
  rewrite bool_decide_eq_false_2 by lia. simpl.
  f_equal. apply manager_eq; simpl; try done.
  - apply alter_id. intros p' Hp'. rewrite Hp in Hp'. injection Hp' as <-.
    destruct p; simpl in *; by subst.
  - by rewrite alter_insert_eq.
Qed.

(** ** Starting a game *)

Lemma popleft_n_run (q : string) (batch rest : list Z) (m : Manager) :
  queues m !! q = Some (batch ++ rest) →
  popleft_n (length batch) q m = (Ok batch, with_queues (insert q rest) m).
Proof.
  revert m. induction batch as [|x batch IH]; intros m Hq; simpl.
  - f_equal. apply manager_eq; simpl; try done.
    symmetry. by apply insert_id.
  - unfold popleft. simpl. rewrite Hq. simpl.
    rewrite IH by (simpl; by rewrite lookup_insert_eq). simpl.
    f_equal. apply manager_eq; simpl; try done.
    by rewrite insert_insert_eq.
Qed.

(** What [start_game] writes into the entry of a player of the batch. *)
Definition enlist (gid : positive) (p : Player) : Player :=
  set_gameid (Some gid) (set_queue None p).

Definition enroll (gid : positive) (ps : list Z) (pl : gmap Z Player)
  : gmap Z Player :=
  foldl (λ acc pid, alter (enlist gid) pid acc) pl ps.

(** The socket of player [pid] when its [alive] flag is set. *)
Definition addressee (pl : gmap Z Player) (pid : Z) : option Client :=
  match pl !! pid with
  | Some p => if alive p then Some (socket p) else None
  | None => None
  end.

(** The sockets of the players of [ps] whose [alive] flag is set, in the
    order of [ps]. *)
Definition recipients (pl : gmap Z Player) (ps : list Z) : list Client :=
  omap (addressee pl) ps.

Definition mail (pl : gmap Z Player) (ps : list Z) (msg : Message)
  : list (Client * Message) :=
  map (λ c, (c, msg)) (recipients pl ps).

Lemma addressee_alter (f : Player → Player) (cid pid : Z) pl :
  (∀ p, alive (f p) = alive p ∧ socket (f p) = socket p) →
  addressee (alter f cid pl) pid = addressee pl pid.
Proof.
  intros Hf. unfold addressee.
  destruct (decide (cid = pid)) as [->|Hne].
  - rewrite lookup_alter_eq. destruct (pl !! pid) as [p|]; simpl; [|done].
    destruct (Hf p) as [-> ->]. done.
  - by rewrite lookup_alter_ne.
Qed.

Lemma recipients_alter (f : Player → Player) (cid : Z) pl ps :
  (∀ p, alive (f p) = alive p ∧ socket (f p) = socket p) →
  recipients (alter f cid pl) ps = recipients pl ps.
Proof.
  intros Hf. unfold recipients.
  induction ps as [|x ps IH]; [done|]. csimpl.
  rewrite addressee_alter by done. by rewrite IH.
Qed.

Lemma enlist_keeps gid p :
  alive (enlist gid p) = alive p ∧ socket (enlist gid p) = socket p.
Proof. done. Qed.

Lemma enroll_lookup gid ps pl x :
  enroll gid ps pl !! x =
    if decide (x ∈ ps) then enlist gid <$> pl !! x else pl !! x.
Proof.
  unfold enroll. revert pl. induction ps as [|y ps IH]; intros pl; cbn [foldl].
  - destruct (decide (x ∈ [])) as [Hin%elem_of_nil|]; done.
  - rewrite IH. destruct (decide (y = x)) as [->|Hne].
    + rewrite lookup_alter_eq.
      destruct (decide (x ∈ x :: ps)) as [_|Hn];
        [|exfalso; apply Hn; apply list_elem_of_here].
      destruct (decide (x ∈ ps)); [|done]. by destruct (pl !! x).
    + rewrite lookup_alter_ne by done.
      destruct (decide (x ∈ ps)) as [Hin|Hout],
               (decide (x ∈ y :: ps)) as [Hin'|Hout']; try done.
      * exfalso. apply Hout'. by apply list_elem_of_further.
      * apply elem_of_cons in Hin' as [->|?]; done.
Qed.

(** The body of the loop of [start_game] over the batch. *)
Definition enroll_body (gid : positive) (msg : Message) (pid : Z) : M unit :=
  player_at pid >>
  update_player pid (set_queue None) >>
  update_player pid (set_gameid (Some gid)) >>
  let* p := player_at pid in
  when (alive p) (send_message (socket p) msg).

Lemma enroll_body_run gid msg x p (m : Manager) :
  players m !! x = Some p →
  enroll_body gid msg x m =
    (Ok tt,
     with_outbox (λ l, l ++ mail (players m) [x] msg)
       (with_players (alter (enlist gid) x) m)).
Proof.
  intros Hp. unfold enroll_body, player_at, update_player. simpl.
  rewrite Hp. simpl. rewrite !lookup_alter_eq, Hp. simpl.
  unfold mail, recipients, addressee. csimpl. rewrite Hp.
  destruct (alive p); simpl; f_equal; apply manager_eq; simpl; try done.
  - by rewrite alter_alter_eq.
  - by rewrite alter_alter_eq.
  - by rewrite app_nil_r.
Qed.

Lemma enroll_run gid (msg : Message) ps (m : Manager) :
  (∀ x, x ∈ ps → is_Some (players m !! x)) →
  for_each ps (enroll_body gid msg) m
  = (Ok tt,
     with_outbox (λ l, l ++ mail (players m) ps msg)
       (with_players (enroll gid ps) m)).
Proof.
  revert m. induction ps as [|x ps IH]; intros m Hreg.
  - simpl. f_equal. apply manager_eq; simpl; try done.
    unfold mail. simpl. by rewrite app_nil_r.
  - destruct (Hreg x) as [p Hp]; [apply list_elem_of_here|].
    cbn [for_each]. rewrite bind_unfold.
    rewrite (enroll_body_run _ _ _ _ _ Hp). rewrite IH.
    + f_equal. apply manager_eq; simpl; try done.
      unfold mail. rewrite recipients_alter by apply enlist_keeps.
      rewrite <- app_assoc, <- map_app. do 2 f_equal.
      unfold recipients. csimpl. by destruct (addressee (players m) x).
    + intros y Hy. simpl. apply lookup_alter_is_Some.
      apply Hreg. by apply list_elem_of_further.
Qed.

(** [start_game] on a queue that holds exactly a batch of registered
    players, with a game that can be built. *)
Lemma start_game_run (q : string) (m : Manager) batch conf kwargs g startup :
  queues m !! q = Some batch →
  length batch = Z.to_nat PLAYERS_PER_GAME →
  (∀ x, x ∈ batch → is_Some (players m !! x)) →
  GAMES !! q = Some conf →
  initfunc conf = Returns kwargs →
  gamefunc conf (next_gameid m) batch kwargs = Returns g →
  game_get_startup_status g = Returns startup →
  start_game q m =
    (Ok tt,
     mkManager
       (enroll (next_gameid m) batch (players m))
       (<[next_gameid m := mkSession g (mkThread batch false)]> (games m))
       (Pos.succ (next_gameid m))
       (<[q := []]> (queues m))
       (running m)
       (outbox m ++ mail (players m) batch (StartupStatus startup))
       (logged m ++ [LogStarting q (next_gameid m) batch;
                     LogCommand (next_gameid m) (StartupStatus startup)])
       (entropy_used m)).
Proof.
  intros Hq Hlen Hreg Hconf Hinit Hgame Hstartup.
  unfold start_game. rewrite bind_unfold. simpl get. cbv iota beta.
  rewrite bind_unfold. simpl modify. cbv iota beta.
  rewrite bind_unfold. rewrite <- Hlen.
  rewrite (popleft_n_run q batch []) by (simpl; by rewrite app_nil_r).
  cbv iota beta. rewrite Hconf.
  rewrite bind_unfold. simpl log. cbv iota beta.
  rewrite bind_unfold. rewrite Hinit. simpl call. cbv iota beta.
  rewrite bind_unfold. rewrite Hgame. simpl call. cbv iota beta.
  rewrite bind_unfold. rewrite Hstartup. simpl call. cbv iota beta.
  rewrite bind_unfold. simpl log. cbv iota beta.
  rewrite bind_unfold.
  change (for_each batch _) with (for_each batch (enroll_body (next_gameid m) (StartupStatus startup))).
  rewrite enroll_run by done.
  simpl. f_equal. apply manager_eq; simpl; try done.
  by rewrite <- app_assoc.
Qed.

(** The first steps of [join_queue] once its guards are passed: the
    player leaves the queue it waits in and is appended to [q]. *)
Lemma join_queue_admitted (cid : Z) (q : string) (m : Manager) p qs :
  running m = true → is_Some (GAMES !! q) →
  players m !! cid = Some p → gameid p = None →
  leave_queue cid p (queues m) = Some qs →
  let d := default [] (qs !! q) ++ [cid] in
  join_queue cid q m =
    when (bool_decide (PLAYERS_PER_GAME ≤ Z.of_nat (length d))) (start_game q)
      (with_logged (λ l, l ++ [LogJoined cid q (length d)])
         (with_queues (λ _, <[q := d]> qs)
            (with_players (alter (set_queue (Some q)) cid) m))).
Proof.
  intros Hrun Hgames Hp Hg Hleave d.
  unfold join_queue. simpl. rewrite Hrun. simpl.
  rewrite bool_decide_eq_false_2
    by (intros Hnone; rewrite Hnone in Hgames; by destruct Hgames).
  simpl. rewrite Hp. simpl. rewrite Hg. simpl.
  assert (match queue p with
          | Some q0 => queue_remove q0 cid
          | None => ret tt
          end m = (Ok tt, with_queues (λ _, qs) m)) as ->.
  { revert Hleave. unfold leave_queue, queue_remove.
    destruct (queue p) as [q0|]; simpl.
    - destruct (queues m !! q0) as [d0|]; simpl; [|done].
      destruct (deque_remove cid d0) as [d0'|]; simpl; [|done].
      by intros [= <-].
    - intros [= <-]. f_equal. by apply manager_eq. }
  unfold update_player. simpl.
  case_bool_decide as Hnone; simpl.
  - assert (alter (λ d0, d0 ++ [cid]) q (<[q:=[]]> qs) = <[q:=d]> qs) as HQ.
    { subst d. rewrite Hnone. simpl. by rewrite alter_insert_eq. }
    rewrite !HQ, lookup_insert_eq. simpl. f_equal.
    apply manager_eq; simpl; try done.
  - destruct (qs !! q) as [d0|] eqn:Hd0; [|done].
    assert (alter (λ d0, d0 ++ [cid]) q qs = <[q:=d]> qs) as HQ.
    { subst d. simpl. apply map_eq. intros k.
      destruct (decide (q = k)) as [<-|Hne].
      - by rewrite lookup_alter_eq, lookup_insert_eq, Hd0.
      - by rewrite lookup_alter_ne, lookup_insert_ne. }
    rewrite !HQ, lookup_insert_eq. simpl. f_equal.
    apply manager_eq; simpl; try done.
Qed.

Lemma wf_leave_queue (cid : Z) (m : Manager) p :
  wf m → players m !! cid = Some p →
  ∃ qs, leave_queue cid p (queues m) = Some qs ∧
    (∀ q, queue p ≠ Some q → qs !! q = queues m !! q) ∧
    (∀ q, queue p = Some q →
       ∃ d, queues m !! q = Some d ∧ cid ∈ d ∧
            qs = <[q := filter (λ x, x ≠ cid) d]> (queues m)).
Proof.
  intros Hwf Hp. unfold leave_queue. destruct (queue p) as [q0|] eqn:Hq0.
  - destruct (wf_waiting m Hwf cid p q0 Hp Hq0) as (_ & d & Hd & Hin).
    destruct (wf_queue m Hwf q0 d Hd) as (Hnd & _ & _).
    destruct (deque_remove_elem cid d Hin) as (d' & Hrm & _ & _ & _ & Hnd').
    destruct (Hnd' Hnd) as (_ & _ & ->).
    rewrite Hd. simpl. rewrite Hrm. simpl. eexists. split; [done|]. split.
    + intros q Hne. rewrite lookup_insert_ne; [done|congruence].
    + intros q [= <-]. eauto.
  - eexists. split; [done|]. split; [done|]. done.
Qed.

Lemma wf_fresh_gameid (m : Manager) :
  wf m → games m !! next_gameid m = None.
Proof.
  intros Hwf. destruct (games m !! next_gameid m) as [s|] eqn:Hs; [|done].
  destruct (wf_session m Hwf _ _ Hs) as (_ & Hlt & _). lia.
Qed.

(** C1. When a join brings a queue to the batch size, the whole queue is
    taken out from its left end: the queue is left empty, one session is
    added to the session table under the next id, its roster is the former
    queue in arrival order followed by the joiner, and every player of the
    roster now has that session and no queue. *)
Theorem join_queue_fills_batch (cid : Z) (q : string) (m : Manager) p conf
    kwargs g startup :
  wf m → running m = true →
  GAMES !! q = Some conf →
  players m !! cid = Some p → gameid p = None →
  let waiting := default [] (queues m !! q) in
  let batch := filter (λ x, x ≠ cid) waiting ++ [cid] in
  let gid := next_gameid m in
  Z.of_nat (length batch) = PLAYERS_PER_GAME →
  initfunc conf = Returns kwargs →
  gamefunc conf gid batch kwargs = Returns g →
  game_get_startup_status g = Returns startup →
  batch = waiting ++ [cid] ∧
  games m !! gid = None ∧
  ∃ m',
    join_queue cid q m = (Ok tt, m') ∧
    queues m' !! q = Some [] ∧
    games m' = <[gid := mkSession g (mkThread batch false)]> (games m) ∧
    next_gameid m' = Pos.succ gid ∧
    (∀ x, x ∈ batch →
       ∃ px, players m !! x = Some px ∧
             players m' !! x =
               Some (mkPlayer (socket px) (alive px) (Some gid) None (token px))) ∧
    (∀ x, x ∉ batch → players m' !! x = players m !! x) ∧
    outbox m' = outbox m ++ mail (players m) batch (StartupStatus startup).
Proof.
  intros Hwf Hrun Hconf Hp Hg waiting batch gid Hlen Hinit Hgame Hstartup.
  destruct (wf_leave_queue cid m p Hwf Hp) as (qs & Hleave & Hother & Hsame).
  assert (queue p ≠ Some q) as Hnq.
  { intros Hq. destruct (Hsame q Hq) as (d & Hd & Hin & _).
    destruct (wf_queue m Hwf q d Hd) as (_ & Hshort & _).
    destruct (deque_remove_elem cid d Hin) as (d' & _ & Hlen' & _ & _ & Hnd').
    destruct (wf_queue m Hwf q d Hd) as (Hnd & _ & _).
    destruct (Hnd' Hnd) as (_ & _ & Hd').
    subst batch waiting. rewrite Hd in Hlen. simpl in Hlen.
    rewrite <- Hd', length_app in Hlen. simpl in Hlen. lia. }
  assert (cid ∉ waiting) as Hnotin.
  { subst waiting. destruct (queues m !! q) as [d|] eqn:Hd; simpl;
      [|apply not_elem_of_nil].
    intros Hin. destruct (wf_queue m Hwf q d Hd) as (_ & _ & Hmem).
    destruct (Hmem cid Hin) as (p' & Hp' & Hq'). congruence. }
  assert (batch = waiting ++ [cid]) as Hbatch.
  { subst batch. by rewrite filter_ne_notin. }
  split; [done|]. split; [by apply wf_fresh_gameid|].
  rewrite (join_queue_admitted cid q m p qs) by eauto.
  rewrite (Hother q Hnq). fold waiting. rewrite <- Hbatch.
  rewrite bool_decide_eq_true_2 by lia. simpl when.
  assert (∀ x, x ∈ batch → is_Some (players m !! x)) as Hreg.
  { intros x. rewrite Hbatch. intros [Hx| ->%list_elem_of_singleton]%elem_of_app;
      [|eauto].
    subst waiting. destruct (queues m !! q) as [d|] eqn:Hd; simpl in Hx;
      [|by apply elem_of_nil in Hx].
    destruct (wf_queue m Hwf q d Hd) as (_ & _ & Hmem).
    destruct (Hmem x Hx) as (px & Hpx & _). eauto. }
  erewrite start_game_run; first last; simpl; eauto.
  { intros x Hx. apply lookup_alter_is_Some. by apply Hreg. }
  { lia. }
  { by rewrite lookup_insert_eq. }
  eexists. split; [reflexivity|]. simpl.
  split; [by rewrite lookup_insert_eq|]. split; [done|]. split; [done|].
  split; [|split].
  - intros x Hx. destruct (Hreg x Hx) as [px Hpx]. exists px. split; [done|].
    rewrite enroll_lookup, decide_True by done.
    destruct (decide (cid = x)) as [->|Hne].
    + rewrite lookup_alter_eq, Hpx. done.
    + rewrite lookup_alter_ne, Hpx by done. done.
  - intros x Hx. rewrite enroll_lookup, decide_False by done.
    rewrite lookup_alter_ne; [done|].
    intros ->. apply Hx. rewrite Hbatch. apply elem_of_app. right.
    by apply list_elem_of_singleton.
  - f_equal. unfold mail. f_equal.
    apply recipients_alter. done.
Qed.

(** ** The worker of a session *)

(** States that differ only in the game object of session [gid], the
    outbox and the log. *)
Record steady (gid : positive) (m m' : Manager) : Prop := mkSteady {
  steady_players : players m' = players m;
  steady_queues : queues m' = queues m;
  steady_running : running m' = running m;
  steady_next : next_gameid m' = next_gameid m;
  steady_entropy : entropy_used m' = entropy_used m;
  steady_thread : thread <$> games m' !! gid = thread <$> games m !! gid;
  steady_others : ∀ gid', gid' ≠ gid → games m' !! gid' = games m !! gid'
}.

Lemma steady_refl gid m : steady gid m m.
Proof. by split. Qed.

Lemma steady_trans gid m1 m2 m3 :
  steady gid m1 m2 → steady gid m2 m3 → steady gid m1 m3.
Proof.
  intros [? ? ? ? ? Ht1 Ho1] [? ? ? ? ? Ht2 Ho2]. split; [congruence..|].
  intros gid' Hne. by rewrite Ho2, Ho1.
Qed.

Lemma steady_threads gid m m' :
  steady gid m m' →
  ∀ gid', thread <$> games m' !! gid' = thread <$> games m !! gid'.
Proof.
  intros H gid'. destruct (decide (gid' = gid)) as [->|Hne].
  - apply (steady_thread _ _ _ H).
  - by rewrite (steady_others _ _ _ H).
Qed.

Lemma steady_wf gid m m' : steady gid m m' → wf m → wf m'.
Proof.
  intros Hst [H1 H2 H3 H4 H5].
  pose proof (steady_threads gid m m' Hst) as Ht.
  destruct Hst as [Hp Hq Hr Hn _ _ _]. split.
  - intros cid p. rewrite Hp. apply H1.
  - intros cid p q. rewrite Hp, Hq. apply H2.
  - intros q d. rewrite Hp, Hq. apply H3.
  - intros gid0 s Hs. specialize (Ht gid0). rewrite Hs in Ht. simpl in Ht.
    destruct (games m !! gid0) as [s0|] eqn:Hs0; simpl in Ht; [|done].
    injection Ht as Ht. rewrite Ht, Hn, Hp. by apply H4.
  - intros cid p gid0. rewrite Hp. intros Hcid Hgid.
    destruct (H5 cid p gid0 Hcid Hgid) as (s & Hs & Hin).
    specialize (Ht gid0). rewrite Hs in Ht. simpl in Ht.
    destruct (games m' !! gid0) as [s'|]; simpl in Ht; [|done].
    injection Ht as Ht. exists s'. by rewrite Ht.
Qed.

(** Commands whose final state is related to their initial state by a
    preorder [R], whatever their outcome. *)
Section Follows.

Context (R : relation Manager) `{!PreOrder R}.

Definition follows {A} (c : M A) : Prop := ∀ m, R m (snd (c m)).

Lemma follows_ret {A} (a : A) : follows (ret a).
Proof. intros m. simpl. reflexivity. Qed.

Lemma follows_raise {A} (e : exn) : follows (raise (A:=A) e).
Proof. intros m. simpl. reflexivity. Qed.

Lemma follows_get : follows get.
Proof. intros m. simpl. reflexivity. Qed.

Lemma follows_modify f : (∀ m, R m (f m)) → follows (modify f).
Proof. intros Hf m. apply Hf. Qed.

Lemma follows_bind {A B} (c : M A) (k : A → M B) :
  follows c → (∀ a, follows (k a)) → follows (bind c k).
Proof.
  intros Hc Hk m. simpl. specialize (Hc m).
  destruct (c m) as [[a| |] m1]; simpl in *; [|done|done].
  etrans; [done|apply Hk].
Qed.

Lemma follows_call {A} (r : result A) : follows (call r).
Proof. destruct r; [apply follows_ret|apply follows_raise]. Qed.

Lemma follows_raise_if b e : follows (raise_if b e).
Proof. destruct b; [apply follows_raise|apply follows_ret]. Qed.

Lemma follows_when b c : follows c → follows (when b c).
Proof. destruct b; [done|intros _; apply follows_ret]. Qed.

Lemma follows_for_each {A} (xs : list A) (body : A → M unit) :
  (∀ x, follows (body x)) → follows (for_each xs body).
Proof.
  intros Hbody. induction xs as [|x xs IH]; simpl.
  - apply follows_ret.
  - apply follows_bind; [apply Hbody|done].
Qed.

Lemma follows_try_except {A} (body : M A) (handler : exn → M A) :
  follows body → (∀ e, follows (handler e)) →
  follows (try_except body handler).
Proof.
  intros Hb Hh m. simpl. specialize (Hb m).
  destruct (body m) as [[a|e|] m1]; simpl in *; [done| |done].
  etrans; [done|apply Hh].
Qed.

Lemma follows_try_finally {A} (body : M A) (final : M unit) :
  follows body → follows final → follows (try_finally body final).
Proof.
  intros Hb Hf m. simpl. specialize (Hb m). specialize (Hf (snd (body m))).
  destruct (body m) as [[a|e|] m1]; simpl in *; [| |done];
    destruct (final m1) as [[[]|e'|] m2]; simpl in *; by etrans.
Qed.

Lemma follows_player_at cid : follows (player_at cid).
Proof.
  unfold player_at. apply follows_bind; [apply follows_get|]. intros m.
  destruct (players m !! cid); [apply follows_ret|apply follows_raise].
Qed.

Lemma follows_game_at gid : follows (game_at gid).
Proof.
  unfold game_at. apply follows_bind; [apply follows_get|]. intros m.
  destruct (games m !! gid); [apply follows_ret|apply follows_raise].
Qed.

End Follows.

(** [follow l] applies a lemma of the section above and finds its
    preorder. *)
Tactic Notation "follow" constr(l) := apply l; try (solve [apply _]).

#[local] Instance steady_preorder gid : PreOrder (steady gid).
Proof.
  split; [intros m; apply steady_refl|intros m1 m2 m3; apply steady_trans].
Qed.

(** Commands that keep the state steady. *)
Definition keeps {A} (gid : positive) (c : M A) : Prop :=
  follows (steady gid) c.

Lemma keeps_log gid r : keeps gid (log r).
Proof. follow follows_modify. intros m. by split. Qed.

Lemma keeps_send gid c msg : keeps gid (send_message c msg).
Proof. follow follows_modify. intros m. by split. Qed.

Lemma keeps_on_game {A} gid (method : Game → result A * Game) :
  keeps gid (on_game gid method).
Proof.
  intros m. unfold on_game. simpl.
  destruct (games m !! gid) as [s|] eqn:Hs; simpl; [|apply steady_refl].
  assert (steady gid m (with_games
    (insert gid (mkSession (snd (method (game s))) (thread s))) m)).
  { split; try done; simpl.
    - by rewrite lookup_insert_eq, Hs.
    - intros gid' Hne. by rewrite lookup_insert_ne. }
  by destruct (fst (method (game s))).
Qed.

Lemma keeps_notify gid ps msg : keeps gid (notify ps msg).
Proof.
  unfold notify. follow follows_for_each. intros x.
  follow follows_bind; [follow follows_player_at|]. intros p.
  follow follows_when; apply keeps_send.
Qed.

Lemma keeps_loop_pass gid ps : keeps gid (loop_pass gid ps).
Proof.
  unfold loop_pass. follow follows_bind; [follow follows_get|]. intros m.
  destruct (negb (running m)); [follow follows_ret|].
  follow follows_bind; [follow follows_raise_if|]. intros _.
  follow follows_bind; [apply keeps_on_game|]. intros status.
  follow follows_bind.
  { follow follows_when; follow follows_bind; [apply keeps_log|].
    intros _. apply keeps_notify. }
  intros _. follow follows_bind; [follow follows_game_at|]. intros g.
  destruct (game_gameover g); [|follow follows_ret].
  follow follows_bind; [|intros _; follow follows_ret].
  destruct (winner status); [apply keeps_log|follow follows_ret].
Qed.

Lemma keeps_while_running fuel gid ps : keeps gid (while_running fuel gid ps).
Proof.
  induction fuel as [|fuel IH]; simpl.
  - intros m. apply steady_refl.
  - follow follows_bind; [apply keeps_loop_pass|].
    intros []; [done|follow follows_ret].
Qed.

Lemma keeps_report_fault gid ps e : keeps gid (report_fault ps e).
Proof.
  unfold report_fault. follow follows_bind; [apply keeps_log|].
  intros _. apply keeps_notify.
Qed.

(** The part of [game_handler] that comes before the [finally] block. *)
Definition supervised_loop (fuel : nat) (gid : positive) (ps : list Z) : M unit :=
  try_except (while_running fuel gid ps) (report_fault ps).

Lemma keeps_supervised_loop fuel gid ps :
  keeps gid (supervised_loop fuel gid ps).
Proof.
  follow follows_try_except; [apply keeps_while_running|].
  intros e. apply keeps_report_fault.
Qed.

(** ** Session cleanup *)

(** What the [finally] block does to the entry of a participant: a live
    player loses its game, a dead one its registration. *)
Definition release (pl : gmap Z Player) (pid : Z) : gmap Z Player :=
  match pl !! pid with
  | Some p => if alive p then alter (set_gameid None) pid pl else delete pid pl
  | None => pl
  end.

Definition release_all (ps : list Z) (pl : gmap Z Player) : gmap Z Player :=
  foldl release pl ps.

(** The log records of the removals among [ps]. *)
Definition dismissed (pl : gmap Z Player) (pid : Z) : list LogRecord :=
  match pl !! pid with
  | Some p => if alive p then [] else [LogRemoved pid]
  | None => []
  end.

Definition dismissals (pl : gmap Z Player) (ps : list Z) : list LogRecord :=
  flat_map (dismissed pl) ps.

(** The body of the loop of the [finally] block. *)
Definition release_body (pid : Z) : M unit :=
  player_at pid >>
  update_player pid (set_gameid None) >>
  let* p := player_at pid in
  when (negb (alive p)) (disconnect pid).

Lemma release_body_run x p (m : Manager) :
  players m !! x = Some p → queue p = None →
  release_body x m =
    (Ok tt,
     with_logged (λ l, l ++ dismissed (players m) x)
       (with_players (λ pl, release pl x) m)).
Proof.
  intros Hp Hq. unfold release_body, player_at, update_player. simpl.
  rewrite Hp. simpl. rewrite lookup_alter_eq, Hp. simpl.
  unfold dismissed. rewrite Hp.
  destruct (alive p) eqn:Ha; simpl.
  - f_equal. apply manager_eq; simpl; try done.
    + unfold release. by rewrite Hp, Ha.
    + by rewrite app_nil_r.
  - unfold disconnect. simpl. rewrite lookup_alter_eq, Hp. simpl.
    rewrite Hq. simpl. f_equal. apply manager_eq; simpl; try done.
    unfold release. rewrite Hp, Ha. by rewrite delete_alter_eq.
Qed.

Lemma release_lookup_ne pl x y : x ≠ y → release pl x !! y = pl !! y.
Proof.
  intros Hne. unfold release. destruct (pl !! x) as [p|]; [|done].
  destruct (alive p).
  - by rewrite lookup_alter_ne.
  - by rewrite lookup_delete_ne.
Qed.

Lemma release_lookup_eq pl x :
  release pl x !! x =
    pl !! x ≫= λ p, if alive p then Some (set_gameid None p) else None.
Proof.
  unfold release. destruct (pl !! x) as [p|] eqn:Hp; simpl; [|done].
  destruct (alive p).
  - by rewrite lookup_alter_eq, Hp.
  - by rewrite lookup_delete_eq.
Qed.

Lemma release_all_lookup_notin ps pl y :
  y ∉ ps → release_all ps pl !! y = pl !! y.
Proof.
  unfold release_all. revert pl.
  induction ps as [|x ps IH]; intros pl Hy; cbn [foldl]; [done|].
  apply not_elem_of_cons in Hy as [Hne Hy].
  rewrite IH by done. by apply release_lookup_ne.
Qed.

Lemma release_all_lookup_in ps pl y :
  NoDup ps → y ∈ ps →
  release_all ps pl !! y =
    pl !! y ≫= λ p, if alive p then Some (set_gameid None p) else None.
Proof.
  unfold release_all. revert pl.
  induction ps as [|x ps IH]; intros pl Hnd Hy; cbn [foldl].
  - by apply elem_of_nil in Hy.
  - apply NoDup_cons in Hnd as [Hx Hnd].
    apply elem_of_cons in Hy as [->|Hy].
    + fold (release_all ps (release pl x)).
      rewrite release_all_lookup_notin by done. apply release_lookup_eq.
    + rewrite IH by done. rewrite release_lookup_ne; [done|].
      intros ->. done.
Qed.

Lemma dismissals_ext pl1 pl2 ps :
  (∀ y, y ∈ ps → pl1 !! y = pl2 !! y) →
  dismissals pl1 ps = dismissals pl2 ps.
Proof.
  unfold dismissals. induction ps as [|x ps IH]; intros Hext; simpl; [done|].
  rewrite IH by (intros y Hy; apply Hext; by apply list_elem_of_further).
  unfold dismissed. rewrite (Hext x) by apply list_elem_of_here. done.
Qed.

(** The loop of the [finally] block over a roster of distinct registered
    players, none of whom waits in a queue. *)
Lemma release_run ps (m : Manager) :
  NoDup ps →
  (∀ x, x ∈ ps → ∃ p, players m !! x = Some p ∧ queue p = None) →
  for_each ps release_body m =
    (Ok tt,
     with_logged (λ l, l ++ dismissals (players m) ps)
       (with_players (release_all ps) m)).
Proof.
  revert m. induction ps as [|x ps IH]; intros m Hnd Hreg.
  - simpl. f_equal. apply manager_eq; simpl; try done. by rewrite app_nil_r.
  - apply NoDup_cons in Hnd as [Hx Hnd].
    destruct (Hreg x) as (p & Hp & Hq); [apply list_elem_of_here|].
    cbn [for_each]. rewrite bind_unfold.
    rewrite (release_body_run x p m Hp Hq). rewrite IH; [|done|].
    + f_equal. apply manager_eq; simpl; try done.
      rewrite <- app_assoc. do 2 f_equal.
      apply dismissals_ext. intros y Hy. apply release_lookup_ne.
      intros ->. done.
    + intros y Hy. simpl. rewrite release_lookup_ne by (intros ->; done).
      apply Hreg. by apply list_elem_of_further.
Qed.

Lemma cleanup_run gid ps (m : Manager) :
  NoDup ps →
  (∀ x, x ∈ ps → ∃ p, players m !! x = Some p ∧ queue p = None) →
  is_Some (games m !! gid) →
  cleanup gid ps m =
    (Ok tt,
     mkManager (release_all ps (players m)) (delete gid (games m))
       (next_gameid m) (queues m) (running m) (outbox m)
       (logged m ++ LogGameOver gid :: dismissals (players m) ps)
       (entropy_used m)).
Proof.
  intros Hnd Hreg Hgid. unfold cleanup.
  rewrite bind_unfold. simpl log. cbv iota beta.
  rewrite bind_unfold.
  change (for_each ps _) with (for_each ps release_body).
  rewrite release_run by done. simpl.
  rewrite bool_decide_eq_false_2
    by (intros Hnone; rewrite Hnone in Hgid; by destruct Hgid).
  simpl. f_equal. apply manager_eq; simpl; try done.
  by rewrite <- app_assoc.
Qed.

(** ** The end of a session *)

Lemma notify_run ps msg (m : Manager) :
  (∀ x, x ∈ ps → is_Some (players m !! x)) →
  notify ps msg m = (Ok tt, with_outbox (λ l, l ++ mail (players m) ps msg) m).
Proof.
  unfold notify. revert m. induction ps as [|x ps IH]; intros m Hreg.
  - simpl. f_equal. apply manager_eq; simpl; try done.
    unfold mail. simpl. by rewrite app_nil_r.
  - destruct (Hreg x) as [p Hp]; [apply list_elem_of_here|].
    cbn [for_each]. rewrite bind_unfold.
    assert ((let* p := player_at x in when (alive p) (send_message (socket p) msg)) m
            = (Ok tt, with_outbox (λ l, l ++ mail (players m) [x] msg) m)) as ->.
    { unfold player_at, mail, recipients, addressee. csimpl. rewrite Hp. simpl.
      destruct (alive p); simpl; [done|].
      f_equal. apply manager_eq; simpl; try done. by rewrite app_nil_r. }
    rewrite IH by (intros y Hy; apply Hreg; by apply list_elem_of_further).
    f_equal. apply manager_eq; simpl; try done.
    unfold mail. rewrite <- app_assoc, <- map_app. do 2 f_equal.
    unfold recipients. csimpl. by destruct (addressee (players m) x).
Qed.

Lemma wf_roster gid s (m : Manager) :
  wf m → games m !! gid = Some s →
  NoDup (roster (thread s)) ∧
  ∀ x, x ∈ roster (thread s) →
    ∃ p, players m !! x = Some p ∧ queue p = None ∧ gameid p = Some gid.
Proof.
  intros Hwf Hs. destruct (wf_session m Hwf gid s Hs) as (_ & _ & Hnd & Hmem).
  split; [done|]. intros x Hx. destruct (Hmem x Hx) as (p & Hp & Hg).
  exists p. split; [done|]. split; [|done].
  destruct (wf_exclusive m Hwf x p Hp) as [?|?]; [done|congruence].
Qed.

(** In a consistent state the loop of a session's worker, with its
    [except] block, either returns or is still going. *)
Lemma supervised_loop_returns fuel gid s (m m1 : Manager) r :
  wf m → games m !! gid = Some s →
  supervised_loop fuel gid (roster (thread s)) m = (r, m1) →
  r = Ok tt ∨ r = Diverge.
Proof.
  intros Hwf Hs. unfold supervised_loop. simpl.
  pose proof (keeps_while_running fuel gid (roster (thread s)) m) as Hst.
  destruct (while_running fuel gid (roster (thread s)) m) as [[[]|e|] m0];
    simpl in Hst.
  - intros [= <- _]. by left.
  - unfold report_fault. simpl. rewrite notify_run.
    + intros [= <- _]. by left.
    + intros x Hx. simpl. rewrite (steady_players _ _ _ Hst).
      destruct (wf_roster gid s m Hwf Hs) as [_ Hmem].
      destruct (Hmem x Hx) as (p & Hp & _). eauto.
  - intros [= <- _]. by right.
Qed.

(** A worker that leaves its loop in a consistent state ends with the
    cleanup done. *)
Lemma game_handler_exit fuel gid s (m m1 : Manager) :
  wf m → games m !! gid = Some s →
  let ps := roster (thread s) in
  supervised_loop fuel gid ps m = (Ok tt, m1) →
  game_handler fuel gid ps m =
    (Ok tt,
     mkManager (release_all ps (players m)) (delete gid (games m))
       (next_gameid m) (queues m) (running m) (outbox m1)
       (logged m1 ++ LogGameOver gid :: dismissals (players m) ps)
       (entropy_used m)).
Proof.
  intros Hwf Hs ps Hloop.
  pose proof (keeps_supervised_loop fuel gid ps m) as Hst.
  rewrite Hloop in Hst. simpl in Hst.
  destruct (wf_roster gid s m Hwf Hs) as [Hnd Hmem].
  unfold game_handler. fold (supervised_loop fuel gid ps).
  unfold try_finally. rewrite Hloop.
  rewrite cleanup_run; [| done | |].
  - destruct Hst as [Hp Hq Hr Hn He Ht Ho]. f_equal.
    apply manager_eq; simpl; try done.
    + by rewrite Hp.
    + apply map_eq. intros gid'. destruct (decide (gid = gid')) as [<-|Hne].
      * by rewrite !lookup_delete_eq.
      * rewrite !lookup_delete_ne by done. apply Ho. congruence.
    + by rewrite Hp.
  - intros x Hx. rewrite (steady_players _ _ _ Hst).
    destruct (Hmem x Hx) as (p & Hp & Hq & _). eauto.
  - pose proof (steady_thread _ _ _ Hst) as Ht. rewrite Hs in Ht.
    destruct (games m1 !! gid); [eauto|done].
Qed.

(** When [disconnect] reaches a player who plays while the manager runs,
    the player stays registered and the state stays consistent. *)
Lemma disconnect_in_game x p gid s (m : Manager) :
  wf m → running m = true →
  players m !! x = Some p → gameid p = Some gid →
  games m !! gid = Some s →
  let r := game_kill x (game s) in
  disconnect x m =
    match fst r with
    | Returns _ =>
        (Ok tt,
         with_players (alter (set_alive false) x)
           (with_games (insert gid (mkSession (snd r) (thread s)))
              (with_logged (λ l, l ++ [LogKilled x gid]) m)))
    | Throws e =>
        (Raise e,
         with_games (insert gid (mkSession (snd r) (thread s)))
           (with_logged (λ l, l ++ [LogKilled x gid]) m))
    end.
Proof.
  intros Hwf Hrun Hp Hg Hs r.
  destruct (wf_exclusive m Hwf x p Hp) as [Hq|?]; [|congruence].
  unfold disconnect, on_game, update_player. simpl.
  rewrite Hp. simpl. rewrite Hq, Hg. simpl. rewrite Hrun. simpl.
  rewrite Hs. simpl. fold r. by destruct (fst r) as [[]|e].
Qed.

(** States whose players wait and play alike, with the same queues, the
    same workers and the same next id. *)
Record alike (m m' : Manager) : Prop := mkAlike {
  alike_players : ∀ cid,
    (λ p, (queue p, gameid p)) <$> players m' !! cid =
    (λ p, (queue p, gameid p)) <$> players m !! cid;
  alike_queues : queues m' = queues m;
  alike_next : next_gameid m' = next_gameid m;
  alike_threads : ∀ gid,
    thread <$> games m' !! gid = thread <$> games m !! gid
}.

Lemma alike_lookup m m' cid p' :
  alike m m' → players m' !! cid = Some p' →
  ∃ p, players m !! cid = Some p ∧ queue p = queue p' ∧ gameid p = gameid p'.
Proof.
  intros H Hp'. pose proof (alike_players _ _ H cid) as Hc.
  rewrite Hp' in Hc. destruct (players m !! cid) as [p|]; [|done].
  simpl in Hc. injection Hc as Hq Hg. eauto.
Qed.

Lemma alike_lookup_rev m m' cid p :
  alike m m' → players m !! cid = Some p →
  ∃ p', players m' !! cid = Some p' ∧ queue p' = queue p ∧ gameid p' = gameid p.
Proof.
  intros H Hp. pose proof (alike_players _ _ H cid) as Hc.
  rewrite Hp in Hc. destruct (players m' !! cid) as [p'|]; [|done].
  simpl in Hc. injection Hc as Hq Hg. eauto.
Qed.

Lemma alike_session m m' gid s' :
  alike m m' → games m' !! gid = Some s' →
  ∃ s, games m !! gid = Some s ∧ thread s = thread s'.
Proof.
  intros H Hs'. pose proof (alike_threads _ _ H gid) as Hc.
  rewrite Hs' in Hc. destruct (games m !! gid) as [s|]; [|done].
  simpl in Hc. injection Hc as Hc. eauto.
Qed.

Lemma alike_session_rev m m' gid s :
  alike m m' → games m !! gid = Some s →
  ∃ s', games m' !! gid = Some s' ∧ thread s' = thread s.
Proof.
  intros H Hs. pose proof (alike_threads _ _ H gid) as Hc.
  rewrite Hs in Hc. destruct (games m' !! gid) as [s'|]; [|done].
  simpl in Hc. injection Hc as Hc. eauto.
Qed.

Lemma alike_wf m m' : alike m m' → wf m → wf m'.
Proof.
  intros Ha [H1 H2 H3 H4 H5]. split.
  - intros cid p' Hp'.
    destruct (alike_lookup _ _ _ _ Ha Hp') as (p & Hp & <- & <-). eauto.
  - intros cid p' q Hp' Hq.
    destruct (alike_lookup _ _ _ _ Ha Hp') as (p & Hp & Hqq & _).
    rewrite (alike_queues _ _ Ha). apply (H2 cid p q Hp). congruence.
  - intros q d. rewrite (alike_queues _ _ Ha). intros Hd.
    destruct (H3 q d Hd) as (Hnd & Hlen & Hmem). split; [done|]. split; [done|].
    intros cid Hin. destruct (Hmem cid Hin) as (p & Hp & Hq).
    destruct (alike_lookup_rev _ _ _ _ Ha Hp) as (p' & Hp' & Hqq & _).
    exists p'. split; [done|congruence].
  - intros gid s' Hs'.
    destruct (alike_session _ _ _ _ Ha Hs') as (s & Hs & Ht).
    destruct (H4 gid s Hs) as (Hf & Hlt & Hnd & Hmem).
    rewrite <- Ht, (alike_next _ _ Ha). split; [done|]. split; [done|].
    split; [done|]. intros cid Hin. destruct (Hmem cid Hin) as (p & Hp & Hg).
    destruct (alike_lookup_rev _ _ _ _ Ha Hp) as (p' & Hp' & _ & Hgg).
    exists p'. split; [done|congruence].
  - intros cid p' gid Hp' Hg.
    destruct (alike_lookup _ _ _ _ Ha Hp') as (p & Hp & _ & Hgg).
    destruct (H5 cid p gid Hp) as (s & Hs & Hin); [congruence|].
    destruct (alike_session_rev _ _ _ _ Ha Hs) as (s' & Hs' & Ht).
    exists s'. split; [done|]. by rewrite Ht.
Qed.

Lemma alike_kill x gid s g' (b : bool) (m : Manager) :
  games m !! gid = Some s →
  alike m
    (with_players (if b then alter (set_alive false) x else id)
       (with_games (insert gid (mkSession g' (thread s)))
          (with_logged (λ l, l ++ [LogKilled x gid]) m))).
Proof.
  intros Hs. split; simpl; try done.
  - intros cid. destruct b; [|done].
    destruct (decide (x = cid)) as [<-|Hne].
    + rewrite lookup_alter_eq. by destruct (players m !! x).
    + by rewrite lookup_alter_ne.
  - intros gid'. destruct (decide (gid = gid')) as [<-|Hne].
    + by rewrite lookup_insert_eq, Hs.
    + by rewrite lookup_insert_ne.
Qed.

(** C4 (amended). Whenever the worker of a session leaves its loop in a
    consistent state, where every participant is still registered, it
    returns after the session has left the session table, every
    participant whose [alive] flag was set has lost its game and every
    other participant its registration, so that the registry no longer
    knows the latter; the players outside the roster are untouched.
    Before that, while the manager runs, a participant who disconnects
    stays registered in the session, with its [alive] flag cleared once
    the game has been told; once the manager is stopping, a participant
    who disconnects is removed from the registry at once, and its session
    stays in the table. *)
Theorem session_cleanup gid s (m : Manager) :
  wf m → games m !! gid = Some s →
  let ps := roster (thread s) in
  (∀ fuel r m',
     game_handler fuel gid ps m = (r, m') → r ≠ Diverge →
     r = Ok tt ∧
     games m' = delete gid (games m) ∧
     (∀ x p, x ∈ ps → players m !! x = Some p →
        players m' !! x =
          (if alive p then Some (set_gameid None p) else None)) ∧
     (∀ x p, x ∈ ps → players m !! x = Some p → alive p = false →
        disconnect x m' = (Raise NotRegistered, m')) ∧
     (∀ x, x ∉ ps → players m' !! x = players m !! x)) ∧
  (∀ x p,
     x ∈ ps → players m !! x = Some p → running m = true →
     let m1 := snd (disconnect x m) in
     wf m1 ∧
     (∃ s1, games m1 !! gid = Some s1 ∧ thread s1 = thread s) ∧
     ∃ p1, players m1 !! x = Some p1 ∧ gameid p1 = Some gid ∧
           (fst (game_kill x (game s)) = Returns tt → alive p1 = false)) ∧
  (∀ x p,
     x ∈ ps → players m !! x = Some p → running m = false →
     ∃ m1, disconnect x m = (Ok tt, m1) ∧
           players m1 !! x = None ∧ games m1 !! gid = Some s).
Proof.
  intros Hwf Hs ps. subst ps.
  destruct (wf_roster gid s m Hwf Hs) as [Hnd Hmem]. split; [|split].
  - intros fuel r m' Hrun Hr.
    destruct (supervised_loop fuel gid (roster (thread s)) m) as [r0 m1] eqn:Hloop.
    destruct (supervised_loop_returns fuel gid s m m1 r0 Hwf Hs Hloop)
      as [-> | ->].
    + rewrite (game_handler_exit fuel gid s m m1 Hwf Hs Hloop) in Hrun.
      injection Hrun as <- <-. simpl.
      assert (∀ x p, x ∈ roster (thread s) → players m !! x = Some p →
                release_all (roster (thread s)) (players m) !! x =
                  (if alive p then Some (set_gameid None p) else None)) as Hin.
      { intros x p Hx Hp. rewrite release_all_lookup_in by done.
        by rewrite Hp. }
      split; [done|]. split; [done|]. split; [done|]. split.
      * intros x p Hx Hp Hdead. unfold disconnect. simpl.
        rewrite (Hin x p Hx Hp), Hdead. done.
      * intros x Hx. by apply release_all_lookup_notin.
    + unfold game_handler in Hrun. fold (supervised_loop fuel gid (roster (thread s))) in Hrun.
      unfold try_finally in Hrun. rewrite Hloop in Hrun.
      injection Hrun as Hd _. by rewrite <- Hd in Hr.
  - intros x p Hx Hp Hrun m1.
    destruct (Hmem x Hx) as (p0 & Hp0 & Hq & Hg).
    rewrite Hp in Hp0. injection Hp0 as <-.
    subst m1. rewrite (disconnect_in_game x p gid s m Hwf Hrun Hp Hg Hs).
    destruct (game_kill x (game s)) as [[[]|e] g'] eqn:Hkill; simpl.
    + split; [|split].
      * eapply alike_wf; [|done]. by apply (alike_kill x gid s g' true).
      * rewrite lookup_insert_eq. eauto.
      * exists (set_alive false p). rewrite lookup_alter_eq, Hp. done.
    + split; [|split].
      * eapply alike_wf; [|done]. by apply (alike_kill x gid s g' false).
      * rewrite lookup_insert_eq. eauto.
      * exists p. done.
  - intros x p Hx Hp Hrun.
    destruct (Hmem x Hx) as (p0 & Hp0 & Hq & Hg).
    rewrite Hp in Hp0. injection Hp0 as <-.
    assert (leave_queue x p (queues m) = Some (queues m)) as Hleave
      by (unfold leave_queue; by rewrite Hq).
    rewrite (disconnect_removes x m p (queues m) Hp Hleave) by (by right).
    eexists. split; [reflexivity|]. simpl.
    split; [apply lookup_delete_eq|done].
Qed.

(** ** Faults *)

(** C9. When a pass of a session's loop raises, the worker logs the
    exception, sends the error notice to the participants whose [alive]
    flag is set, in roster order, and returns after the cleanup: the
    session leaves the table, its participants are released, and the other
    sessions, the queues, the running flag and the players outside the
    roster are as they were. *)
Theorem tick_fault gid s (m m1 : Manager) fuel e :
  wf m → games m !! gid = Some s →
  let ps := roster (thread s) in
  while_running fuel gid ps m = (Raise e, m1) →
  ∃ m',
    game_handler fuel gid ps m = (Ok tt, m') ∧
    logged m' =
      logged m1 ++
      LogException e :: LogGameOver gid :: dismissals (players m) ps ∧
    outbox m' = outbox m1 ++ mail (players m) ps (ErrorNotice e) ∧
    games m' = delete gid (games m) ∧
    players m' = release_all ps (players m) ∧
    (∀ x p, x ∈ ps → players m !! x = Some p →
       players m' !! x =
         (if alive p then Some (set_gameid None p) else None)) ∧
    (∀ x, x ∉ ps → players m' !! x = players m !! x) ∧
    queues m' = queues m ∧ running m' = running m ∧
    next_gameid m' = next_gameid m.
Proof.
  intros Hwf Hs ps Hloop. subst ps.
  destruct (wf_roster gid s m Hwf Hs) as [Hnd Hmem].
  pose proof (keeps_while_running fuel gid (roster (thread s)) m) as Hst.
  rewrite Hloop in Hst. simpl in Hst.
  assert (supervised_loop fuel gid (roster (thread s)) m =
          (Ok tt,
           with_outbox (λ l, l ++ mail (players m) (roster (thread s)) (ErrorNotice e))
             (with_logged (λ l, l ++ [LogException e]) m1))) as Hsup.
  { unfold supervised_loop, try_except. rewrite Hloop.
    unfold report_fault. simpl. rewrite notify_run.
    - simpl. by rewrite (steady_players _ _ _ Hst).
    - intros x Hx. simpl. rewrite (steady_players _ _ _ Hst).
      destruct (Hmem x Hx) as (p & Hp & _). eauto. }
  rewrite (game_handler_exit fuel gid s m _ Hwf Hs Hsup).
  eexists. split; [reflexivity|]. simpl.
  split; [by rewrite <- app_assoc|]. split; [done|]. split; [done|].
  split; [done|]. split; [|split; [|done]].
  - intros x p Hx Hp. rewrite release_all_lookup_in by done. by rewrite Hp.
  - intros x Hx. by apply release_all_lookup_notin.
Qed.

(** ** Shutdown *)

(** Commands that return or raise, and leave the running flag alone. *)
Definition calm {A} (c : M A) : Prop :=
  ∀ m, fst (c m) ≠ Diverge ∧ running (snd (c m)) = running m.

Lemma calm_ret {A} (a : A) : calm (ret a).
Proof. by intros m. Qed.

Lemma calm_raise {A} (e : exn) : calm (raise (A:=A) e).
Proof. by intros m. Qed.

Lemma calm_get : calm get.
Proof. by intros m. Qed.

Lemma calm_modify f : (∀ m, running (f m) = running m) → calm (modify f).
Proof. intros Hf m. simpl. by rewrite Hf. Qed.

Lemma calm_bind {A B} (c : M A) (k : A → M B) :
  calm c → (∀ a, calm (k a)) → calm (bind c k).
Proof.
  intros Hc Hk m. simpl. destruct (Hc m) as [Hd Hr].
  destruct (c m) as [[a| |] m1]; simpl in *; [|done|done].
  destruct (Hk a m1) as [Hd' Hr']. split; [done|congruence].
Qed.

Lemma calm_log r : calm (log r).
Proof. by apply calm_modify. Qed.

Lemma calm_send c msg : calm (send_message c msg).
Proof. by apply calm_modify. Qed.

Lemma calm_update_player cid f : calm (update_player cid f).
Proof. by apply calm_modify. Qed.

Lemma calm_call {A} (r : result A) : calm (call r).
Proof. destruct r; [apply calm_ret|apply calm_raise]. Qed.

Lemma calm_raise_if b e : calm (raise_if b e).
Proof. destruct b; [apply calm_raise|apply calm_ret]. Qed.

Lemma calm_when b c : calm c → calm (when b c).
Proof. destruct b; [done|intros _; apply calm_ret]. Qed.

Lemma calm_for_each {A} (xs : list A) (body : A → M unit) :
  (∀ x, calm (body x)) → calm (for_each xs body).
Proof.
  intros Hbody. induction xs as [|x xs IH]; simpl.
  - apply calm_ret.
  - apply calm_bind; [apply Hbody|done].
Qed.

Lemma calm_try_except {A} (body : M A) (handler : exn → M A) :
  calm body → (∀ e, calm (handler e)) → calm (try_except body handler).
Proof.
  intros Hb Hh m. simpl. destruct (Hb m) as [Hd Hr].
  destruct (body m) as [[a|e|] m1]; simpl in *; [done| |done].
  destruct (Hh e m1) as [Hd' Hr']. split; [done|congruence].
Qed.

Lemma calm_try_finally {A} (body : M A) (final : M unit) :
  calm body → calm final → calm (try_finally body final).
Proof.
  intros Hb Hf m. simpl. destruct (Hb m) as [Hd Hr].
  destruct (Hf (snd (body m))) as [Hd' Hr'].
  destruct (body m) as [[a|e|] m1]; simpl in *; [| |done];
    destruct (final m1) as [[[]|e'|] m2]; simpl in *; (split; [done|congruence]).
Qed.

Lemma calm_player_at cid : calm (player_at cid).
Proof.
  unfold player_at. apply calm_bind; [apply calm_get|]. intros m.
  destruct (players m !! cid); [apply calm_ret|apply calm_raise].
Qed.

Lemma calm_on_game {A} gid (method : Game → result A * Game) :
  calm (on_game gid method).
Proof.
  unfold on_game. apply calm_bind; [apply calm_get|]. intros m.
  destruct (games m !! gid); [|apply calm_raise].
  apply calm_bind; [by apply calm_modify|]. intros _. apply calm_call.
Qed.

Lemma calm_queue_remove q cid : calm (queue_remove q cid).
Proof.
  unfold queue_remove. apply calm_bind; [apply calm_get|]. intros m.
  destruct (queues m !! q) as [d|]; [|apply calm_raise].
  destruct (deque_remove cid d); [by apply calm_modify|apply calm_raise].
Qed.

Lemma calm_disconnect cid : calm (disconnect cid).
Proof.
  unfold disconnect. apply calm_bind; [apply calm_get|]. intros m.
  destruct (players m !! cid) as [p|]; [|apply calm_raise].
  apply calm_bind.
  { destruct (queue p); [|apply calm_ret].
    apply calm_bind; [apply calm_log|]. intros _. apply calm_queue_remove. }
  intros _. apply calm_bind; [apply calm_get|]. intros m'.
  assert (calm (log (LogRemoved cid) >> modify (with_players (delete cid))))
    as Hdel.
  { apply calm_bind; [apply calm_log|]. intros _. by apply calm_modify. }
  destruct (gameid p) as [gid|]; [|done].
  destruct (negb (running m')); [done|].
  apply calm_bind; [apply calm_log|]. intros _.
  apply calm_bind; [apply calm_on_game|]. intros _.
  apply calm_update_player.
Qed.

Lemma calm_cleanup gid ps : calm (cleanup gid ps).
Proof.
  unfold cleanup. apply calm_bind; [apply calm_log|]. intros _.
  apply calm_bind.
  { apply calm_for_each. intros x.
    apply calm_bind; [apply calm_player_at|]. intros _.
    apply calm_bind; [apply calm_update_player|]. intros _.
    apply calm_bind; [apply calm_player_at|]. intros p.
    apply calm_when, calm_disconnect. }
  intros _. apply calm_bind; [apply calm_get|]. intros m.
  apply calm_bind; [apply calm_raise_if|]. intros _. by apply calm_modify.
Qed.

Lemma calm_kick pid : calm (kick pid).
Proof.
  apply calm_try_except; [apply calm_disconnect|]. intros _. apply calm_log.
Qed.

(** Once the manager has stopped, the loop of a worker ends at its next
    test. *)
Lemma while_running_stopped fuel gid ps (m : Manager) :
  running m = false → while_running (S fuel) gid ps m = (Ok tt, m).
Proof. intros Hrun. simpl. unfold loop_pass. simpl. by rewrite Hrun. Qed.

Lemma game_handler_stopped fuel gid ps (m : Manager) :
  running m = false →
  game_handler (S fuel) gid ps m =
    match cleanup gid ps m with
    | (Ok _, m') => (Ok tt, m')
    | r => r
    end.
Proof.
  intros Hrun. unfold game_handler, try_finally, try_except.
  rewrite while_running_stopped by done.
  destruct (calm_cleanup gid ps m) as [Hd _].
  by destruct (cleanup gid ps m) as [[[]|e|] m'].
Qed.

(** Commands that, in a stopped manager, return and leave it stopped. *)
Definition settles (c : M unit) : Prop :=
  ∀ m, running m = false → ∃ m', c m = (Ok tt, m') ∧ running m' = false.

Lemma settles_for_each {A} (xs : list A) (body : A → M unit) :
  (∀ x, settles (body x)) → settles (for_each xs body).
Proof.
  intros Hbody. induction xs as [|x xs IH]; intros m Hrun; simpl.
  - eauto.
  - destruct (Hbody x m Hrun) as (m1 & -> & Hrun1). by apply IH.
Qed.

Lemma settles_kick pid : settles (kick pid).
Proof.
  intros m Hrun. unfold kick, try_except.
  destruct (calm_disconnect pid m) as [Hd Hr].
  destruct (disconnect pid m) as [[[]|e|] m1]; simpl in *; [| |done].
  - exists m1. split; [done|congruence].
  - eexists. split; [done|]. simpl. congruence.
Qed.

(** The cleanup of a session keeps the state consistent. *)
Lemma wf_released gid s (m m' : Manager) :
  wf m → games m !! gid = Some s →
  players m' = release_all (roster (thread s)) (players m) →
  games m' = delete gid (games m) →
  queues m' = queues m → next_gameid m' = next_gameid m →
  wf m'.
Proof.
  intros Hwf Hs Hp Hg Hq Hn.
  destruct (wf_roster gid s m Hwf Hs) as [Hnd Hmem].
  assert (∀ cid p', players m' !! cid = Some p' →
            ((cid ∉ roster (thread s)) ∧ players m !! cid = Some p') ∨
            (cid ∈ roster (thread s) ∧ queue p' = None ∧ gameid p' = None))
    as Hcases.
  { intros cid p'. rewrite Hp.
    destruct (decide (cid ∈ roster (thread s))) as [Hin|Hout].
    - rewrite release_all_lookup_in by done.
      destruct (Hmem cid Hin) as (p & -> & Hqp & _). simpl.
      destruct (alive p); [|done]. intros [= <-]. right. by destruct p.
    - rewrite release_all_lookup_notin by done. by left. }
  assert (∀ cid p, players m !! cid = Some p → gameid p ≠ Some gid →
            players m' !! cid = Some p) as Hkeep.
  { intros cid p Hcid Hne. rewrite Hp, release_all_lookup_notin; [done|].
    intros Hin. destruct (Hmem cid Hin) as (p0 & Hp0 & _ & Hg0). congruence. }
  destruct Hwf as [H1 H2 H3 H4 H5]. split.
  - intros cid p' Hp'. destruct (Hcases cid p' Hp') as [[_ Hm]|(_ & ? & ?)];
      [eauto|by left].
  - intros cid p' q Hp' Hqq. rewrite Hq.
    destruct (Hcases cid p' Hp') as [[_ Hm]|(_ & ? & ?)]; [eauto|congruence].
  - intros q d. rewrite Hq. intros Hd.
    destruct (H3 q d Hd) as (? & ? & Hmem'). split; [done|]. split; [done|].
    intros cid Hin. destruct (Hmem' cid Hin) as (p & Hcid & Hqq).
    exists p. split; [|done]. apply Hkeep; [done|].
    destruct (H1 cid p Hcid); congruence.
  - intros gid' s'. rewrite Hg, Hn. intros Hs'.
    apply lookup_delete_Some in Hs' as [Hne Hs'].
    destruct (H4 gid' s' Hs') as (? & ? & ? & Hmem').
    split; [done|]. split; [done|]. split; [done|].
    intros cid Hin. destruct (Hmem' cid Hin) as (p & Hcid & Hgg).
    exists p. split; [|done]. apply Hkeep; [done|congruence].
  - intros cid p' gid' Hp' Hgg.
    destruct (Hcases cid p' Hp') as [[Hout Hm]|(_ & ? & ?)]; [|congruence].
    destruct (H5 cid p' gid' Hm Hgg) as (s' & Hs' & Hin).
    exists s'. split; [|done]. rewrite Hg, lookup_delete_ne; [done|].
    intros <-. rewrite Hs in Hs'. injection Hs' as <-. done.
Qed.

(** The removal of a player who does not play keeps the state
    consistent. *)
Lemma wf_removed cid p qs (m m' : Manager) :
  wf m → players m !! cid = Some p → gameid p = None →
  leave_queue cid p (queues m) = Some qs →
  players m' = delete cid (players m) →
  games m' = games m → queues m' = qs → next_gameid m' = next_gameid m →
  wf m'.
Proof.
  intros Hwf Hcid Hfree Hleave Hp Hg Hq Hn.
  destruct (wf_leave_queue cid m p Hwf Hcid) as (qs' & Hleave' & Hother & Hsame).
  rewrite Hleave in Hleave'. injection Hleave' as <-.
  destruct Hwf as [H1 H2 H3 H4 H5]. split.
  - intros x px. rewrite Hp. intros [_ Hx]%lookup_delete_Some. eauto.
  - intros x px q. rewrite Hp, Hq. intros [Hne Hx]%lookup_delete_Some Hqq.
    destruct (H2 x px q Hx Hqq) as (? & d & Hd & Hin). split; [done|].
    destruct (decide (queue p = Some q)) as [Hpq|Hpq].
    + destruct (Hsame q Hpq) as (d0 & Hd0 & _ & ->).
      rewrite Hd in Hd0. injection Hd0 as <-.
      rewrite lookup_insert_eq. eexists. split; [done|].
      apply list_elem_of_filter. split; [congruence|done].
    + rewrite (Hother q Hpq). eauto.
  - intros q d'. rewrite Hp, Hq. intros Hd'.
    destruct (decide (queue p = Some q)) as [Hpq|Hpq].
    + destruct (Hsame q Hpq) as (d0 & Hd0 & _ & ->).
      rewrite lookup_insert_eq in Hd'. injection Hd' as <-.
      destruct (H3 q d0 Hd0) as (Hnd & Hlen & Hmem).
      split; [by apply NoDup_filter|]. split.
      * pose proof (length_filter (λ x, x ≠ cid) d0). lia.
      * intros x [Hne Hin]%list_elem_of_filter.
        destruct (Hmem x Hin) as (px & Hx & Hqq). exists px.
        split; [|done]. rewrite lookup_delete_ne; [done|congruence].
    + rewrite (Hother q Hpq) in Hd'.
      destruct (H3 q d' Hd') as (Hnd & Hlen & Hmem).
      split; [done|]. split; [done|].
      intros x Hin. destruct (Hmem x Hin) as (px & Hx & Hqq). exists px.
      split; [|done]. rewrite lookup_delete_ne; [done|].
      intros <-. congruence.
  - intros gid s. rewrite Hg, Hn, Hp. intros Hs.
    destruct (H4 gid s Hs) as (? & ? & ? & Hmem).
    split; [done|]. split; [done|]. split; [done|].
    intros x Hin. destruct (Hmem x Hin) as (px & Hx & Hgg). exists px.
    split; [|done]. rewrite lookup_delete_ne; [done|].
    intros <-. congruence.
  - intros x px gid. rewrite Hp, Hg. intros [_ Hx]%lookup_delete_Some. eauto.
Qed.

(** A loop over a list whose body returns at every step. *)
Lemma for_each_inv {A} (I : list A → Manager → Prop) xs (body : A → M unit)
    (m : Manager) :
  I xs m →
  (∀ x rest m0, I (x :: rest) m0 →
     ∃ m1, body x m0 = (Ok tt, m1) ∧ I rest m1) →
  ∃ m', for_each xs body m = (Ok tt, m') ∧ I [] m'.
Proof.
  intros Hinit Hstep. revert m Hinit.
  induction xs as [|x xs IH]; intros m Hinit; simpl.
  - eauto.
  - destruct (Hstep x xs m Hinit) as (m1 & -> & H1). by apply IH.
Qed.

Lemma wf_stopping (m : Manager) :
  wf m → wf (with_running false (with_logged (λ l, l ++ [LogStopping]) m)).
Proof. apply alike_wf. by split. Qed.

(** In a stopped, consistent manager without sessions, a kick removes
    the player. *)
Lemma kick_run pid p (m : Manager) :
  wf m → running m = false → games m = ∅ → players m !! pid = Some p →
  ∃ m', kick pid m = (Ok tt, m') ∧
        wf m' ∧ running m' = false ∧ games m' = ∅ ∧
        players m' = delete pid (players m).
Proof.
  intros Hwf Hrun Hnone Hp.
  assert (gameid p = None) as Hfree.
  { destruct (gameid p) as [gid|] eqn:Hg; [|done].
    destruct (wf_playing m Hwf pid p gid Hp Hg) as (s & Hs & _).
    by rewrite Hnone in Hs. }
  destruct (wf_leave_queue pid m p Hwf Hp) as (qs & Hleave & _).
  unfold kick, try_except.
  rewrite (disconnect_removes pid m p qs Hp Hleave) by (by left).
  eexists. split; [reflexivity|]. simpl. split; [|done].
  by apply (wf_removed pid p qs m).
Qed.

Lemma keys_elem {K A} `{Countable K} (d : gmap K A) k :
  is_Some (d !! k) → k ∈ keys d.
Proof.
  intros [x Hx]. unfold keys. apply list_elem_of_fmap.
  exists (k, x). split; [done|]. by apply elem_of_map_to_list.
Qed.

(** ** Waiting and playing exclude each other *)

Definition exclusive (m : Manager) : Prop :=
  ∀ cid p, players m !! cid = Some p → queue p = None ∨ gameid p = None.

(** The preorder of an invariant: if it holds before, it holds after. *)
Definition upholds (I : Manager → Prop) : relation Manager :=
  λ m m', I m → I m'.

#[local] Instance upholds_preorder I : PreOrder (upholds I).
Proof.
  split; [intros m Hm; exact Hm|].
  intros m1 m2 m3 H12 H23 H1. apply H23, H12, H1.
Qed.

Definition same_players : relation Manager :=
  λ m m', players m' = players m.

#[local] Instance same_players_preorder : PreOrder same_players.
Proof.
  split; [intros m; reflexivity|].
  unfold same_players. intros m1 m2 m3. congruence.
Qed.

Lemma same_players_upholds {A} (c : M A) :
  follows same_players c → follows (upholds exclusive) c.
Proof. intros Hc m Hm cid p. rewrite (Hc m). apply Hm. Qed.

Lemma framed_log r : follows same_players (log r).
Proof. by follow follows_modify. Qed.

Lemma framed_send c msg : follows same_players (send_message c msg).
Proof. by follow follows_modify. Qed.

Lemma framed_queue_remove q cid : follows same_players (queue_remove q cid).
Proof.
  unfold queue_remove. follow follows_bind; [follow follows_get|]. intros m.
  destruct (queues m !! q) as [d|]; [|follow follows_raise].
  destruct (deque_remove cid d); [by follow follows_modify|follow follows_raise].
Qed.

Lemma framed_popleft_n k q : follows same_players (popleft_n k q).
Proof.
  induction k as [|k IH]; simpl; [follow follows_ret|].
  follow follows_bind.
  { unfold popleft. follow follows_bind; [follow follows_get|]. intros m.
    destruct (queues m !! q) as [[|x d]|]; try follow follows_raise.
    follow follows_bind; [by follow follows_modify|].
    intros _. follow follows_ret. }
  intros x. follow follows_bind; [done|]. intros xs. follow follows_ret.
Qed.

Lemma framed_on_game {A} gid (method : Game → result A * Game) :
  follows same_players (on_game gid method).
Proof.
  unfold on_game. follow follows_bind; [follow follows_get|]. intros m.
  destruct (games m !! gid); [|follow follows_raise].
  follow follows_bind; [by follow follows_modify|].
  intros _. follow follows_call.
Qed.

Lemma framed_notify ps msg : follows same_players (notify ps msg).
Proof.
  unfold notify. follow follows_for_each. intros x.
  follow follows_bind; [follow follows_player_at|]. intros p.
  follow follows_when. apply framed_send.
Qed.

Lemma framed_supervised_loop fuel gid ps :
  follows same_players (supervised_loop fuel gid ps).
Proof.
  intros m. apply (steady_players gid), keeps_supervised_loop.
Qed.

Lemma upheld_update cid (f : Player → Player) :
  (∀ p, queue p = None ∨ gameid p = None →
        queue (f p) = None ∨ gameid (f p) = None) →
  follows (upholds exclusive) (update_player cid f).
Proof.
  intros Hf. follow follows_modify. intros m Hm x p. simpl.
  destruct (decide (cid = x)) as [<-|Hne].
  - rewrite lookup_alter_eq. destruct (players m !! cid) as [p0|] eqn:Hp0;
      simpl; [|done].
    intros [= <-]. apply Hf. by apply (Hm cid).
  - rewrite lookup_alter_ne by done. apply Hm.
Qed.

Lemma upheld_delete cid :
  follows (upholds exclusive) (modify (with_players (delete cid))).
Proof.
  follow follows_modify. intros m Hm x p. simpl.
  intros [_ Hx]%lookup_delete_Some. by apply (Hm x).
Qed.

Lemma upheld_disconnect cid : follows (upholds exclusive) (disconnect cid).
Proof.
  unfold disconnect. follow follows_bind; [follow follows_get|]. intros m.
  destruct (players m !! cid) as [p|]; [|follow follows_raise].
  follow follows_bind.
  { apply same_players_upholds. destruct (queue p); [|follow follows_ret].
    follow follows_bind; [apply framed_log|].
    intros _. apply framed_queue_remove. }
  intros _. follow follows_bind; [follow follows_get|]. intros m'.
  assert (follows (upholds exclusive)
            (log (LogRemoved cid) >> modify (with_players (delete cid))))
    as Hdel.
  { follow follows_bind; [apply same_players_upholds, framed_log|].
    intros _. apply upheld_delete. }
  destruct (gameid p) as [gid|]; [|done].
  destruct (negb (running m')); [done|].
  follow follows_bind; [apply same_players_upholds, framed_log|]. intros _.
  follow follows_bind; [apply same_players_upholds, framed_on_game|].
  intros _. by apply upheld_update.
Qed.

Lemma upheld_cleanup gid ps : follows (upholds exclusive) (cleanup gid ps).
Proof.
  unfold cleanup.
  follow follows_bind; [apply same_players_upholds, framed_log|]. intros _.
  follow follows_bind.
  { follow follows_for_each. intros x.
    follow follows_bind; [follow follows_player_at|]. intros _.
    follow follows_bind; [apply upheld_update; by right|]. intros _.
    follow follows_bind; [follow follows_player_at|]. intros p.
    follow follows_when. apply upheld_disconnect. }
  intros _. follow follows_bind; [follow follows_get|]. intros m.
  follow follows_bind; [follow follows_raise_if|]. intros _.
  apply same_players_upholds. by follow follows_modify.
Qed.

Lemma upheld_game_handler fuel gid ps :
  follows (upholds exclusive) (game_handler fuel gid ps).
Proof.
  unfold game_handler. follow follows_try_finally.
  - apply same_players_upholds, framed_supervised_loop.
  - apply upheld_cleanup.
Qed.

(** The two writes of [start_game] into the entry of a player. *)
Lemma upheld_enlist {A} gid pid (k : M A) :
  follows (upholds exclusive) k →
  follows (upholds exclusive)
    (update_player pid (set_queue None) >>
     update_player pid (set_gameid (Some gid)) >> k).
Proof.
  intros Hk m Hm. simpl. apply Hk. intros x p. simpl.
  rewrite alter_alter_eq.
  destruct (decide (pid = x)) as [<-|Hne].
  - rewrite lookup_alter_eq. destruct (players m !! pid); simpl; [|done].
    intros [= <-]. by left.
  - rewrite lookup_alter_ne by done. apply Hm.
Qed.

Lemma upheld_start_game q : follows (upholds exclusive) (start_game q).
Proof.
  unfold start_game. follow follows_bind; [follow follows_get|]. intros m.
  follow follows_bind; [apply same_players_upholds; by follow follows_modify|].
  intros _.
  follow follows_bind; [apply same_players_upholds, framed_popleft_n|].
  intros ps. destruct (GAMES !! q) as [conf|]; [|follow follows_raise].
  follow follows_bind; [apply same_players_upholds, framed_log|]. intros _.
  follow follows_bind; [follow follows_call|]. intros kwargs.
  follow follows_bind; [follow follows_call|]. intros g.
  follow follows_bind; [follow follows_call|]. intros startup.
  follow follows_bind; [apply same_players_upholds, framed_log|]. intros _.
  follow follows_bind; [|intros _; apply same_players_upholds;
                          by follow follows_modify].
  follow follows_for_each. intros pid.
  follow follows_bind; [follow follows_player_at|]. intros _.
  apply upheld_enlist.
  follow follows_bind; [follow follows_player_at|]. intros p.
  follow follows_when. apply same_players_upholds, framed_send.
Qed.

Lemma upheld_join_queue cid q : follows (upholds exclusive) (join_queue cid q).
Proof.
  intros m Hm. unfold join_queue. simpl.
  destruct (running m); simpl; [|done].
  case_bool_decide; simpl; [done|].
  destruct (players m !! cid) as [player|] eqn:Hp; simpl; [|done].
  destruct (gameid player) as [gid|] eqn:Hg; simpl; [done|].
  pose proof (framed_queue_remove) as Hrm.
  assert (∃ r m1, match queue player with
                  | Some q0 => queue_remove q0 cid
                  | None => ret tt
                  end m = (r, m1) ∧ players m1 = players m) as (r & m1 & -> & Hsame).
  { destruct (queue player) as [q0|]; [|by eexists _, _].
    destruct (queue_remove q0 cid m) as [r m1] eqn:Hr.
    exists r, m1. split; [done|].
    pose proof (Hrm q0 cid m) as Hfr. by rewrite Hr in Hfr. }
  assert (exclusive (with_players (alter (set_queue (Some q)) cid) m1)) as Hm2.
  { intros x p. simpl. rewrite Hsame.
    destruct (decide (cid = x)) as [<-|Hne].
    - rewrite lookup_alter_eq, Hp. simpl. intros [= <-]. by right.
    - rewrite lookup_alter_ne by done. apply Hm. }
  destruct r as [[]|e|];
    [|intros x p; simpl; rewrite Hsame; apply Hm..].
  case_bool_decide; simpl;
    (case_bool_decide; simpl; [apply upheld_start_game|]); exact Hm2.
Qed.

Lemma upheld_connect client : follows (upholds exclusive) (connect client).
Proof.
  intros m Hm. unfold connect. simpl.
  destruct (running m); simpl; [|done].
  case_bool_decide; simpl; [done|].
  unfold urandom. destruct (token_bytes <? 0); simpl; [done|].
  intros x p. simpl. destruct (decide (client_id client = x)) as [<-|Hne].
  - rewrite lookup_insert_eq. intros [= <-]. by left.
  - rewrite lookup_insert_ne by done. apply Hm.
Qed.

Lemma upheld_send_event cid event args :
  follows (upholds exclusive) (send_event cid event args).
Proof.
  apply same_players_upholds. unfold send_event.
  follow follows_bind; [follow follows_get|]. intros m.
  destruct (players m !! cid) as [p|]; [|follow follows_raise].
  destruct (gameid p) as [gid|]; [|follow follows_raise].
  follow follows_bind; [follow follows_game_at|]. intros g.
  follow follows_bind; [follow follows_call|]. intros events.
  follow follows_bind; [follow follows_raise_if|]. intros _.
  follow follows_bind; [apply framed_log|]. intros _.
  apply framed_on_game.
Qed.

Lemma upheld_work fuel gid : follows (upholds exclusive) (work fuel gid).
Proof.
  unfold work. follow follows_bind; [follow follows_get|]. intros m0.
  destruct (games m0 !! gid) as [s|]; [|follow follows_ret].
  destruct (finished (thread s)); [follow follows_ret|].
  intros m1 Hm1.
  pose proof (upheld_game_handler fuel gid (roster (thread s)) m1 Hm1) as Hgh.
  by destruct (game_handler fuel gid (roster (thread s)) m1) as [[[]|e|] m2].
Qed.

Lemma upheld_meanwhile steps :
  follows (upholds exclusive) (modify (meanwhile steps)).
Proof.
  follow follows_modify. intros m. unfold meanwhile.
  revert m. induction steps as [|c steps IH]; intros m Hm; simpl; [done|].
  apply IH. destruct c; simpl.
  - by apply upheld_connect.
  - by apply upheld_disconnect.
  - by apply upheld_join_queue.
  - by apply upheld_send_event.
  - by apply upheld_work.
Qed.

Lemma upheld_safe_stop sched fuel :
  follows (upholds exclusive) (safe_stop sched fuel).
Proof.
  unfold safe_stop.
  follow follows_bind; [apply same_players_upholds, framed_log|]. intros _.
  follow follows_bind; [apply same_players_upholds; by follow follows_modify|].
  intros _. follow follows_bind; [follow follows_get|]. intros m.
  follow follows_bind.
  { follow follows_for_each. intros gid.
    follow follows_bind; [follow follows_get|]. intros m'.
    follow follows_when.
    follow follows_bind; [apply upheld_meanwhile|]. intros _.
    unfold close_game. follow follows_try_except.
    - unfold join. follow follows_bind; [follow follows_get|]. intros m0.
      destruct (games m0 !! gid) as [s|]; [|follow follows_raise].
      destruct (finished (thread s)); [follow follows_ret|].
      follow follows_bind; [apply upheld_meanwhile|]. intros _.
      apply upheld_work.
    - intros _. apply same_players_upholds, framed_log. }
  intros _. follow follows_bind; [follow follows_get|]. intros m1.
  follow follows_bind; [|intros _; apply same_players_upholds, framed_log].
  follow follows_for_each. intros pid.
  follow follows_bind; [follow follows_get|]. intros m'.
  follow follows_when.
  follow follows_bind; [apply upheld_meanwhile|]. intros _.
  unfold kick. follow follows_try_except.
  - apply upheld_disconnect.
  - intros _. apply same_players_upholds, framed_log.
Qed.

Lemma exec_exclusive (o : op) (m : Manager) :
  exclusive m → exclusive (exec o m).
Proof.
  destruct o; simpl.
  - apply upheld_connect.
  - apply upheld_disconnect.
  - apply upheld_join_queue.
  - apply upheld_start_game.
  - apply upheld_send_event.
  - apply upheld_game_handler.
  - apply upheld_cleanup.
  - apply upheld_safe_stop.
Qed.

(** C2. Whatever operations a new manager has gone through (calls of
    its methods with any arguments, runs and cleanups of workers), no
    registered player has both a queue and a game. *)
Theorem queue_and_game_exclusive (ops : list op) (cid : Z) (p : Player) :
  players (run ops init) !! cid = Some p →
  ¬ (is_Some (queue p) ∧ is_Some (gameid p)).
Proof.
  assert (∀ m, exclusive m → exclusive (run ops m)) as Hrun.
  { unfold run. induction ops as [|o ops' IH]; intros m Hm; simpl; [done|].
    apply IH. by apply exec_exclusive. }
  assert (exclusive init) as Hinit.
  { intros x px. unfold init. simpl. by rewrite lookup_empty. }
  intros Hp [[q Hq] [g Hg]].
  destruct (Hrun init Hinit cid p Hp); congruence.
Qed.

(** ** Deciding consistency *)

Definition player_ok (m : Manager) (cid : Z) (p : Player) : Prop :=
  (queue p = None ∨ gameid p = None) ∧
  match queue p with
  | Some q =>
      is_Some (GAMES !! q) ∧
      match queues m !! q with Some d => cid ∈ d | None => False end
  | None => True
  end ∧
  match gameid p with
  | Some gid =>
      match games m !! gid with
      | Some s => cid ∈ roster (thread s)
      | None => False
      end
  | None => True
  end.

Definition waits_in (m : Manager) (q : string) (cid : Z) : Prop :=
  match players m !! cid with Some p => queue p = Some q | None => False end.

Definition plays_in (m : Manager) (gid : positive) (cid : Z) : Prop :=
  match players m !! cid with Some p => gameid p = Some gid | None => False end.

Definition queue_ok (m : Manager) (q : string) (d : list Z) : Prop :=
  NoDup d ∧ Z.of_nat (length d) < PLAYERS_PER_GAME ∧ Forall (waits_in m q) d.

Definition session_ok (m : Manager) (gid : positive) (s : Session) : Prop :=
  finished (thread s) = false ∧ (gid < next_gameid m)%positive ∧
  NoDup (roster (thread s)) ∧ Forall (plays_in m gid) (roster (thread s)).

Definition wf_check (m : Manager) : Prop :=
  map_Forall (player_ok m) (players m) ∧
  map_Forall (queue_ok m) (queues m) ∧
  map_Forall (session_ok m) (games m).

#[global] Instance player_ok_dec m cid p : Decision (player_ok m cid p).
Proof.
  unfold player_ok. destruct (queue p) as [q|], (gameid p) as [gid|];
    [destruct (queues m !! q), (games m !! gid)
    |destruct (queues m !! q)
    |destruct (games m !! gid)|]; apply _.
Defined.

#[global] Instance waits_in_dec m q cid : Decision (waits_in m q cid).
Proof. unfold waits_in. destruct (players m !! cid); apply _. Defined.

#[global] Instance plays_in_dec m gid cid : Decision (plays_in m gid cid).
Proof. unfold plays_in. destruct (players m !! cid); apply _. Defined.

#[global] Instance queue_ok_dec m q d : Decision (queue_ok m q d).
Proof. unfold queue_ok. apply _. Defined.

#[global] Instance session_ok_dec m gid s : Decision (session_ok m gid s).
Proof. unfold session_ok. apply _. Defined.

#[global] Instance wf_check_dec m : Decision (wf_check m).
Proof. unfold wf_check. apply _. Defined.

Lemma wf_check_sound (m : Manager) : wf_check m → wf m.
Proof.
  intros (Hpl & Hqs & Hgs). split.
  - intros cid p Hp. by destruct (Hpl cid p Hp) as (? & _).
  - intros cid p q Hp Hq. destruct (Hpl cid p Hp) as (_ & Hw & _).
    rewrite Hq in Hw. destruct Hw as [? Hin]. split; [done|].
    destruct (queues m !! q) as [d|]; [eauto|done].
  - intros q d Hd. destruct (Hqs q d Hd) as (? & ? & Hall).
    split; [done|]. split; [done|]. intros cid Hin.
    rewrite Forall_forall in Hall. specialize (Hall cid Hin).
    unfold waits_in in Hall. destruct (players m !! cid); [eauto|done].
  - intros gid s Hs. destruct (Hgs gid s Hs) as (? & ? & ? & Hall).
    split; [done|]. split; [done|]. split; [done|]. intros cid Hin.
    rewrite Forall_forall in Hall. specialize (Hall cid Hin).
    unfold plays_in in Hall. destruct (players m !! cid); [eauto|done].
  - intros cid p gid Hp Hg. destruct (Hpl cid p Hp) as (_ & _ & Hw).
    rewrite Hg in Hw. destruct (games m !! gid) as [s|]; [eauto|done].
Qed.

End Properties.

(** * Further properties *)

Notation "'let*' x ':=' c 'in' k" := (bind c (λ x, k))
  (at level 10, x name, c at level 100, k at level 200).
Notation "c '>>' k" := (bind c (λ _, k))
  (at level 80, right associativity).

Tactic Notation "follow" constr(l) := apply l; try (solve [apply _]).

(** [step_through tac known] decomposes a command along its structure; it
    tries [known] on each part first, and leaves the state changes to
    [tac]. *)
Ltac step_through tac known :=
  repeat first
    [ known
    | follow follows_ret | follow follows_raise | follow follows_get
    | follow follows_call | follow follows_raise_if
    | follow follows_player_at | follow follows_game_at
    | follow follows_modify; [intros ?; tac]
    | follow follows_when
    | follow follows_for_each; intros ?
    | follow follows_try_except; [|intros ?]
    | follow follows_try_finally
    | follow follows_bind; [|intros ?]
    | match goal with
      | |- follows _ (match ?x with _ => _ end) => destruct x
      end ].

(** * Reachable states, queues and new games *)

Section Further.

Context {api : GameAPI} {settings : Settings} {os : Entropy}.

(** ** Reachable states are consistent *)

(** What the queues hold once a registered player without a game has left
    its queue. *)
Lemma leave_facts cid p qs (m : Manager) :
  wf m → players m !! cid = Some p →
  leave_queue cid p (queues m) = Some qs →
  (∀ q d, qs !! q = Some d →
     NoDup d ∧ Z.of_nat (length d) < PLAYERS_PER_GAME ∧ (cid ∉ d) ∧
     ∀ x, x ∈ d → x ≠ cid ∧ ∃ px, players m !! x = Some px ∧ queue px = Some q) ∧
  (∀ x px q, players m !! x = Some px → x ≠ cid → queue px = Some q →
     ∃ d, qs !! q = Some d ∧ x ∈ d).
Proof.
  intros Hwf Hp Hleave.
  destruct (wf_leave_queue cid m p Hwf Hp) as (qs' & Hleave' & Hother & Hsame).
  rewrite Hleave in Hleave'. injection Hleave' as <-.
  split.
  - intros q d Hd. destruct (decide (queue p = Some q)) as [Hpq|Hpq].
    + destruct (Hsame q Hpq) as (d0 & Hd0 & _ & ->).
      rewrite lookup_insert_eq in Hd. injection Hd as <-.
      destruct (wf_queue m Hwf q d0 Hd0) as (Hnd & Hlen & Hmem).
      split; [by apply NoDup_filter|]. split.
      { pose proof (length_filter (λ x, x ≠ cid) d0). lia. }
      split.
      { intros [Hne _]%list_elem_of_filter. done. }
      intros x [Hne Hin]%list_elem_of_filter. split; [done|]. by apply Hmem.
    + rewrite (Hother q Hpq) in Hd.
      destruct (wf_queue m Hwf q d Hd) as (Hnd & Hlen & Hmem).
      assert (cid ∉ d) as Hout.
      { intros Hin. destruct (Hmem cid Hin) as (p' & Hp' & Hq'). congruence. }
      split; [done|]. split; [done|]. split; [done|].
      intros x Hin. split; [|by apply Hmem]. intros ->. done.
  - intros x px q Hx Hne Hq.
    destruct (wf_waiting m Hwf x px q Hx Hq) as (_ & d & Hd & Hin).
    destruct (decide (queue p = Some q)) as [Hpq|Hpq].
    + destruct (Hsame q Hpq) as (d0 & Hd0 & _ & ->).
      rewrite Hd in Hd0. injection Hd0 as <-.
      rewrite lookup_insert_eq. eexists. split; [done|].
      apply list_elem_of_filter. done.
    + rewrite (Hother q Hpq). eauto.
Qed.

(** A registration keeps the state consistent. *)
Lemma wf_connected cid entry (m m' : Manager) :
  wf m → players m !! cid = None →
  queue entry = None → gameid entry = None →
  players m' = <[cid := entry]> (players m) →
  games m' = games m → queues m' = queues m →
  next_gameid m' = next_gameid m →
  wf m'.
Proof.
  intros [H1 H2 H3 H4 H5] Hnew Hq Hg Hp Hgs Hqs Hn.
  assert (∀ x px, players m !! x = Some px → players m' !! x = Some px) as Hkeep.
  { intros x px Hx. rewrite Hp, lookup_insert_ne; [done|]. intros <-. congruence. }
  assert (∀ x px, players m' !! x = Some px →
            (x = cid ∧ px = entry) ∨ players m !! x = Some px) as Hcases.
  { intros x px. rewrite Hp. destruct (decide (cid = x)) as [<-|Hne].
    - rewrite lookup_insert_eq. intros [= <-]. by left.
    - rewrite lookup_insert_ne by done. by right. }
  split.
  - intros x px Hx. destruct (Hcases x px Hx) as [[-> ->]|Hm]; [by left|eauto].
  - intros x px q Hx Hqq. rewrite Hqs.
    destruct (Hcases x px Hx) as [[-> ->]|Hm]; [congruence|eauto].
  - intros q d. rewrite Hqs. intros Hd.
    destruct (H3 q d Hd) as (? & ? & Hmem). split; [done|]. split; [done|].
    intros x Hin. destruct (Hmem x Hin) as (px & Hx & Hqq). eauto.
  - intros gid s. rewrite Hgs, Hn. intros Hs.
    destruct (H4 gid s Hs) as (? & ? & ? & Hmem).
    split; [done|]. split; [done|]. split; [done|].
    intros x Hin. destruct (Hmem x Hin) as (px & Hx & Hgg). eauto.
  - intros x px gid Hx Hgg. rewrite Hgs.
    destruct (Hcases x px Hx) as [[-> ->]|Hm]; [congruence|eauto].
Qed.

(** The admission of a player to a queue that stays below the batch size
    keeps the state consistent. *)
Lemma wf_joined cid p q qs (m m' : Manager) :
  wf m → players m !! cid = Some p → gameid p = None →
  is_Some (GAMES !! q) →
  leave_queue cid p (queues m) = Some qs →
  let d := default [] (qs !! q) ++ [cid] in
  Z.of_nat (length d) < PLAYERS_PER_GAME →
  players m' = alter (set_queue (Some q)) cid (players m) →
  games m' = games m → queues m' = <[q := d]> qs →
  next_gameid m' = next_gameid m →
  wf m'.
Proof.
  intros Hwf Hcid Hfree Hgame Hleave d Hlen Hp Hgs Hqs Hn.
  destruct (leave_facts cid p qs m Hwf Hcid Hleave) as [Hqfacts Hpfacts].
  assert (∀ x px, players m' !! x = Some px →
            (x = cid ∧ px = set_queue (Some q) p) ∨
            (x ≠ cid ∧ players m !! x = Some px)) as Hcases.
  { intros x px. rewrite Hp. destruct (decide (cid = x)) as [<-|Hne].
    - rewrite lookup_alter_eq, Hcid. simpl. intros [= <-]. by left.
    - rewrite lookup_alter_ne by done. right. split; [congruence|done]. }
  assert (∀ x px, players m !! x = Some px → x ≠ cid →
            players m' !! x = Some px) as Hkeep.
  { intros x px Hx Hne. rewrite Hp, lookup_alter_ne; [done|congruence]. }
  assert (players m' !! cid = Some (set_queue (Some q) p)) as Hcid'.
  { by rewrite Hp, lookup_alter_eq, Hcid. }
  assert (∀ d0, qs !! q = Some d0 → d = d0 ++ [cid]) as Hd.
  { intros d0 Hd0. subst d. by rewrite Hd0. }
  destruct Hwf as [H1 H2 H3 H4 H5]. split.
  - intros x px Hx. destruct (Hcases x px Hx) as [[-> ->]|[_ Hm]];
      [by right|eauto].
  - intros x px q' Hx Hqq. rewrite Hqs.
    destruct (Hcases x px Hx) as [[-> ->]|[Hne Hm]].
    + simpl in Hqq. injection Hqq as <-. split; [done|].
      rewrite lookup_insert_eq. eexists. split; [done|].
      apply elem_of_app. right. by apply list_elem_of_singleton.
    + destruct (H2 x px q' Hm Hqq) as [? _]. split; [done|].
      destruct (Hpfacts x px q' Hm Hne Hqq) as (d0 & Hd0 & Hin).
      destruct (decide (q = q')) as [<-|Hneq].
      * rewrite lookup_insert_eq. eexists. split; [done|].
        rewrite (Hd d0 Hd0). apply elem_of_app. by left.
      * rewrite lookup_insert_ne by done. eauto.
  - intros q' d'. rewrite Hqs. destruct (decide (q = q')) as [<-|Hneq].
    + rewrite lookup_insert_eq. intros [= <-]. split; [|split; [done|]].
      * subst d. destruct (qs !! q) as [d0|] eqn:Hd0; simpl.
        -- destruct (Hqfacts q d0 Hd0) as (Hnd & _ & Hout & _).
           apply NoDup_app. split; [done|]. split; [|apply NoDup_singleton].
           intros x Hx ->%list_elem_of_singleton. done.
        -- apply NoDup_singleton.
      * intros x Hx. subst d. apply elem_of_app in Hx as [Hx|Hx].
        -- destruct (qs !! q) as [d0|] eqn:Hd0; simpl in Hx;
             [|by apply elem_of_nil in Hx].
           destruct (Hqfacts q d0 Hd0) as (_ & _ & _ & Hmem).
           destruct (Hmem x Hx) as (Hne & px & Hpx & Hqq). eauto.
        -- apply list_elem_of_singleton in Hx as ->. eauto.
    + rewrite lookup_insert_ne by done. intros Hd'.
      destruct (Hqfacts q' d' Hd') as (Hnd & Hl & _ & Hmem).
      split; [done|]. split; [done|]. intros x Hx.
      destruct (Hmem x Hx) as (Hne & px & Hpx & Hqq). eauto.
  - intros gid s. rewrite Hgs, Hn. intros Hs.
    destruct (H4 gid s Hs) as (? & ? & ? & Hmem).
    split; [done|]. split; [done|]. split; [done|].
    intros x Hin. destruct (Hmem x Hin) as (px & Hx & Hgg).
    exists px. split; [|done]. apply Hkeep; [done|]. congruence.
  - intros x px gid Hx Hgg. rewrite Hgs.
    destruct (Hcases x px Hx) as [[-> ->]|[_ Hm]]; [simpl in Hgg; congruence|eauto].
Qed.

(** The start of a game from a full queue keeps the state consistent. *)
Lemma wf_started cid p q qs g (m m' : Manager) :
  wf m → players m !! cid = Some p → gameid p = None →
  leave_queue cid p (queues m) = Some qs →
  let batch := default [] (qs !! q) ++ [cid] in
  let gid := next_gameid m in
  0 < PLAYERS_PER_GAME →
  players m' = enroll gid batch (alter (set_queue (Some q)) cid (players m)) →
  games m' = <[gid := mkSession g (mkThread batch false)]> (games m) →
  queues m' = <[q := []]> qs →
  next_gameid m' = Pos.succ gid →
  wf m'.
Proof.
  intros Hwf Hcid Hfree Hleave batch gid Hpos Hp Hgs Hqs Hn.
  destruct (leave_facts cid p qs m Hwf Hcid Hleave) as [Hqfacts Hpfacts].
  pose proof (wf_fresh_gameid m Hwf) as Hfresh. fold gid in Hfresh.
  assert (∀ x, x ∈ batch → x ≠ cid →
            ∃ px, players m !! x = Some px ∧ queue px = Some q) as Hwaiting.
  { intros x Hx Hne. subst batch. apply elem_of_app in Hx as [Hx|Hx].
    - destruct (qs !! q) as [d0|] eqn:Hd0; simpl in Hx;
        [|by apply elem_of_nil in Hx].
      destruct (Hqfacts q d0 Hd0) as (_ & _ & _ & Hmem).
      by destruct (Hmem x Hx) as (_ & Hx').
    - by apply list_elem_of_singleton in Hx. }
  assert (NoDup batch) as Hnd.
  { subst batch. destruct (qs !! q) as [d0|] eqn:Hd0; simpl;
      [|apply NoDup_singleton].
    destruct (Hqfacts q d0 Hd0) as (Hnd & _ & Hout & _).
    apply NoDup_app. split; [done|]. split; [|apply NoDup_singleton].
    intros x Hx ->%list_elem_of_singleton. done. }
  assert (cid ∈ batch) as Hcidin.
  { subst batch. apply elem_of_app. right. by apply list_elem_of_singleton. }
  assert (∀ x px, players m' !! x = Some px →
            (x ∈ batch ∧ queue px = None ∧ gameid px = Some gid) ∨
            ((x ∉ batch) ∧ x ≠ cid ∧ players m !! x = Some px)) as Hcases.
  { intros x px. rewrite Hp, enroll_lookup.
    destruct (decide (x ∈ batch)) as [Hin|Hout].
    - intros Hx. left. split; [done|].
      destruct (alter (set_queue (Some q)) cid (players m) !! x) as [p0|];
        simpl in Hx; [|done]. by injection Hx as <-.
    - assert (x ≠ cid) as Hne by (intros ->; done).
      rewrite lookup_alter_ne by done. by right. }
  assert (∀ x px, players m !! x = Some px → x ∉ batch →
            players m' !! x = Some px) as Hkeep.
  { intros x px Hx Hout. rewrite Hp, enroll_lookup, decide_False by done.
    rewrite lookup_alter_ne; [done|]. intros <-. done. }
  destruct Hwf as [H1 H2 H3 H4 H5]. split.
  - intros x px Hx. destruct (Hcases x px Hx) as [(_ & ? & _)|(_ & _ & Hm)];
      [by left|eauto].
  - intros x px q' Hx Hqq. rewrite Hqs.
    destruct (Hcases x px Hx) as [(_ & ? & _)|(Hout & Hne & Hm)]; [congruence|].
    destruct (H2 x px q' Hm Hqq) as [? _]. split; [done|].
    destruct (Hpfacts x px q' Hm Hne Hqq) as (d0 & Hd0 & Hin).
    destruct (decide (q = q')) as [<-|Hneq].
    + exfalso. apply Hout. subst batch. rewrite Hd0. simpl.
      apply elem_of_app. by left.
    + rewrite lookup_insert_ne by done. eauto.
  - intros q' d'. rewrite Hqs. destruct (decide (q = q')) as [<-|Hneq].
    + rewrite lookup_insert_eq. intros [= <-].
      split; [apply NoDup_nil_2|]. split; [simpl; lia|].
      intros x Hx. by apply elem_of_nil in Hx.
    + rewrite lookup_insert_ne by done. intros Hd'.
      destruct (Hqfacts q' d' Hd') as (Hnd' & Hl & _ & Hmem).
      split; [done|]. split; [done|]. intros x Hx.
      destruct (Hmem x Hx) as (Hne & px & Hpx & Hqq).
      exists px. split; [|done]. apply Hkeep; [done|].
      intros Hin. destruct (Hwaiting x Hin Hne) as (px' & Hpx' & Hqq').
      congruence.
  - intros gid' s. rewrite Hgs, Hn. destruct (decide (gid = gid')) as [<-|Hneq].
    + rewrite lookup_insert_eq. intros [= <-]. simpl.
      split; [done|]. split; [lia|]. split; [done|].
      intros x Hx. rewrite Hp, enroll_lookup, decide_True by done.
      destruct (decide (x = cid)) as [->|Hne].
      * rewrite lookup_alter_eq, Hcid. simpl. eauto.
      * destruct (Hwaiting x Hx Hne) as (px & Hpx & _).
        rewrite lookup_alter_ne, Hpx by done. simpl. eauto.
    + rewrite lookup_insert_ne by done. intros Hs.
      destruct (H4 gid' s Hs) as (? & ? & ? & Hmem).
      split; [done|]. split; [lia|]. split; [done|].
      intros x Hin. destruct (Hmem x Hin) as (px & Hx & Hgg).
      exists px. split; [|done]. apply Hkeep; [done|].
      intros Hb. destruct (decide (x = cid)) as [->|Hne]; [congruence|].
      destruct (Hwaiting x Hb Hne) as (px' & Hpx' & Hqq').
      rewrite Hx in Hpx'. injection Hpx' as <-.
      destruct (H1 x px Hx); congruence.
  - intros x px gid' Hx Hgg. rewrite Hgs.
    destruct (Hcases x px Hx) as [(Hin & _ & Hg')|(_ & _ & Hm)].
    + rewrite Hgg in Hg'. injection Hg' as ->.
      rewrite lookup_insert_eq. eauto.
    + destruct (H5 x px gid' Hm Hgg) as (s & Hs & Hin).
      exists s. split; [|done]. rewrite lookup_insert_ne; [done|].
      intros <-. congruence.
Qed.

(** Every queue type can build its game. *)
Definition constructible : Prop :=
  ∀ q conf, GAMES !! q = Some conf →
    ∃ kwargs, initfunc conf = Returns kwargs ∧
      ∀ gid ps, ∃ g startup,
        gamefunc conf gid ps kwargs = Returns g ∧
        game_get_startup_status g = Returns startup.

(** A consistent manager that runs. *)
Definition settled (m : Manager) : Prop :=
  wf m ∧ running m = true.

(** The operations that occur while the server runs: the calls of the web
    server, and the worker of a session of the table with the roster it
    was started with. [start_game] and the cleanup are not called on their
    own, and [safe_stop] ends the run. *)
Definition legal (m : Manager) (o : op) : Prop :=
  match o with
  | Connect _ | Disconnect _ | JoinQueue _ _ | SendEvent _ _ _ => True
  | Work _ gid ps => ∃ s, games m !! gid = Some s ∧ ps = roster (thread s)
  | StartGame _ | Cleanup _ _ | SafeStop _ _ => False
  end.

Fixpoint legal_run (ops : list op) (m : Manager) : Prop :=
  match ops with
  | [] => True
  | o :: ops' => legal m o ∧ legal_run ops' (exec o m)
  end.

Lemma settled_connect client (m : Manager) :
  settled m → settled (snd (connect client m)).
Proof.
  intros Hset. pose proof Hset as [Hwf Hstop]. unfold connect. simpl.
  destruct (running m) eqn:Hrun; simpl; [|done].
  case_bool_decide as Hreg; simpl; [done|].
  unfold urandom. destruct (token_bytes <? 0); simpl; [done|].
  split; [|simpl; congruence].
  eapply (wf_connected (client_id client)
            (mkPlayer client true None None
               (hexlify (map entropy_tape
                  (seq (entropy_used m) (Z.to_nat token_bytes)))))); try done.
  destruct (players m !! client_id client) eqn:Hp; [|done].
  exfalso. apply Hreg. eauto.
Qed.

Lemma settled_disconnect cid (m : Manager) :
  settled m → settled (snd (disconnect cid m)).
Proof.
  intros Hset. pose proof Hset as [Hwf Hstop].
  destruct (players m !! cid) as [p|] eqn:Hp.
  2: { unfold disconnect. simpl. by rewrite Hp. }
  destruct (running m) eqn:Hrun.
  2: { congruence. }
  destruct (gameid p) as [gid|] eqn:Hg.
  - destruct (wf_playing m Hwf cid p gid Hp Hg) as (s & Hs & _).
    rewrite (disconnect_in_game cid p gid s m Hwf Hrun Hp Hg Hs).
    destruct (game_kill cid (game s)) as [[[]|e] g'] eqn:Hkill; simpl.
    + split; [|simpl; congruence].
      eapply alike_wf; [|done]. by apply (alike_kill cid gid s g' true).
    + split; [|simpl; congruence].
      eapply alike_wf; [|done]. by apply (alike_kill cid gid s g' false).
  - destruct (wf_leave_queue cid m p Hwf Hp) as (qs & Hleave & _).
    rewrite (disconnect_removes cid m p qs Hp Hleave) by (by left). simpl.
    split; [|simpl; congruence].
    by apply (wf_removed cid p qs m).
Qed.

Lemma settled_join_queue cid q (m : Manager) :
  0 < PLAYERS_PER_GAME → constructible →
  settled m → settled (snd (join_queue cid q m)).
Proof.
  intros Hpos Hbuild Hset. pose proof Hset as [Hwf Hstop].
  destruct (running m) eqn:Hrun.
  2: { unfold join_queue. simpl. by rewrite Hrun. }
  destruct (GAMES !! q) as [conf|] eqn:Hconf.
  2: { unfold join_queue. simpl. rewrite Hrun. simpl.
       case_bool_decide; simpl; [done|congruence]. }
  destruct (players m !! cid) as [p|] eqn:Hp.
  2: { unfold join_queue. simpl. rewrite Hrun. simpl.
       case_bool_decide; simpl; [done|]. by rewrite Hp. }
  destruct (gameid p) as [gid0|] eqn:Hg.
  { unfold join_queue. simpl. rewrite Hrun. simpl.
    case_bool_decide; simpl; [done|]. rewrite Hp. simpl. by rewrite Hg. }
  destruct (wf_leave_queue cid m p Hwf Hp) as (qs & Hleave & _).
  rewrite (join_queue_admitted cid q m p qs) by eauto.
  destruct (leave_facts cid p qs m Hwf Hp Hleave) as [Hqfacts Hpfacts].
  set (d := default [] (qs !! q) ++ [cid]).
  case_bool_decide as Hfull; simpl.
  - assert (Z.of_nat (length d) = PLAYERS_PER_GAME) as Hlen.
    { subst d. rewrite length_app in *. simpl in *.
      destruct (qs !! q) as [d0|] eqn:Hd0; simpl in *; [|lia].
      destruct (Hqfacts q d0 Hd0) as (_ & Hshort & _). lia. }
    destruct (Hbuild q conf Hconf) as (kwargs & Hinit & Hmake).
    destruct (Hmake (next_gameid m) d) as (g & startup & Hgame & Hstartup).
    erewrite start_game_run; simpl; eauto.
    + split; [|simpl; congruence].
      eapply (wf_started cid p q qs g m); simpl; eauto.
      by rewrite insert_insert_eq.
    + by rewrite lookup_insert_eq.
    + lia.
    + intros x Hx. apply lookup_alter_is_Some.
      subst d. apply elem_of_app in Hx as [Hx|Hx].
      * destruct (qs !! q) as [d0|] eqn:Hd0; simpl in Hx;
          [|by apply elem_of_nil in Hx].
        destruct (Hqfacts q d0 Hd0) as (_ & _ & _ & Hmem).
        destruct (Hmem x Hx) as (_ & px & Hpx & _). eauto.
      * apply list_elem_of_singleton in Hx as ->. eauto.
  - split; [|simpl; congruence].
    eapply (wf_joined cid p q qs m); simpl; eauto. fold d. lia.
Qed.

Lemma settled_send_event cid event args (m : Manager) :
  settled m → settled (snd (send_event cid event args m)).
Proof.
  intros Hset. pose proof Hset as [Hwf Hstop].
  unfold send_event, game_at, on_game. simpl.
  destruct (players m !! cid) as [p|]; simpl; [|done].
  destruct (gameid p) as [gid|]; simpl; [|done].
  destruct (games m !! gid) as [s|] eqn:Hs; simpl; [|done].
  destruct (game_get_events (game s)) as [events|e]; simpl; [|done].
  case_bool_decide; simpl; [done|]. rewrite Hs. simpl.
  assert (alike m (with_games
            (insert gid (mkSession (snd (game_run_event cid event args (game s)))
                           (thread s)))
            (with_logged (λ l, l ++ [LogFired cid event gid]) m))) as Halike.
  { split; simpl; try done. intros gid'.
    destruct (decide (gid = gid')) as [<-|Hne].
    - by rewrite lookup_insert_eq, Hs.
    - by rewrite lookup_insert_ne. }
  pose proof Hstop as Hrun.
  destruct (fst (game_run_event cid event args (game s))) as [[]|e]; simpl;
    (split; [by eapply alike_wf|simpl; congruence]).
Qed.

Lemma settled_work fuel gid s (m : Manager) :
  games m !! gid = Some s →
  settled m → settled (snd (game_handler fuel gid (roster (thread s)) m)).
Proof.
  intros Hs [Hwf Hstop].
  pose proof Hstop as Hrun.
  destruct (supervised_loop fuel gid (roster (thread s)) m) as [r0 m1] eqn:Hloop.
  destruct (supervised_loop_returns fuel gid s m m1 r0 Hwf Hs Hloop) as [-> | ->].
  - rewrite (game_handler_exit fuel gid s m m1 Hwf Hs Hloop). simpl.
    split; [|simpl; congruence].
    by apply (wf_released gid s m).
  - pose proof (keeps_supervised_loop fuel gid (roster (thread s)) m) as Hst.
    rewrite Hloop in Hst. simpl in Hst.
    unfold game_handler. fold (supervised_loop fuel gid (roster (thread s))).
    unfold try_finally. rewrite Hloop. simpl.
    split; [by eapply steady_wf|].
    rewrite (steady_running _ _ _ Hst). congruence.
Qed.

Lemma settled_exec (o : op) (m : Manager) :
  0 < PLAYERS_PER_GAME → constructible →
  settled m → legal m o → settled (exec o m).
Proof.
  intros Hpos Hbuild Hset Hlegal. destruct o; simpl in *; try done.
  - by apply settled_connect.
  - by apply settled_disconnect.
  - by apply settled_join_queue.
  - by apply settled_send_event.
  - destruct Hlegal as (s & Hs & ->). by apply settled_work.
Qed.

Lemma settled_init : settled init.
Proof.
  split; [|done]. split; simpl.
  - intros cid p. by rewrite lookup_empty.
  - intros cid p q. by rewrite lookup_empty.
  - intros q d. by rewrite lookup_empty.
  - intros gid s. by rewrite lookup_empty.
  - intros cid p gid. by rewrite lookup_empty.
Qed.

(** X1. Every state that a new manager reaches while it runs, through
    calls of [connect], [disconnect], [join_queue] and [send_event] with
    any arguments and through passes and exits of the workers of its
    sessions, is consistent: a waiting player is in the queue it names, a
    queue holds distinct waiting players, fewer than [PLAYERS_PER_GAME]
    of them, a roster holds distinct registered players who play in that
    session, a playing player is on the roster of its session, and session
    ids are below the next id. The games are assumed to be constructible
    and [PLAYERS_PER_GAME] positive. *)
Theorem reachable_settled (ops : list op) :
  0 < PLAYERS_PER_GAME → constructible →
  legal_run ops init →
  wf (run ops init) ∧ running (run ops init) = true.
Proof.
  intros Hpos Hbuild.
  assert (∀ m, settled m → legal_run ops m → settled (run ops m)) as Hrun.
  { induction ops as [|o ops' IH]; intros m Hset Hlegal; simpl; [done|].
    destruct Hlegal as [Ho Hrest]. apply IH; [|done].
    by apply settled_exec. }
  intros Hlegal. exact (Hrun init settled_init Hlegal).
Qed.

(** ** Joining a queue: refusals and admissions *)

(** X3. [join_queue] tests, in this order, that the manager runs
    ([ServerStopping]), that the queue is one of [GAMES]
    ([InvalidQueue]), that the client is registered ([NotRegistered]) and
    that it has no game ([InGame]); a refused call changes nothing. *)
Theorem join_queue_refusals (cid : Z) (q : string) (m : Manager) :
  (running m = false → join_queue cid q m = (Raise ServerStopping, m)) ∧
  (running m = true → GAMES !! q = None →
     join_queue cid q m = (Raise InvalidQueue, m)) ∧
  (running m = true → is_Some (GAMES !! q) → players m !! cid = None →
     join_queue cid q m = (Raise NotRegistered, m)) ∧
  (∀ p, running m = true → is_Some (GAMES !! q) →
     players m !! cid = Some p → is_Some (gameid p) →
     join_queue cid q m = (Raise InGame, m)).
Proof.
  split; [|split; [|split]].
  - intros Hrun. unfold join_queue. simpl. by rewrite Hrun.
  - intros Hrun Hq. unfold join_queue. simpl. rewrite Hrun. simpl.
    by rewrite bool_decide_eq_true_2.
  - intros Hrun Hq Hp. unfold join_queue. simpl. rewrite Hrun. simpl.
    rewrite bool_decide_eq_false_2
      by (intros Hnone; rewrite Hnone in Hq; by destruct Hq).
    simpl. by rewrite Hp.
  - intros p Hrun Hq Hp Hg. unfold join_queue. simpl. rewrite Hrun. simpl.
    rewrite bool_decide_eq_false_2
      by (intros Hnone; rewrite Hnone in Hq; by destruct Hq).
    simpl. rewrite Hp. simpl. by rewrite bool_decide_eq_true_2.
Qed.

(** X4. A player admitted to a queue that stays below the batch size is
    appended at its tail and, if it waited in another queue, taken out of
    that one: afterwards it is in no other queue, its entry names the new
    queue, no game starts, no message is sent, and the state is
    consistent. *)
Theorem join_queue_enqueues (cid : Z) (q : string) (m : Manager) (p : Player) :
  wf m → running m = true → is_Some (GAMES !! q) →
  players m !! cid = Some p → gameid p = None → queue p ≠ Some q →
  let waiting := default [] (queues m !! q) in
  Z.of_nat (length waiting) + 1 < PLAYERS_PER_GAME →
  ∃ m',
    join_queue cid q m = (Ok tt, m') ∧
    queues m' !! q = Some (waiting ++ [cid]) ∧
    (∀ q', q' ≠ q → cid ∉ default [] (queues m' !! q')) ∧
    (∀ q', q' ≠ q → queue p ≠ Some q' → queues m' !! q' = queues m !! q') ∧
    players m' = <[cid := set_queue (Some q) p]> (players m) ∧
    games m' = games m ∧ next_gameid m' = next_gameid m ∧
    outbox m' = outbox m ∧ wf m'.
Proof.
  intros Hwf Hrun Hq Hp Hg Hnq waiting Hlen.
  destruct (wf_leave_queue cid m p Hwf Hp) as (qs & Hleave & Hother & Hsame).
  destruct (leave_facts cid p qs m Hwf Hp Hleave) as [Hqfacts _].
  rewrite (join_queue_admitted cid q m p qs) by eauto.
  rewrite (Hother q Hnq). fold waiting.
  rewrite bool_decide_eq_false_2 by (rewrite length_app; simpl; lia).
  eexists. split; [reflexivity|]. simpl.
  split; [by rewrite lookup_insert_eq|]. split; [|split; [|split]].
  - intros q' Hne. rewrite lookup_insert_ne by done.
    destruct (qs !! q') as [d'|] eqn:Hd'; simpl; [|apply not_elem_of_nil].
    by destruct (Hqfacts q' d' Hd') as (_ & _ & ? & _).
  - intros q' Hne Hnq'. rewrite lookup_insert_ne by done. by apply Hother.
  - apply map_eq. intros x. destruct (decide (cid = x)) as [<-|Hne].
    + by rewrite lookup_alter_eq, lookup_insert_eq, Hp.
    + by rewrite lookup_alter_ne, lookup_insert_ne.
  - split; [done|]. split; [done|]. split; [done|].
    eapply (wf_joined cid p q qs m); simpl; eauto.
    + rewrite (Hother q Hnq). fold waiting. rewrite length_app. simpl. lia.
    + by rewrite (Hother q Hnq).
Qed.

(** ** Starting a game: what can go wrong *)

Lemma popleft_n_short (k : nat) (q : string) (d : list Z) (m : Manager) :
  queues m !! q = Some d → (length d < k)%nat →
  popleft_n k q m = (Raise IndexError, with_queues (insert q []) m).
Proof.
  revert k m. induction d as [|x d IH]; intros k m Hq Hlen;
    (destruct k as [|k]; [simpl in Hlen; lia|]); simpl.
  - unfold popleft. simpl. rewrite Hq. simpl.
    f_equal. apply manager_eq; simpl; try done. symmetry. by apply insert_id.
  - unfold popleft. simpl. rewrite Hq. simpl.
    erewrite (IH k);
      [|simpl; by rewrite lookup_insert_eq|simpl in Hlen; lia].
    simpl. f_equal. apply manager_eq; simpl; try done.
    by rewrite insert_insert_eq.
Qed.

(** X5. [start_game] on a queue shorter than the batch raises
    [IndexError] after it has taken a session id and emptied the queue; on
    a queue that does not exist it raises [KeyError] after it has taken a
    session id. Neither registers a session or touches a player. *)
Theorem start_game_underfull (q : string) (m : Manager) :
  (∀ d, queues m !! q = Some d →
     (length d < Z.to_nat PLAYERS_PER_GAME)%nat →
     start_game q m =
       (Raise IndexError,
        with_queues (insert q [])
          (with_next_gameid (Pos.succ (next_gameid m)) m))) ∧
  (queues m !! q = None → 0 < PLAYERS_PER_GAME →
     start_game q m =
       (Raise KeyError, with_next_gameid (Pos.succ (next_gameid m)) m)).
Proof.
  split.
  - intros d Hq Hlen. unfold start_game. rewrite bind_unfold. simpl get.
    cbv iota beta. rewrite bind_unfold. simpl modify. cbv iota beta.
    rewrite bind_unfold. by rewrite (popleft_n_short _ q d).
  - intros Hq Hpos. unfold start_game. simpl.
    destruct (Z.to_nat PLAYERS_PER_GAME) as [|k] eqn:Hk; [lia|].
    simpl. unfold popleft. simpl. by rewrite Hq.
Qed.

(** The construction of the game of a batch fails with [e]. *)
Definition construction_fails (conf : GameConf) (gid : positive)
    (batch : list Z) (e : exn) : Prop :=
  initfunc conf = Throws e ∨
  ∃ kwargs, initfunc conf = Returns kwargs ∧
    (gamefunc conf gid batch kwargs = Throws e ∨
     ∃ g, gamefunc conf gid batch kwargs = Returns g ∧
          game_get_startup_status g = Throws e).

(** X6. When the construction of the game fails as a join fills a queue,
    [join_queue] raises the game's exception after the batch has been
    taken out of the queue: no session is registered, the queue is empty,
    and every player of the batch still names the queue in its entry
    without being in it, so that its [disconnect] now raises
    [ValueError]. *)
Theorem join_queue_loses_batch (cid : Z) (q : string) (m : Manager) p conf e :
  wf m → running m = true →
  GAMES !! q = Some conf →
  players m !! cid = Some p → gameid p = None → queue p ≠ Some q →
  let waiting := default [] (queues m !! q) in
  let batch := waiting ++ [cid] in
  Z.of_nat (length batch) = PLAYERS_PER_GAME →
  construction_fails conf (next_gameid m) batch e →
  ∃ m',
    join_queue cid q m = (Raise e, m') ∧
    queues m' !! q = Some [] ∧
    games m' = games m ∧
    next_gameid m' = Pos.succ (next_gameid m) ∧
    outbox m' = outbox m ∧
    ∀ x, x ∈ batch →
      (∃ px, players m' !! x = Some px ∧ queue px = Some q ∧ gameid px = None) ∧
      disconnect x m' =
        (Raise ValueError, with_logged (λ l, l ++ [LogLeftQueue x]) m').
Proof.
  intros Hwf Hrun Hconf Hp Hg Hnq waiting batch Hlen Hfail.
  destruct (wf_leave_queue cid m p Hwf Hp) as (qs & Hleave & Hother & Hsame).
  rewrite (join_queue_admitted cid q m p qs) by eauto.
  rewrite (Hother q Hnq). fold waiting. fold batch.
  rewrite bool_decide_eq_true_2 by lia. simpl when.
  set (m5 := with_logged _ _).
  assert (∀ x, x ∈ batch →
            ∃ px, players m5 !! x = Some px ∧ queue px = Some q ∧
                  gameid px = None) as Hmembers.
  { intros x Hx. subst m5 batch. simpl.
    apply elem_of_app in Hx as [Hx| ->%list_elem_of_singleton].
    - subst waiting. destruct (queues m !! q) as [d|] eqn:Hd; simpl in Hx;
        [|by apply elem_of_nil in Hx].
      destruct (wf_queue m Hwf q d Hd) as (_ & _ & Hmem).
      destruct (Hmem x Hx) as (px & Hpx & Hqx).
      assert (x ≠ cid) as Hne by (intros ->; congruence).
      exists px. rewrite lookup_alter_ne by done.
      split; [done|]. split; [done|].
      destruct (wf_exclusive m Hwf x px Hpx); congruence.
    - exists (set_queue (Some q) p). by rewrite lookup_alter_eq, Hp. }
  assert (∃ m',
    start_game q m5 = (Raise e, m') ∧ queues m' = <[q := []]> (queues m5) ∧
    games m' = games m5 ∧ players m' = players m5 ∧
    next_gameid m' = Pos.succ (next_gameid m5) ∧ outbox m' = outbox m5)
    as (m' & Hstart & Hqs' & Hgs' & Hps' & Hn' & Hout').
  { unfold start_game. rewrite bind_unfold. simpl get. cbv iota beta.
    rewrite bind_unfold. simpl modify. cbv iota beta.
    rewrite bind_unfold.
    replace (Z.to_nat PLAYERS_PER_GAME) with (length batch) by lia.
    rewrite (popleft_n_run q batch [])
      by (subst m5; simpl; by rewrite app_nil_r, lookup_insert_eq).
    cbv iota beta. rewrite Hconf. rewrite bind_unfold. simpl log.
    cbv iota beta. rewrite bind_unfold.
    destruct Hfail as [Hinit|(kwargs & Hinit & Hfail)].
    { rewrite Hinit. simpl. eexists. split; [reflexivity|]. by simpl. }
    rewrite Hinit. simpl call. cbv iota beta. rewrite bind_unfold.
    replace (next_gameid m5) with (next_gameid m) by done.
    destruct Hfail as [Hgame|(g & Hgame & Hstartup)].
    { rewrite Hgame. simpl. eexists. split; [reflexivity|]. by simpl. }
    rewrite Hgame. simpl call. cbv iota beta. rewrite bind_unfold.
    rewrite Hstartup. simpl. eexists. split; [reflexivity|]. by simpl. }
  exists m'. split; [done|].
  split; [by rewrite Hqs', lookup_insert_eq|].
  split; [by rewrite Hgs'|]. split; [by rewrite Hn'|].
  split; [by rewrite Hout'|].
  intros x Hx. destruct (Hmembers x Hx) as (px & Hpx & Hqx & Hgx).
  rewrite <- Hps' in Hpx. split; [eauto|].
  unfold disconnect, queue_remove. simpl. rewrite Hpx. simpl.
  rewrite Hqx. simpl. rewrite Hqs', lookup_insert_eq. done.
Qed.

End Further.

(** * The session counter and the running flag *)

Section Lifecycle.

Context {api : GameAPI} {settings : Settings} {os : Entropy}.

(** States between which the session counter has not gone back and the
    running flag has not changed. *)
Definition paced : relation Manager :=
  λ m m', (next_gameid m ≤ next_gameid m')%positive ∧ running m' = running m.

#[local] Instance paced_preorder : PreOrder paced.
Proof.
  split; [intros m; split; [lia|done]|].
  intros m1 m2 m3 [? ?] [? ?]. split; [lia|congruence].
Qed.

Ltac pace := split; simpl; [lia|done].

Lemma paced_queue_remove q cid : follows paced (queue_remove q cid).
Proof. unfold queue_remove. step_through pace fail. Qed.

Lemma paced_on_game {A} gid (method : Game → result A * Game) :
  follows paced (on_game gid method).
Proof. unfold on_game. step_through pace fail. Qed.

Lemma paced_update_player cid f : follows paced (update_player cid f).
Proof. unfold update_player. step_through pace fail. Qed.

Lemma paced_connect client : follows paced (connect client).
Proof. unfold connect, urandom. step_through pace fail. Qed.

Lemma paced_disconnect cid : follows paced (disconnect cid).
Proof.
  unfold disconnect.
  step_through pace
    ltac:(first [apply paced_queue_remove | apply paced_on_game
                | apply paced_update_player]).
Qed.

Lemma paced_popleft_n k q : follows paced (popleft_n k q).
Proof.
  induction k as [|k IH]; simpl; [follow follows_ret|].
  follow follows_bind; [unfold popleft; step_through pace fail|].
  intros x. follow follows_bind; [done|]. intros xs. follow follows_ret.
Qed.

Lemma follows_read {A} (R : relation Manager) (k : Manager → M A) :
  (∀ m, R m (snd (k m m))) → follows R (let* m := get in k m).
Proof. intros Hk m. apply Hk. Qed.

(** What [start_game] does once it has taken the session identifier
    [gid]. *)
Definition assemble (q : string) (gid : positive) : M unit :=
  let* ps := popleft_n (Z.to_nat PLAYERS_PER_GAME) q in
  match GAMES !! q with
  | None => raise KeyError
  | Some conf =>
      log (LogStarting q gid ps) >>
      let* kwargs := call (initfunc conf) in
      let* g := call (gamefunc conf gid ps kwargs) in
      let* startup := call (game_get_startup_status g) in
      log (LogCommand gid (StartupStatus startup)) >>
      for_each ps (λ pid,
        player_at pid >>
        update_player pid (set_queue None) >>
        update_player pid (set_gameid (Some gid)) >>
        let* p := player_at pid in
        when (alive p) (send_message (socket p) (StartupStatus startup))) >>
      modify (with_games (insert gid (mkSession g (mkThread ps false))))
  end.

Lemma start_game_assemble (q : string) (m : Manager) :
  start_game q m =
    assemble q (next_gameid m) (with_next_gameid (Pos.succ (next_gameid m)) m).
Proof. reflexivity. Qed.

Lemma paced_assemble q gid : follows paced (assemble q gid).
Proof.
  unfold assemble. follow follows_bind; [apply paced_popleft_n|]. intros ps.
  step_through pace ltac:(apply paced_update_player).
Qed.

Lemma paced_start_game q : follows paced (start_game q).
Proof.
  intros m. rewrite start_game_assemble.
  transitivity (with_next_gameid (Pos.succ (next_gameid m)) m);
    [split; simpl; [lia|done]|apply paced_assemble].
Qed.

(** States with the same value of the session counter. *)
Definition same_counter : relation Manager :=
  λ m m', next_gameid m' = next_gameid m.

#[local] Instance same_counter_preorder : PreOrder same_counter.
Proof.
  split; [intros m; reflexivity|].
  unfold same_counter. intros m1 m2 m3. congruence.
Qed.

Lemma counter_assemble q gid : follows same_counter (assemble q gid).
Proof.
  assert (∀ cid f, follows same_counter (update_player cid f)) as Hupdate.
  { intros cid f. unfold update_player. step_through ltac:(done) fail. }
  unfold assemble. follow follows_bind.
  { induction (Z.to_nat PLAYERS_PER_GAME) as [|k IH]; simpl;
      [follow follows_ret|].
    follow follows_bind; [unfold popleft; step_through ltac:(done) fail|].
    intros x. follow follows_bind; [done|]. intros xs. follow follows_ret. }
  intros ps. step_through ltac:(done) ltac:(apply Hupdate).
Qed.

Lemma paced_join_queue cid q : follows paced (join_queue cid q).
Proof.
  unfold join_queue.
  step_through pace
    ltac:(first [apply paced_queue_remove | apply paced_update_player
                | apply paced_start_game]).
Qed.

Lemma paced_send_event cid event args :
  follows paced (send_event cid event args).
Proof. unfold send_event. step_through pace ltac:(apply paced_on_game). Qed.

Lemma paced_cleanup gid ps : follows paced (cleanup gid ps).
Proof.
  unfold cleanup.
  step_through pace
    ltac:(first [apply paced_update_player | apply paced_disconnect]).
Qed.

Lemma paced_game_handler fuel gid ps : follows paced (game_handler fuel gid ps).
Proof.
  unfold game_handler. follow follows_try_finally; [|apply paced_cleanup].
  intros m.
  pose proof (keeps_supervised_loop fuel gid ps m) as Hst.
  unfold supervised_loop in Hst. split.
  - rewrite (steady_next _ _ _ Hst). lia.
  - apply (steady_running _ _ _ Hst).
Qed.

Lemma paced_work fuel gid : follows paced (work fuel gid).
Proof.
  unfold work. apply follows_read. intros m.
  destruct (games m !! gid) as [s|]; [|reflexivity].
  destruct (finished (thread s)); [reflexivity|].
  pose proof (paced_game_handler fuel gid (roster (thread s)) m) as Hgh.
  by destruct (game_handler fuel gid (roster (thread s)) m) as [[[]|e|] m1].
Qed.

Lemma paced_perform (c : activity) (m : Manager) : paced m (perform c m).
Proof.
  destruct c; simpl.
  - apply paced_connect.
  - apply paced_disconnect.
  - apply paced_join_queue.
  - apply paced_send_event.
  - apply paced_work.
Qed.

Lemma paced_meanwhile steps : follows paced (modify (meanwhile steps)).
Proof.
  follow follows_modify. intros m. unfold meanwhile. revert m.
  induction steps as [|c steps IH]; intros m; simpl; [reflexivity|].
  transitivity (perform c m); [apply paced_perform|apply IH].
Qed.

Lemma paced_join during fuel gid : follows paced (join during fuel gid).
Proof.
  unfold join.
  step_through pace ltac:(first [apply paced_meanwhile | apply paced_work]).
Qed.

(** States between which the session counter has not gone back and a
    cleared running flag has stayed cleared. *)
Definition onward : relation Manager :=
  λ m m', (next_gameid m ≤ next_gameid m')%positive ∧
          (running m = false → running m' = false).

#[local] Instance onward_preorder : PreOrder onward.
Proof.
  split; [intros m; split; [lia|done]|].
  intros m1 m2 m3 [? ?] [? ?]. split; [lia|auto].
Qed.

Lemma paced_onward {A} (c : M A) : follows paced c → follows onward c.
Proof. intros Hc m. destruct (Hc m) as [? Hr]. split; [done|congruence]. Qed.

Lemma onward_safe_stop sched fuel : follows onward (safe_stop sched fuel).
Proof.
  unfold safe_stop.
  follow follows_bind; [apply paced_onward; step_through pace fail|]. intros _.
  follow follows_bind; [follow follows_modify; intros m; by split|].
  intros _. apply paced_onward.
  unfold close_game, kick.
  step_through pace
    ltac:(first [apply paced_meanwhile | apply paced_join | apply paced_work
                | apply paced_disconnect]).
Qed.

Lemma onward_exec (o : op) (m : Manager) : onward m (exec o m).
Proof.
  destruct o; simpl.
  - apply paced_onward, paced_connect.
  - apply paced_onward, paced_disconnect.
  - apply paced_onward, paced_join_queue.
  - apply paced_onward, paced_start_game.
  - apply paced_onward, paced_send_event.
  - apply paced_onward, paced_game_handler.
  - apply paced_onward, paced_cleanup.
  - apply onward_safe_stop.
Qed.

Lemma onward_run (ops : list op) (m : Manager) : onward m (run ops m).
Proof.
  unfold run. revert m. induction ops as [|o ops IH]; intros m; simpl.
  - reflexivity.
  - transitivity (exec o m); [apply onward_exec|apply IH].
Qed.

(** X7. A session identifier is never reused: [start_game] takes the
    value of the counter and advances it by one before anything else,
    also when it raises, and nothing that happens to the manager afterwards
    brings the counter back to a value it has had. *)
Theorem gameid_never_reused (q : string) (ops : list op) (m : Manager) :
  let m1 := snd (start_game q m) in
  next_gameid m1 = Pos.succ (next_gameid m) ∧
  (next_gameid m < next_gameid (run ops m1))%positive.
Proof.
  intros m1.
  assert (next_gameid m1 = Pos.succ (next_gameid m)) as Hnext.
  { subst m1. rewrite start_game_assemble.
    by rewrite (counter_assemble q (next_gameid m) _). }
  split; [done|].
  destruct (onward_run ops m1) as [Hle _]. lia.
Qed.

(** X8. Only [safe_stop] changes the running flag, and it clears it:
    once [safe_stop] has been called, whatever it met and whatever
    happens afterwards, the manager stays stopped, and [connect] and
    [join_queue] refuse every caller with [ServerStopping]. *)
Theorem stopped_for_good (sched : Schedule) (fuel : nat) (ops : list op)
    (m : Manager) :
  (∀ o, match o with
        | SafeStop _ _ => running (exec o m) = false
        | _ => running (exec o m) = running m
        end) ∧
  let m' := run ops (snd (safe_stop sched fuel m)) in
  running m' = false ∧
  (∀ client, connect client m' = (Raise ServerStopping, m')) ∧
  (∀ cid q, join_queue cid q m' = (Raise ServerStopping, m')).
Proof.
  assert (∀ s k, running (snd (safe_stop s k m)) = false) as Hstop.
  { intros s k. unfold safe_stop. rewrite bind_unfold. simpl log.
    cbv iota beta. rewrite bind_unfold. simpl modify. cbv iota beta.
    set (m0 := with_running false _).
    set (rest := let* m1 := get in _).
    assert (follows paced rest) as Hrest.
    { subst rest. unfold close_game, kick.
      step_through pace
        ltac:(first [apply paced_meanwhile | apply paced_join
                    | apply paced_work | apply paced_disconnect]). }
    by destruct (Hrest m0) as [_ ->]. }
  split.
  - intros o. destruct o; simpl; try apply Hstop.
    + apply paced_connect.
    + apply paced_disconnect.
    + apply paced_join_queue.
    + apply paced_start_game.
    + apply paced_send_event.
    + apply paced_game_handler.
    + apply paced_cleanup.
  - intros m'.
    assert (running m' = false) as Hoff.
    { destruct (onward_run ops (snd (safe_stop sched fuel m))) as [_ Hkeep].
      apply Hkeep, Hstop. }
    split; [done|]. split.
    + intros client. unfold connect. simpl. by rewrite Hoff.
    + intros cid q. unfold join_queue. simpl. by rewrite Hoff.
Qed.

End Lifecycle.

(** * Shutdown *)

Section Shutdown.

Context {api : GameAPI} {settings : Settings} {os : Entropy}.

#[local] Existing Instance same_players_preorder.

(** ** What can still happen once the manager has stopped *)

(** In a stopped manager nobody registers, no session starts, a finished
    worker stays finished, and the log only grows. *)
Definition winding : relation Manager :=
  λ m m', running m = false →
    running m' = false ∧
    (∀ pid, is_Some (players m' !! pid) → is_Some (players m !! pid)) ∧
    (∀ gid s', games m' !! gid = Some s' →
       ∃ s, games m !! gid = Some s ∧
            (finished (thread s) = true → finished (thread s') = true)) ∧
    (∀ r, r ∈ logged m → r ∈ logged m').

#[local] Instance winding_preorder : PreOrder winding.
Proof.
  split.
  - intros m Hrun. split; [done|]. split; [done|]. split; [eauto|done].
  - intros m1 m2 m3 H12 H23 Hrun.
    destruct (H12 Hrun) as (Hrun2 & Hp12 & Hg12 & Hl12).
    destruct (H23 Hrun2) as (Hrun3 & Hp23 & Hg23 & Hl23).
    split; [done|]. split; [auto|]. split; [|auto].
    intros gid s3 Hs3. destruct (Hg23 gid s3 Hs3) as (s2 & Hs2 & Hf23).
    destruct (Hg12 gid s2 Hs2) as (s1 & Hs1 & Hf12). eauto.
Qed.

Ltac wind :=
  intros ?; simpl;
  split; [done|]; split;
  [ try done; intros ?; rewrite ?lookup_alter_is_Some; try done;
    intros [? ?]%lookup_delete_is_Some; done
  | split;
    [ try (intros ? ? ?; eauto; fail);
      intros ? ? [? ?]%lookup_delete_Some; eauto
    | intros ? ?; rewrite ?elem_of_app; auto ] ].

Lemma winding_on_game {A} gid (method : Game → result A * Game) :
  follows winding (on_game gid method).
Proof.
  intros m Hrun. unfold on_game. simpl.
  destruct (games m !! gid) as [s|] eqn:Hs; simpl.
  - destruct (method (game s)) as [[a|e] g']; simpl;
      (split; [done|]; split; [done|]; split; [|done]);
      intros gid' s';
      (destruct (decide (gid = gid')) as [<-|Hne];
       [rewrite lookup_insert_eq; intros [= <-]; eauto
       |rewrite lookup_insert_ne by done; eauto]).
  - split; [done|]. split; [done|]. split; [eauto|done].
Qed.

Lemma winding_queue_remove q cid : follows winding (queue_remove q cid).
Proof. unfold queue_remove. step_through wind fail. Qed.

Lemma winding_update_player cid f : follows winding (update_player cid f).
Proof. unfold update_player. step_through wind fail. Qed.

Lemma winding_disconnect cid : follows winding (disconnect cid).
Proof.
  unfold disconnect.
  step_through wind
    ltac:(first [apply winding_queue_remove | apply winding_on_game
                | apply winding_update_player]).
Qed.

Lemma winding_connect client : follows winding (connect client).
Proof.
  intros m Hrun. unfold connect. simpl. rewrite Hrun. simpl.
  split; [done|]. split; [done|]. split; [eauto|done].
Qed.

Lemma winding_join_queue cid q : follows winding (join_queue cid q).
Proof.
  intros m Hrun. unfold join_queue. simpl. rewrite Hrun. simpl.
  split; [done|]. split; [done|]. split; [eauto|done].
Qed.

Lemma winding_send_event cid event args :
  follows winding (send_event cid event args).
Proof.
  unfold send_event. step_through wind ltac:(apply winding_on_game).
Qed.

Lemma winding_cleanup gid ps : follows winding (cleanup gid ps).
Proof.
  unfold cleanup.
  step_through wind
    ltac:(first [apply winding_update_player | apply winding_disconnect]).
Qed.

Lemma winding_game_handler fuel gid ps :
  follows winding (game_handler fuel gid ps).
Proof.
  unfold game_handler. follow follows_try_finally; [|apply winding_cleanup].
  follow follows_try_except.
  - induction fuel as [|fuel IH]; simpl; [intros m; reflexivity|].
    follow follows_bind.
    + unfold loop_pass, notify.
      step_through wind ltac:(apply winding_on_game).
    + intros [|]; [done|follow follows_ret].
  - intros e. unfold report_fault, notify. step_through wind fail.
Qed.

Lemma winding_work fuel gid : follows winding (work fuel gid).
Proof.
  intros m Hrun. unfold work. simpl.
  destruct (games m !! gid) as [s|] eqn:Hs; [|by apply winding_preorder].
  destruct (finished (thread s)); [by apply winding_preorder|].
  destruct (winding_game_handler fuel gid (roster (thread s)) m Hrun)
    as (Hrun1 & Hp1 & Hg1 & Hl1).
  destruct (game_handler fuel gid (roster (thread s)) m) as [[[]|e|] m1];
    simpl in *; [| |done];
    (split; [done|]; split; [done|]; split; [|done];
     intros gid' s'; destruct (decide (gid = gid')) as [<-|Hne];
     [ rewrite lookup_alter_eq;
       destruct (games m1 !! gid) as [s1|] eqn:Hs1; simpl; [|done];
       intros [= <-]; destruct (Hg1 gid s1 Hs1) as (s0 & Hs0 & _); eauto
     | rewrite lookup_alter_ne by done; apply Hg1 ]).
Qed.

Lemma winding_perform (c : activity) (m : Manager) : winding m (perform c m).
Proof.
  destruct c; simpl.
  - apply winding_connect.
  - apply winding_disconnect.
  - apply winding_join_queue.
  - apply winding_send_event.
  - apply winding_work.
Qed.

Lemma winding_meanwhile steps (m : Manager) : winding m (meanwhile steps m).
Proof.
  unfold meanwhile. revert m.
  induction steps as [|c steps IH]; intros m; simpl; [reflexivity|].
  transitivity (perform c m); [apply winding_perform|apply IH].
Qed.

(** In a stopped manager the worker of a session ends at its next test:
    afterwards the session has left the table or its thread is finished. *)
Lemma work_finishes fuel gid (m : Manager) :
  running m = false →
  ∃ m', work (S fuel) gid m = (Ok tt, m') ∧
        ∀ s', games m' !! gid = Some s' → finished (thread s') = true.
Proof.
  intros Hrun. unfold work. simpl.
  destruct (games m !! gid) as [s|] eqn:Hs.
  2: { exists m. split; [done|]. intros s'. by rewrite Hs. }
  destruct (finished (thread s)) eqn:Hfin.
  { exists m. split; [done|]. intros s'. rewrite Hs. by intros [= <-]. }
  rewrite game_handler_stopped by done.
  destruct (calm_cleanup gid (roster (thread s)) m) as [Hd _].
  destruct (cleanup gid (roster (thread s)) m) as [[[]|e|] m1]; simpl in *;
    [| |done];
    (eexists; split; [reflexivity|]; simpl; intros s';
     rewrite lookup_alter_eq; destruct (games m1 !! gid); simpl; [|done];
     by intros [= <-]).
Qed.

(** The wait for a session in a stopped manager returns or raises. *)
Lemma join_finishes during fuel gid (m : Manager) :
  running m = false →
  ∃ r m', join during (S fuel) gid m = (r, m') ∧ r ≠ Diverge ∧
          winding m m' ∧
          ∀ s', games m' !! gid = Some s' → finished (thread s') = true.
Proof.
  intros Hrun. unfold join. simpl.
  destruct (games m !! gid) as [s|] eqn:Hs.
  2: { exists (Raise KeyError), m. split; [done|]. split; [done|].
       split; [reflexivity|]. intros s'. by rewrite Hs. }
  destruct (finished (thread s)) eqn:Hfin.
  { exists (Ok tt), m. split; [done|]. split; [done|].
    split; [reflexivity|]. intros s'. rewrite Hs. by intros [= <-]. }
  pose proof (winding_meanwhile during m) as Hmean.
  destruct (Hmean Hrun) as (Hrun1 & _).
  destruct (work_finishes fuel gid (meanwhile during m) Hrun1)
    as (m' & Hwork & Hfinished).
  pose proof (winding_work (S fuel) gid (meanwhile during m)) as Hw.
  rewrite Hwork in *. simpl in Hw.
  exists (Ok tt), m'. split; [done|]. split; [done|].
  split; [by etrans|done].
Qed.

(** A disconnection that returns in a stopped manager has removed the
    player. *)
Lemma disconnect_stopped pid (m m' : Manager) :
  running m = false → disconnect pid m = (Ok tt, m') →
  players m' !! pid = None.
Proof.
  intros Hrun. unfold disconnect. rewrite bind_unfold. simpl get.
  cbv iota beta. destruct (players m !! pid) as [p|]; [|done].
  rewrite bind_unfold.
  set (leave := match queue p with Some q => _ | None => _ end).
  assert (calm leave ∧ follows same_players leave) as [Hcalm Hsame].
  { subst leave. destruct (queue p).
    - split.
      + apply calm_bind; [apply calm_log|]. intros _. apply calm_queue_remove.
      + follow follows_bind; [apply framed_log|].
        intros _. apply framed_queue_remove.
    - split; [apply calm_ret|follow follows_ret]. }
  destruct (Hcalm m) as [_ Hrun0]. specialize (Hsame m).
  destruct (leave m) as [[[]|e|] m0]; simpl in *; [|done..].
  rewrite Hrun0, Hrun. simpl.
  destruct (gameid p); simpl; intros [= <-]; simpl; apply lookup_delete_eq.
Qed.

(** ** The shutdown sequence, step by step

    [safe_stop] as its docstring and the comments of its loops describe
    it: the running flag is cleared; every session of the table is waited
    for, unless it has left the table by then; every registered player is
    disconnected, unless it has left the registry by then; an exception
    of a wait or of a disconnection is logged, and the sequence goes on. *)

Definition wait_for (sched : Schedule) (fuel : nat) (m : Manager)
    (gid : positive) : Manager :=
  if bool_decide (is_Some (games m !! gid)) then
    match join (during_wait sched gid) fuel gid
            (meanwhile (ahead_of_wait sched gid) m) with
    | (Raise _, m') => with_logged (λ l, l ++ [LogClosingFailed gid]) m'
    | (_, m') => m'
    end
  else m.

Definition force_out (sched : Schedule) (m : Manager) (pid : Z) : Manager :=
  if bool_decide (is_Some (players m !! pid)) then
    match disconnect pid (meanwhile (ahead_of_kick sched pid) m) with
    | (Raise _, m') => with_logged (λ l, l ++ [LogKickingFailed pid]) m'
    | (_, m') => m'
    end
  else m.

Definition shutdown (sched : Schedule) (fuel : nat) (m : Manager) : Manager :=
  let m0 := with_running false (with_logged (λ l, l ++ [LogStopping]) m) in
  let m1 := foldl (wait_for sched fuel) m0 (keys (games m0)) in
  let m2 := foldl (force_out sched) m1 (keys (players m1)) in
  with_logged (λ l, l ++ [LogAllTerminated]) m2.

Lemma for_each_total {A} (xs : list A) (body : A → M unit)
    (step : Manager → A → Manager) (P : Manager → Prop) (m : Manager) :
  P m →
  (∀ x m0, P m0 → body x m0 = (Ok tt, step m0 x) ∧ P (step m0 x)) →
  for_each xs body m = (Ok tt, foldl step m xs) ∧ P (foldl step m xs).
Proof.
  intros Hm Hstep. revert m Hm.
  induction xs as [|x xs IH]; intros m Hm; simpl; [done|].
  destruct (Hstep x m Hm) as [-> Hnext]. by apply IH.
Qed.

Lemma foldl_inv {A} (I : list A → Manager → Prop)
    (step : Manager → A → Manager) (xs : list A) (m : Manager) :
  I xs m →
  (∀ x rest m0, I (x :: rest) m0 → I rest (step m0 x)) →
  I [] (foldl step m xs).
Proof.
  intros Hm Hstep. revert m Hm.
  induction xs as [|x xs IH]; intros m Hm; simpl; [done|].
  apply IH. by apply Hstep.
Qed.

(** One wait of the sequence. *)
Lemma wait_for_step sched fuel gid (m : Manager) :
  running m = false →
  (let* m' := get in
   when (bool_decide (is_Some (games m' !! gid)))
     (modify (meanwhile (ahead_of_wait sched gid)) >>
      close_game (during_wait sched gid) (S fuel) gid)) m
    = (Ok tt, wait_for sched (S fuel) m gid) ∧
  winding m (wait_for sched (S fuel) m gid) ∧
  ∀ s', games (wait_for sched (S fuel) m gid) !! gid = Some s' →
        finished (thread s') = true.
Proof.
  intros Hrun. unfold wait_for. simpl.
  case_bool_decide as Hin; simpl.
  2: { split; [done|]. split; [reflexivity|]. intros s' Hs'.
       exfalso. apply Hin. eauto. }
  pose proof (winding_meanwhile (ahead_of_wait sched gid) m) as Hahead.
  destruct (Hahead Hrun) as (Hrun1 & _).
  destruct (join_finishes (during_wait sched gid) fuel gid _ Hrun1)
    as (r & m' & Hjoin & Hr & Hwind & Hfin).
  unfold close_game, try_except. rewrite Hjoin.
  destruct r as [[]|e|]; [| |done]; simpl.
  - split; [done|]. split; [by etrans|done].
  - split; [done|]. split; [|done].
    etrans; [exact Hahead|]. etrans; [exact Hwind|].
    intros Hrun'. simpl. split; [done|]. split; [done|].
    split; [eauto|]. intros r Hr'. apply elem_of_app. by left.
Qed.

(** One forced disconnection of the sequence. *)
Lemma force_out_step sched pid (m : Manager) :
  running m = false →
  (let* m' := get in
   when (bool_decide (is_Some (players m' !! pid)))
     (modify (meanwhile (ahead_of_kick sched pid)) >> kick pid)) m
    = (Ok tt, force_out sched m pid) ∧
  winding m (force_out sched m pid) ∧
  (is_Some (players (force_out sched m pid) !! pid) →
   LogKickingFailed pid ∈ logged (force_out sched m pid)).
Proof.
  intros Hrun. unfold force_out. simpl.
  case_bool_decide as Hin; simpl.
  2: { split; [done|]. split; [reflexivity|done]. }
  pose proof (winding_meanwhile (ahead_of_kick sched pid) m) as Hahead.
  destruct (Hahead Hrun) as (Hrun1 & _).
  set (m1 := meanwhile (ahead_of_kick sched pid) m) in *.
  destruct (calm_disconnect pid m1) as [Hd _].
  pose proof (winding_disconnect pid m1) as Hwind.
  pose proof (disconnect_stopped pid m1) as Hgone.
  unfold kick, try_except.
  destruct (disconnect pid m1) as [[[]|e|] m']; [| |done]; simpl in *.
  - split; [done|]. split; [by etrans|].
    rewrite (Hgone m') by done. by intros [? ?].
  - split; [done|]. split.
    + etrans; [exact Hahead|]. etrans; [exact Hwind|].
      intros Hrun'. simpl. split; [done|]. split; [done|].
      split; [eauto|]. intros r Hr'. apply elem_of_app. by left.
    + intros _. apply elem_of_app. right. apply list_elem_of_here.
Qed.

(** [safe_stop] goes through the whole sequence and returns. *)
Lemma safe_stop_shutdown sched fuel (m : Manager) :
  safe_stop sched (S fuel) m = (Ok tt, shutdown sched (S fuel) m).
Proof.
  unfold safe_stop, shutdown.
  rewrite bind_unfold. simpl log. cbv iota beta.
  rewrite bind_unfold. simpl modify. cbv iota beta.
  set (m0 := with_running false _).
  rewrite bind_unfold. simpl get. cbv iota beta. rewrite bind_unfold.
  destruct (for_each_total (keys (games m0))
              (λ gid, let* m' := get in
                 when (bool_decide (is_Some (games m' !! gid)))
                   (modify (meanwhile (ahead_of_wait sched gid)) >>
                    close_game (during_wait sched gid) (S fuel) gid))
              (wait_for sched (S fuel)) (λ m', running m' = false) m0)
    as [-> Hrun1]; [done| |].
  { intros gid m' Hrun'.
    destruct (wait_for_step sched fuel gid m' Hrun') as (Heq & Hwind & _).
    split; [done|]. by destruct (Hwind Hrun'). }
  cbv iota beta. rewrite bind_unfold. simpl get. cbv iota beta.
  rewrite bind_unfold.
  set (m1 := foldl _ m0 _) in *.
  destruct (for_each_total (keys (players m1))
              (λ pid, let* m' := get in
                 when (bool_decide (is_Some (players m' !! pid)))
                   (modify (meanwhile (ahead_of_kick sched pid)) >> kick pid))
              (force_out sched) (λ m', running m' = false) m1)
    as [-> Hrun2]; [done| |].
  { intros pid m' Hrun'.
    destruct (force_out_step sched pid m' Hrun') as (Heq & Hwind & _).
    split; [done|]. by destruct (Hwind Hrun'). }
  done.
Qed.

Lemma shutdown_winding sched fuel (m : Manager) :
  let m0 := with_running false (with_logged (λ l, l ++ [LogStopping]) m) in
  let m1 := foldl (wait_for sched (S fuel)) m0 (keys (games m0)) in
  winding m0 m1 ∧ winding m1 (shutdown sched (S fuel) m).
Proof.
  intros m0 m1.
  assert (∀ gids m', winding m' (foldl (wait_for sched (S fuel)) m' gids))
    as Hwaits.
  { induction gids as [|gid gids IH]; intros m'; simpl; [reflexivity|].
    etrans; [|apply IH]. intros Hrun'.
    by destruct (wait_for_step sched fuel gid m' Hrun') as (_ & Hw & _);
      apply Hw. }
  assert (∀ pids m', winding m' (foldl (force_out sched) m' pids)) as Hkicks.
  { induction pids as [|pid pids IH]; intros m'; simpl; [reflexivity|].
    etrans; [|apply IH]. intros Hrun'.
    by destruct (force_out_step sched pid m' Hrun') as (_ & Hw & _);
      apply Hw. }
  split; [apply Hwaits|].
  unfold shutdown. fold m0. fold m1. etrans; [apply Hkicks|].
  intros Hrun'. simpl. split; [done|]. split; [done|].
  split; [eauto|]. intros r Hr. apply elem_of_app. by left.
Qed.

Lemma shutdown_stopped sched fuel (m : Manager) :
  running (shutdown sched (S fuel) m) = false.
Proof.
  destruct (shutdown_winding sched fuel m) as [H01 H12].
  destruct H01 as (Hrun1 & _); [done|]. by destruct (H12 Hrun1).
Qed.

(** After the sequence no worker is still going. *)
Lemma shutdown_finished sched fuel (m : Manager) gid s :
  games (shutdown sched (S fuel) m) !! gid = Some s →
  finished (thread s) = true.
Proof.
  set (m0 := with_running false (with_logged (λ l, l ++ [LogStopping]) m)).
  set (m1 := foldl (wait_for sched (S fuel)) m0 (keys (games m0))).
  assert (running m1 = false ∧
          ∀ gid s, games m1 !! gid = Some s → finished (thread s) = true)
    as [Hrun1 Hdone].
  { assert (running m1 = false ∧
            ∀ gid s, games m1 !! gid = Some s →
              gid ∈ [] ∨ finished (thread s) = true) as [Hr Hall].
    { apply (foldl_inv
        (λ rest m', running m' = false ∧
           ∀ gid s, games m' !! gid = Some s →
             gid ∈ rest ∨ finished (thread s) = true)).
      - split; [done|]. intros gid' s' Hs'. left. apply keys_elem. eauto.
      - intros x rest m' (Hrun' & Hall').
        destruct (wait_for_step sched fuel x m' Hrun') as (_ & Hwind & Hfin).
        destruct (Hwind Hrun') as (Hrun'' & _ & Hsessions & _).
        split; [done|]. intros gid' s'' Hs''.
        destruct (decide (gid' = x)) as [->|Hne]; [right; eauto|].
        destruct (Hsessions gid' s'' Hs'') as (s' & Hs' & Hmono).
        destruct (Hall' gid' s' Hs') as [Hin|Hfin'].
        + apply elem_of_cons in Hin as [?|?]; [done|by left].
        + right. auto. }
    split; [done|]. intros gid' s' Hs'.
    destruct (Hall gid' s' Hs') as [Hin|?]; [by apply elem_of_nil in Hin|done]. }
  intros Hs.
  destruct (shutdown_winding sched fuel m) as [_ H12].
  destruct (H12 Hrun1) as (_ & _ & Hsessions & _).
  destruct (Hsessions gid s Hs) as (s1 & Hs1 & Hmono).
  apply Hmono. eauto.
Qed.

(** After the sequence, a player who is still registered is one whose
    disconnection raised. *)
Lemma shutdown_kicked sched fuel (m : Manager) pid :
  is_Some (players (shutdown sched (S fuel) m) !! pid) →
  LogKickingFailed pid ∈ logged (shutdown sched (S fuel) m).
Proof.
  set (m0 := with_running false (with_logged (λ l, l ++ [LogStopping]) m)).
  set (m1 := foldl (wait_for sched (S fuel)) m0 (keys (games m0))).
  assert (running m1 = false) as Hrun1.
  { destruct (shutdown_winding sched fuel m) as [H01 _].
    by destruct H01. }
  unfold shutdown. fold m0. fold m1. simpl. intros Hreg.
  apply elem_of_app. left. revert Hreg.
  assert (running (foldl (force_out sched) m1 (keys (players m1))) = false ∧
          ∀ pid, is_Some (players (foldl (force_out sched) m1
                                     (keys (players m1))) !! pid) →
            pid ∈ [] ∨
            LogKickingFailed pid ∈
              logged (foldl (force_out sched) m1 (keys (players m1))))
    as [_ Hall].
  { apply (foldl_inv
      (λ rest m', running m' = false ∧
         ∀ pid, is_Some (players m' !! pid) →
           pid ∈ rest ∨ LogKickingFailed pid ∈ logged m')).
    - split; [done|]. intros pid' Hp'. left. by apply keys_elem.
    - intros x rest m' (Hrun' & Hall').
      destruct (force_out_step sched x m' Hrun') as (_ & Hwind & Hlogged).
      destruct (Hwind Hrun') as (Hrun'' & Hplayers & _ & Hlog).
      split; [done|]. intros pid' Hp''.
      destruct (decide (pid' = x)) as [->|Hne]; [right; auto|].
      destruct (Hall' pid' (Hplayers pid' Hp'')) as [Hin|Hfailed].
      + apply elem_of_cons in Hin as [?|?]; [done|by left].
      + right. auto. }
  intros Hreg. destruct (Hall pid Hreg) as [Hin|?];
    [by apply elem_of_nil in Hin|done].
Qed.

(** In a stopped, consistent manager that nobody else touches, waiting
    for a session ends it. *)
Lemma wait_for_run fuel gid s (m : Manager) :
  wf m → running m = false → games m !! gid = Some s →
  wf (wait_for quiet (S fuel) m gid) ∧
  running (wait_for quiet (S fuel) m gid) = false ∧
  games (wait_for quiet (S fuel) m gid) = delete gid (games m).
Proof.
  intros Hwf Hrun Hs.
  destruct (wf_session m Hwf gid s Hs) as (Hlive & _).
  assert (supervised_loop (S fuel) gid (roster (thread s)) m = (Ok tt, m))
    as Hloop.
  { unfold supervised_loop, try_except.
    by rewrite while_running_stopped. }
  unfold wait_for. rewrite bool_decide_eq_true_2 by eauto.
  unfold join, work. simpl. rewrite Hs. simpl. rewrite Hlive. simpl.
  rewrite Hs. simpl. rewrite Hlive.
  rewrite (game_handler_exit (S fuel) gid s m m Hwf Hs Hloop). simpl.
  assert (alter mark_finished gid (delete gid (games m)) = delete gid (games m))
    as Hgone by (apply alter_id'; apply lookup_delete_eq).
  split; [|split; [done|done]].
  by apply (wf_released gid s m).
Qed.

(** In a stopped, consistent manager without sessions that nobody else
    touches, a forced disconnection removes the player. *)
Lemma force_out_run pid p (m : Manager) :
  wf m → running m = false → games m = ∅ → players m !! pid = Some p →
  wf (force_out quiet m pid) ∧
  running (force_out quiet m pid) = false ∧
  games (force_out quiet m pid) = ∅ ∧
  players (force_out quiet m pid) = delete pid (players m).
Proof.
  intros Hwf Hrun Hnone Hp.
  assert (gameid p = None) as Hfree.
  { destruct (gameid p) as [gid|] eqn:Hg; [|done].
    destruct (wf_playing m Hwf pid p gid Hp Hg) as (s & Hs & _).
    by rewrite Hnone in Hs. }
  destruct (wf_leave_queue pid m p Hwf Hp) as (qs & Hleave & _).
  unfold force_out. rewrite bool_decide_eq_true_2 by eauto. simpl.
  rewrite (disconnect_removes pid m p qs Hp Hleave) by (by left). simpl.
  split; [|done]. by apply (wf_removed pid p qs m).
Qed.

(** From a consistent state, and when nobody else touches the manager,
    the sequence ends every session and removes every player. *)
Lemma shutdown_drains fuel (m : Manager) :
  wf m →
  games (shutdown quiet (S fuel) m) = ∅ ∧
  players (shutdown quiet (S fuel) m) = ∅ ∧
  wf (shutdown quiet (S fuel) m).
Proof.
  intros Hwf. unfold shutdown.
  set (m0 := with_running false (with_logged (λ l, l ++ [LogStopping]) m)).
  set (m1 := foldl (wait_for quiet (S fuel)) m0 (keys (games m0))).
  set (m2 := foldl (force_out quiet) m1 (keys (players m1))).
  assert (wf m1 ∧ running m1 = false ∧
          ∀ gid, is_Some (games m1 !! gid) → gid ∈ [])
    as (Hwf1 & Hrun1 & Hgames1).
  { apply (foldl_inv
      (λ rest m', wf m' ∧ running m' = false ∧
                  ∀ gid, is_Some (games m' !! gid) → gid ∈ rest)).
    - split; [by apply wf_stopping|]. split; [done|]. apply keys_elem.
    - intros gid rest m' (Hwf' & Hrun' & Hin').
      destruct (games m' !! gid) as [s|] eqn:Hs.
      + destruct (wait_for_run fuel gid s m' Hwf' Hrun' Hs)
          as (Hwf'' & Hrun'' & Hg'').
        split; [done|]. split; [done|].
        intros gid'. rewrite Hg''.
        intros [Hne Hsome]%lookup_delete_is_Some.
        specialize (Hin' gid' Hsome).
        apply elem_of_cons in Hin' as [->|?]; done.
      + unfold wait_for.
        rewrite bool_decide_eq_false_2 by (rewrite Hs; by intros [? ?]).
        split; [done|]. split; [done|].
        intros gid' Hsome. specialize (Hin' gid' Hsome).
        apply elem_of_cons in Hin' as [->|?]; [|done].
        rewrite Hs in Hsome. by destruct Hsome. }
  assert (games m1 = ∅) as Hempty.
  { apply map_empty. intros gid.
    destruct (games m1 !! gid) eqn:Hg; [|done].
    exfalso. eapply not_elem_of_nil, Hgames1. eauto. }
  assert (wf m2 ∧ running m2 = false ∧ games m2 = ∅ ∧
          ∀ pid, is_Some (players m2 !! pid) → pid ∈ [])
    as (Hwf2 & Hrun2 & Hgames2 & Hplayers2).
  { apply (foldl_inv
      (λ rest m', wf m' ∧ running m' = false ∧ games m' = ∅ ∧
                  ∀ pid, is_Some (players m' !! pid) → pid ∈ rest)).
    - split; [done|]. split; [done|]. split; [done|]. apply keys_elem.
    - intros pid rest m' (Hwf' & Hrun' & Hg' & Hin').
      destruct (players m' !! pid) as [p|] eqn:Hp.
      + destruct (force_out_run pid p m' Hwf' Hrun' Hg' Hp)
          as (Hwf'' & Hrun'' & Hg'' & Hp'').
        split; [done|]. split; [done|]. split; [done|].
        intros pid'. rewrite Hp''.
        intros [Hne Hsome]%lookup_delete_is_Some.
        specialize (Hin' pid' Hsome).
        apply elem_of_cons in Hin' as [->|?]; done.
      + unfold force_out.
        rewrite bool_decide_eq_false_2 by (rewrite Hp; by intros [? ?]).
        split; [done|]. split; [done|]. split; [done|].
        intros pid' Hsome. specialize (Hin' pid' Hsome).
        apply elem_of_cons in Hin' as [->|?]; [|done].
        rewrite Hp in Hsome. by destruct Hsome. }
  assert (players m2 = ∅) as Hnobody.
  { apply map_empty. intros pid.
    destruct (players m2 !! pid) eqn:Hg; [|done].
    exfalso. eapply not_elem_of_nil, Hplayers2. eauto. }
  simpl. split; [done|]. split; [done|].
  eapply alike_wf; [|exact Hwf2]. by split.
Qed.

(** C5 (amended). [safe_stop] always returns, with the running flag
    cleared, after it has gone through the whole sequence: it waits for
    every session of the table that is still there at its turn, then
    disconnects every registered player who is still there at its turn;
    an exception of a wait or of a disconnection is logged and the
    sequence goes on with the next session or player, whatever the other
    threads do meanwhile. Afterwards the worker of every session that is
    left in the table has finished, and every player who is left in the
    registry is one whose disconnection raised and was logged. The table
    and the registry are empty when the state was consistent and nobody
    else touched the manager meanwhile. *)
Theorem safe_stop_spec (sched : Schedule) (fuel : nat) (m : Manager) :
  let m' := shutdown sched (S fuel) m in
  safe_stop sched (S fuel) m = (Ok tt, m') ∧
  running m' = false ∧
  (∀ gid s, games m' !! gid = Some s → finished (thread s) = true) ∧
  (∀ pid, is_Some (players m' !! pid) → LogKickingFailed pid ∈ logged m') ∧
  (wf m → sched = quiet → games m' = ∅ ∧ players m' = ∅ ∧ wf m').
Proof.
  intros m'. subst m'.
  split; [apply safe_stop_shutdown|].
  split; [apply shutdown_stopped|].
  split; [apply shutdown_finished|].
  split; [apply shutdown_kicked|].
  intros Hwf ->. by apply shutdown_drains.
Qed.

(** X2. After a [safe_stop] from a consistent state a second
    [safe_stop] finds nothing to do: it returns, whatever patience it has
    with workers, and adds its two records to the log. *)
Theorem safe_stop_twice (fuel fuel' : nat) (sched : Schedule) (m : Manager) :
  wf m →
  ∃ m1,
    safe_stop quiet (S fuel) m = (Ok tt, m1) ∧
    safe_stop sched fuel' m1 =
      (Ok tt, with_logged (λ l, l ++ [LogStopping; LogAllTerminated]) m1).
Proof.
  intros Hwf.
  destruct (shutdown_drains fuel m Hwf) as (Hgs & Hps & _).
  pose proof (shutdown_stopped quiet fuel m) as Hrun.
  exists (shutdown quiet (S fuel) m). split; [apply safe_stop_shutdown|].
  generalize dependent (shutdown quiet (S fuel) m). intros m1 Hgs Hps Hrun.
  unfold safe_stop, keys. simpl. rewrite Hgs, map_to_list_empty. simpl.
  rewrite Hps, map_to_list_empty. simpl.
  f_equal. apply manager_eq; simpl; try done.
  by rewrite <- app_assoc.
Qed.

End Shutdown.

(** * Sessions at work *)

Section Sessions.

Context {api : GameAPI} {settings : Settings} {os : Entropy}.

(** ** One pass of the loop *)

(** X9. A pass of a session's loop in which [main] returns a status
    sends that status, when something happened, to the participants whose
    [alive] flag is set, in roster order, and to nobody when nothing
    happened; it leaves the loop exactly when the game, as [main] left it,
    is over. Players, queues and the other sessions are untouched. *)
Theorem tick_broadcast gid s (m : Manager) st g' :
  wf m → running m = true → GAME_TICKS_PER_SECOND ≠ 0 →
  games m !! gid = Some s →
  game_main (game s) = (Returns st, g') →
  ∃ m',
    loop_pass gid (roster (thread s)) m =
      (Ok (if game_gameover g' then Break else Next), m') ∧
    outbox m' =
      outbox m ++
      (if didsmthhappen st
       then mail (players m) (roster (thread s)) (StatusUpdate st)
       else []) ∧
    games m' = <[gid := mkSession g' (thread s)]> (games m) ∧
    players m' = players m ∧ queues m' = queues m ∧
    running m' = true ∧ next_gameid m' = next_gameid m.
Proof.
  intros Hwf Hrun Hrate Hs Hmain.
  destruct (wf_roster gid s m Hwf Hs) as [_ Hmem].
  unfold loop_pass. rewrite bind_unfold. simpl get. cbv iota beta.
  rewrite Hrun. cbn [negb]. rewrite bind_unfold.
  rewrite bool_decide_eq_false_2 by done. simpl raise_if. cbv iota beta.
  rewrite bind_unfold. unfold on_game at 1. rewrite bind_unfold.
  simpl get. cbv iota beta. rewrite Hs, Hmain. simpl.
  set (m1 := with_games _ m).
  assert (∀ x, x ∈ roster (thread s) → is_Some (players m1 !! x)) as Hreg.
  { intros x Hx. destruct (Hmem x Hx) as (p & Hp & _). simpl. eauto. }
  destruct (didsmthhappen st) eqn:Hdid; simpl.
  - rewrite (notify_run _ _ _) by done. simpl.
    unfold game_at. simpl. rewrite lookup_insert_eq. simpl.
    destruct (game_gameover g'); [destruct (winner st)|]; simpl;
      eexists; (split; [reflexivity|]); simpl; done.
  - unfold game_at. simpl. rewrite lookup_insert_eq. simpl.
    destruct (game_gameover g'); [destruct (winner st)|]; simpl;
      eexists; (split; [reflexivity|]); simpl; by rewrite ?app_nil_r.
Qed.

(** X10. With a tick rate of zero the division of the timer's interval
    raises in the first pass of every session, before [main] is called:
    the worker reports [ZeroDivisionError] to the participants whose
    [alive] flag is set and ends the session. *)
Theorem zero_tick_rate fuel gid s (m : Manager) :
  wf m → running m = true → GAME_TICKS_PER_SECOND = 0 →
  games m !! gid = Some s →
  let ps := roster (thread s) in
  ∃ m',
    game_handler (S fuel) gid ps m = (Ok tt, m') ∧
    outbox m' = outbox m ++ mail (players m) ps (ErrorNotice ZeroDivisionError) ∧
    logged m' =
      logged m ++
      LogException ZeroDivisionError :: LogGameOver gid ::
      dismissals (players m) ps ∧
    games m' = delete gid (games m) ∧
    players m' = release_all ps (players m).
Proof.
  intros Hwf Hrun Hrate Hs ps.
  destruct (wf_roster gid s m Hwf Hs) as [_ Hmem]. fold ps in Hmem.
  assert (while_running (S fuel) gid ps m = (Raise ZeroDivisionError, m))
    as Hloop.
  { simpl. unfold loop_pass. simpl. rewrite Hrun. simpl.
    by rewrite bool_decide_eq_true_2. }
  assert (supervised_loop (S fuel) gid ps m =
            (Ok tt,
             with_outbox (λ l, l ++ mail (players m) ps
                                      (ErrorNotice ZeroDivisionError))
               (with_logged (λ l, l ++ [LogException ZeroDivisionError]) m)))
    as Hsup.
  { unfold supervised_loop, try_except. rewrite Hloop.
    unfold report_fault. rewrite bind_unfold. simpl log. cbv iota beta.
    rewrite notify_run; [done|].
    intros x Hx. destruct (Hmem x Hx) as (p & Hp & _). simpl. eauto. }
  pose proof (game_handler_exit (S fuel) gid s m _ Hwf Hs Hsup) as Hexit.
  simpl in Hexit. fold ps in Hexit. rewrite Hexit.
  eexists. split; [reflexivity|]. simpl.
  split; [done|]. split; [by rewrite <- app_assoc|done].
Qed.

(** ** Whom the worker writes to *)

Lemma recipients_elem pl ps x p :
  x ∈ ps → pl !! x = Some p → alive p = true → socket p ∈ recipients pl ps.
Proof.
  intros Hx Hp Ha. unfold recipients. apply list_elem_of_omap.
  exists x. split; [done|]. unfold addressee. by rewrite Hp, Ha.
Qed.

(** States with the same players, the second with more messages, all of
    them to participants of [ps] whose [alive] flag is set. *)
Definition hails (ps : list Z) : relation Manager :=
  λ m m', players m' = players m ∧
          ∃ extra, outbox m' = outbox m ++ extra ∧
                   Forall (λ cm, cm.1 ∈ recipients (players m) ps) extra.

#[local] Instance hails_preorder ps : PreOrder (hails ps).
Proof.
  split.
  - intros m. split; [done|]. exists []. by rewrite app_nil_r.
  - intros m1 m2 m3 [Hp1 (e1 & Ho1 & He1)] [Hp2 (e2 & Ho2 & He2)].
    split; [congruence|]. exists (e1 ++ e2).
    split; [by rewrite Ho2, Ho1, app_assoc|].
    apply Forall_app. split; [done|]. by rewrite <- Hp1.
Qed.

Ltac hush := split; simpl; [done|exists []; by rewrite app_nil_r].

Lemma hails_notify ps' ps msg :
  ps' ⊆ ps → follows (hails ps) (notify ps' msg).
Proof.
  intros Hsub. unfold notify. induction ps' as [|x ps' IH]; simpl;
    [follow follows_ret|].
  follow follows_bind.
  - intros m. unfold player_at. simpl.
    destruct (players m !! x) as [p|] eqn:Hp; simpl; [|reflexivity].
    destruct (alive p) eqn:Ha; simpl; [|reflexivity].
    split; [done|]. exists [(socket p, msg)]. split; [done|].
    apply Forall_singleton. simpl. apply (recipients_elem _ _ x); [|done..].
    apply Hsub, list_elem_of_here.
  - intros _. apply IH. intros y Hy. apply Hsub. by apply list_elem_of_further.
Qed.

Lemma hails_on_game {A} ps gid (method : Game → result A * Game) :
  follows (hails ps) (on_game gid method).
Proof. unfold on_game. step_through hush fail. Qed.

Lemma hails_supervised_loop fuel gid ps :
  follows (hails ps) (supervised_loop fuel gid ps).
Proof.
  unfold supervised_loop. follow follows_try_except.
  - induction fuel as [|fuel IH]; simpl; [intros m; reflexivity|].
    follow follows_bind.
    + unfold loop_pass.
      step_through hush
        ltac:(first [apply hails_on_game | by apply hails_notify]).
    + intros [|]; [done|follow follows_ret].
  - intros e. unfold report_fault.
    step_through hush ltac:(by apply hails_notify).
Qed.

(** States with the same messages. *)
Definition mute : relation Manager := λ m m', outbox m' = outbox m.

#[local] Instance mute_preorder : PreOrder mute.
Proof.
  split; [intros m; reflexivity|].
  unfold mute. intros m1 m2 m3. congruence.
Qed.

Lemma mute_disconnect cid : follows mute (disconnect cid).
Proof.
  unfold disconnect, queue_remove, on_game, update_player.
  step_through ltac:(done) fail.
Qed.

Lemma mute_cleanup gid ps : follows mute (cleanup gid ps).
Proof.
  unfold cleanup, update_player.
  step_through ltac:(done) ltac:(apply mute_disconnect).
Qed.

(** X11. Whatever a session's worker does, for as long as it goes, every
    message it sends is for a participant of its roster whose [alive] flag
    was set when the worker went on: it writes neither to a participant
    who has disconnected nor to a player outside its session. *)
Theorem worker_mail fuel gid ps (m : Manager) :
  ∃ extra,
    outbox (snd (game_handler fuel gid ps m)) = outbox m ++ extra ∧
    ∀ c msg, (c, msg) ∈ extra →
      ∃ pid p, pid ∈ ps ∧ players m !! pid = Some p ∧
               alive p = true ∧ socket p = c.
Proof.
  destruct (hails_supervised_loop fuel gid ps m) as [_ (extra & Hout & Hall)].
  exists extra. split.
  - unfold game_handler, try_finally.
    change (try_except (while_running fuel gid ps) (report_fault ps))
      with (supervised_loop fuel gid ps).
    destruct (supervised_loop fuel gid ps m) as [[[]|e|] m1]; simpl in *;
      [| |done];
      pose proof (mute_cleanup gid ps m1) as Hmute; unfold mute in Hmute;
      destruct (cleanup gid ps m1) as [[[]|e'|] m2]; simpl in *; congruence.
  - intros c msg Hin. rewrite Forall_forall in Hall.
    specialize (Hall _ Hin). simpl in Hall.
    apply list_elem_of_omap in Hall as (pid & Hpid & Haddr).
    unfold addressee in Haddr.
    destruct (players m !! pid) as [p|] eqn:Hp; [|done].
    destruct (alive p) eqn:Ha; [|done].
    injection Haddr as <-. by exists pid, p.
Qed.

(** ** Disconnections during a session *)

(** X12. A player who disconnects during its game cannot register again
    while the session lasts: its entry is kept, so [connect] with its
    identity raises [AlreadyRegistered]. *)
Theorem no_reconnect_in_session (client : Client) p (m : Manager) :
  running m = true →
  players m !! client_id client = Some p → is_Some (gameid p) →
  let m1 := snd (disconnect (client_id client) m) in
  connect client m1 = (Raise AlreadyRegistered, m1).
Proof.
  intros Hrun Hp [gid Hg] m1.
  assert (running m1 = true ∧ is_Some (players m1 !! client_id client))
    as [Hrun1 Hp1].
  { subst m1. unfold disconnect. rewrite bind_unfold. simpl get.
    cbv iota beta. rewrite Hp, Hg. rewrite bind_unfold.
    set (leave := match queue p with Some q => _ | None => _ end).
    assert (follows (λ a b, players b = players a ∧ running b = running a)
              leave) as Hleave.
    { assert (PreOrder (λ a b : Manager,
                players b = players a ∧ running b = running a)) as Hpre.
      { split; [by intros a|]. intros a b c [? ?] [? ?]. split; congruence. }
      subst leave. unfold queue_remove.
      step_through ltac:(by split) fail. }
    destruct (Hleave m) as [Hsame Hsamerun].
    destruct (leave m) as [[[]|e|] m0]; simpl in *;
      [|by rewrite Hsame, Hsamerun, Hp|by rewrite Hsame, Hsamerun, Hp].
    rewrite Hsamerun, Hrun. simpl.
    unfold on_game. simpl.
    destruct (games m0 !! gid) as [s|]; simpl;
      [|by rewrite Hsame, Hsamerun, Hp].
    destruct (game_kill (client_id client) (game s)) as [[[]|e] g']; simpl;
      rewrite ?lookup_alter_eq, Hsame, Hsamerun, Hp; by eauto. }
  unfold connect. simpl. rewrite Hrun1. simpl.
  by rewrite bool_decide_eq_true_2.
Qed.

(** The loop of the [finally] block when it meets a participant who is
    no longer registered. *)
Lemma release_stumbles x pre post (m : Manager) :
  NoDup pre → players m !! x = None →
  (∀ y, y ∈ pre → ∃ p, players m !! y = Some p ∧ queue p = None) →
  ∃ m', for_each (pre ++ x :: post) release_body m = (Raise KeyError, m') ∧
        games m' = games m ∧ running m' = running m ∧
        players m' !! x = None.
Proof.
  revert m. induction pre as [|y pre IH]; intros m Hnd Hx Hreg.
  - simpl. unfold release_body, player_at. simpl. rewrite Hx. simpl. eauto.
  - destruct (Hreg y) as (p & Hp & Hq); [apply list_elem_of_here|].
    apply NoDup_cons in Hnd as [Hy Hnd].
    assert (y ≠ x) as Hne by (intros ->; congruence).
    cbn [app for_each]. rewrite bind_unfold.
    rewrite (release_body_run y p m Hp Hq).
    destruct (IH (with_logged (λ l, l ++ dismissed (players m) y)
                    (with_players (λ pl, release pl y) m)))
      as (m' & Hrun & Hgames & Hflag & Hgone).
    + done.
    + simpl. by rewrite release_lookup_ne.
    + intros z Hz. simpl.
      rewrite release_lookup_ne by (intros ->; done).
      apply Hreg. by apply list_elem_of_further.
    + exists m'. by rewrite Hrun.
Qed.

(** X13. A participant who disconnects while the manager is stopping is
    deleted at once, although its session is still there; the cleanup of
    that session then raises [KeyError] at this participant, and the
    session stays in the table. *)
Theorem stopping_disconnect_strands_session gid s x (m : Manager) :
  wf m → running m = false →
  games m !! gid = Some s → x ∈ roster (thread s) →
  ∃ m1,
    disconnect x m = (Ok tt, m1) ∧
    players m1 !! x = None ∧ games m1 = games m ∧
    ∀ fuel, ∃ m2,
      game_handler (S fuel) gid (roster (thread s)) m1 = (Raise KeyError, m2) ∧
      is_Some (games m2 !! gid).
Proof.
  intros Hwf Hrun Hs Hx.
  destruct (wf_roster gid s m Hwf Hs) as [Hnd Hmem].
  destruct (Hmem x Hx) as (p & Hp & Hq & Hg).
  assert (leave_queue x p (queues m) = Some (queues m)) as Hleave
    by (unfold leave_queue; by rewrite Hq).
  rewrite (disconnect_removes x m p (queues m) Hp Hleave) by (by right).
  eexists. split; [reflexivity|]. simpl.
  split; [apply lookup_delete_eq|]. split; [done|].
  intros fuel. rewrite game_handler_stopped by done.
  apply list_elem_of_split in Hx as (pre & post & Hsplit).
  rewrite Hsplit in Hnd, Hmem |- *.
  apply NoDup_app in Hnd as (Hpre & Hfresh & _).
  unfold cleanup. rewrite bind_unfold. simpl log. cbv iota beta.
  rewrite bind_unfold.
  change (for_each (pre ++ x :: post) _)
    with (for_each (pre ++ x :: post) release_body).
  edestruct (release_stumbles x pre post) as (m2 & -> & Hgames & _);
    [exact Hpre| |..|].
  - simpl. apply lookup_delete_eq.
  - intros y Hy. simpl.
    assert (y ≠ x) as Hne.
    { intros ->. apply (Hfresh x Hy), list_elem_of_here. }
    rewrite lookup_delete_ne by done.
    destruct (Hmem y) as (py & Hpy & Hqy & _); [|eauto].
    apply elem_of_app. by left.
  - exists m2. split; [done|]. rewrite Hgames. simpl. by rewrite Hs.
Qed.

End Sessions.

(** * Tokens and registrations *)

Section Registrations.

Context {api : GameAPI} {settings : Settings} {os : Entropy}.

Definition hex_digits : list ascii :=
  String.list_ascii_of_string "0123456789abcdef".

Lemma hexdigit_hex (n : N) : hexdigit n ∈ hex_digits.
Proof.
  destruct n as [|k]; [|do 4 (try destruct k as [k|k|])];
    apply (bool_decide_unpack _); vm_compute; exact I.
Qed.

Lemma hexlify_hex (bs : list byte) (c : ascii) :
  c ∈ String.list_ascii_of_string (hexlify bs) → c ∈ hex_digits.
Proof.
  induction bs as [|b bs IH]; simpl.
  - intros Hc. by apply elem_of_nil in Hc.
  - rewrite !elem_of_cons. intros [->|[->|Hc]]; [apply hexdigit_hex..|auto].
Qed.

(** X14. The token that [connect] returns is written with the digits
    [0-9] and the lower-case letters [a-f] only. *)
Theorem connect_token_hex (client : Client) (m m' : Manager) (tok : string) :
  connect client m = (Ok tok, m') →
  Forall (λ c, c ∈ hex_digits) (String.list_ascii_of_string tok).
Proof.
  unfold connect, urandom. simpl.
  destruct (negb (running m)); simpl; [done|].
  case_bool_decide; simpl; [done|].
  destruct (token_bytes <? 0); simpl; [done|].
  intros [= <- _]. apply Forall_forall. intros c. apply hexlify_hex.
Qed.

(** X15. A registration followed at once by the disconnection of the
    same client gives back the players, queues and sessions there were:
    only the log and the entropy that was read tell of it. *)
Theorem connect_then_disconnect (client : Client) (m m1 : Manager) tok :
  connect client m = (Ok tok, m1) →
  ∃ m2,
    disconnect (client_id client) m1 = (Ok tt, m2) ∧
    players m2 = players m ∧ queues m2 = queues m ∧ games m2 = games m ∧
    running m2 = running m ∧ next_gameid m2 = next_gameid m ∧
    outbox m2 = outbox m ∧
    logged m2 = logged m ++ [LogRemoved (client_id client)].
Proof.
  unfold connect, urandom. simpl.
  destruct (negb (running m)); simpl; [done|].
  case_bool_decide as Hnew; simpl; [done|].
  destruct (token_bytes <? 0); simpl; [done|].
  intros [= _ <-]. unfold disconnect. simpl.
  rewrite lookup_insert_eq. simpl.
  eexists. split; [reflexivity|]. simpl.
  split; [|done]. apply delete_insert_id.
  destruct (players m !! client_id client) eqn:Hp; [|done].
  exfalso. apply Hnew. eauto.
Qed.

End Registrations.

(** * Players who have disconnected *)

Section Departed.

Context {api : GameAPI} {settings : Settings} {os : Entropy}.

#[local] Existing Instance upholds_preorder.
#[local] Existing Instance same_players_preorder.

(** No player has both a queue and a game, and a player whose [alive]
    flag is cleared has a game. *)
Definition orderly (m : Manager) : Prop :=
  ∀ cid p, players m !! cid = Some p →
    (queue p = None ∨ gameid p = None) ∧
    (alive p = false → is_Some (gameid p)).

Lemma same_players_orderly {A} (c : M A) :
  follows same_players c → follows (upholds orderly) c.
Proof. intros Hc m Hm cid p. rewrite (Hc m). apply Hm. Qed.

Lemma orderly_alter cid (f : Player → Player) (m m' : Manager) :
  orderly m → players m' = alter f cid (players m) →
  (∀ p, players m !! cid = Some p →
     (queue (f p) = None ∨ gameid (f p) = None) ∧
     (alive (f p) = false → is_Some (gameid (f p)))) →
  orderly m'.
Proof.
  intros Hm Hp Hf x p. rewrite Hp.
  destruct (decide (cid = x)) as [<-|Hne].
  - rewrite lookup_alter_eq.
    destruct (players m !! cid) as [p0|] eqn:Hp0; simpl; [|done].
    intros [= <-]. by apply Hf.
  - rewrite lookup_alter_ne by done. apply Hm.
Qed.

Lemma orderly_delete cid (m m' : Manager) :
  orderly m → players m' = delete cid (players m) → orderly m'.
Proof.
  intros Hm Hp x p. rewrite Hp.
  intros [_ Hx]%lookup_delete_Some. by apply (Hm x).
Qed.

Lemma orderly_connect client : follows (upholds orderly) (connect client).
Proof.
  intros m Hm. unfold connect. simpl.
  destruct (running m); simpl; [|done].
  case_bool_decide; simpl; [done|].
  unfold urandom. destruct (token_bytes <? 0); simpl; [done|].
  intros x p. simpl. destruct (decide (client_id client = x)) as [<-|Hne].
  - rewrite lookup_insert_eq. intros [= <-]. simpl. split; [by left|done].
  - rewrite lookup_insert_ne by done. apply Hm.
Qed.

Lemma orderly_disconnect cid : follows (upholds orderly) (disconnect cid).
Proof.
  intros m Hm. unfold disconnect. rewrite bind_unfold. simpl get.
  cbv iota beta.
  destruct (players m !! cid) as [p|] eqn:Hp; [|done].
  rewrite bind_unfold.
  set (leave := match queue p with Some q => _ | None => _ end).
  assert (follows same_players leave) as Hleave.
  { subst leave. destruct (queue p); [|follow follows_ret].
    follow follows_bind; [apply framed_log|].
    intros _. apply framed_queue_remove. }
  specialize (Hleave m). unfold same_players in Hleave.
  destruct (leave m) as [[[]|e|] m0]; simpl in Hleave;
    [|intros x px; simpl; rewrite Hleave; apply Hm..].
  assert (orderly m0) as Hm0 by (intros x px; rewrite Hleave; apply Hm).
  rewrite bind_unfold. simpl get. cbv iota beta.
  destruct (gameid p) as [gid|] eqn:Hg;
    [destruct (negb (running m0))|]; simpl;
    try (by apply (orderly_delete cid m0)).
  unfold on_game. simpl.
  destruct (games m0 !! gid) as [s|]; simpl; [|done].
  destruct (game_kill cid (game s)) as [[[]|e] g']; simpl; [|done].
  apply (orderly_alter cid (set_alive false) m0); [done..|].
  rewrite Hleave, Hp. intros p0 [= <-]. simpl.
  destruct (Hm cid p Hp) as [Hex _]. split; [done|]. rewrite Hg. eauto.
Qed.

Lemma orderly_release pid : follows (upholds orderly) (release_body pid).
Proof.
  intros m Hm. unfold release_body, player_at, update_player. simpl.
  destruct (players m !! pid) as [p|] eqn:Hp; simpl; [|done].
  rewrite lookup_alter_eq, Hp. simpl.
  destruct (Hm pid p Hp) as [Hex Hdead].
  destruct (alive p) eqn:Ha; simpl.
  - apply (orderly_alter pid (set_gameid None) m); [done..|].
    rewrite Hp. intros p0 [= <-]. simpl. rewrite Ha. by split; [right|].
  - destruct (Hdead eq_refl) as [gid Hg].
    destruct Hex as [Hq|Hfree]; [|congruence].
    unfold disconnect. simpl. rewrite lookup_alter_eq, Hp. simpl.
    rewrite Hq. simpl.
    apply (orderly_delete pid m); [done|]. simpl.
    by rewrite delete_alter_eq.
Qed.

Lemma orderly_cleanup gid ps : follows (upholds orderly) (cleanup gid ps).
Proof.
  unfold cleanup.
  follow follows_bind; [apply same_players_orderly, framed_log|]. intros _.
  follow follows_bind.
  { change (for_each ps _) with (for_each ps release_body).
    follow follows_for_each. apply orderly_release. }
  intros _. follow follows_bind; [follow follows_get|]. intros m.
  follow follows_bind; [follow follows_raise_if|]. intros _.
  apply same_players_orderly. by follow follows_modify.
Qed.

Lemma orderly_game_handler fuel gid ps :
  follows (upholds orderly) (game_handler fuel gid ps).
Proof.
  unfold game_handler. follow follows_try_finally.
  - apply same_players_orderly, framed_supervised_loop.
  - apply orderly_cleanup.
Qed.

Lemma orderly_enlist {A} gid pid (k : M A) :
  follows (upholds orderly) k →
  follows (upholds orderly)
    (update_player pid (set_queue None) >>
     update_player pid (set_gameid (Some gid)) >> k).
Proof.
  intros Hk m Hm. simpl. apply Hk.
  apply (orderly_alter pid (λ p, set_gameid (Some gid) (set_queue None p)) m);
    [done|simpl; by rewrite alter_alter_eq|].
  intros p _. simpl. split; [by left|eauto].
Qed.

Lemma orderly_start_game q : follows (upholds orderly) (start_game q).
Proof.
  unfold start_game. follow follows_bind; [follow follows_get|]. intros m.
  follow follows_bind; [apply same_players_orderly; by follow follows_modify|].
  intros _.
  follow follows_bind; [apply same_players_orderly, framed_popleft_n|].
  intros ps. destruct (GAMES !! q) as [conf|]; [|follow follows_raise].
  follow follows_bind; [apply same_players_orderly, framed_log|]. intros _.
  follow follows_bind; [follow follows_call|]. intros kwargs.
  follow follows_bind; [follow follows_call|]. intros g.
  follow follows_bind; [follow follows_call|]. intros startup.
  follow follows_bind; [apply same_players_orderly, framed_log|]. intros _.
  follow follows_bind; [|intros _; apply same_players_orderly;
                          by follow follows_modify].
  follow follows_for_each. intros pid.
  follow follows_bind; [follow follows_player_at|]. intros _.
  apply orderly_enlist.
  follow follows_bind; [follow follows_player_at|]. intros p.
  follow follows_when. apply same_players_orderly, framed_send.
Qed.

Lemma orderly_join_queue cid q : follows (upholds orderly) (join_queue cid q).
Proof.
  intros m Hm. unfold join_queue. rewrite bind_unfold. simpl get.
  cbv iota beta. rewrite bind_unfold.
  destruct (running m); simpl raise_if; cbv iota beta; [|done].
  rewrite bind_unfold. case_bool_decide; simpl raise_if; cbv iota beta; [done|].
  destruct (players m !! cid) as [p|] eqn:Hp; [|done].
  rewrite bind_unfold.
  destruct (gameid p) as [gid|] eqn:Hg;
    [by rewrite bool_decide_eq_true_2 by eauto|].
  rewrite bool_decide_eq_false_2 by (by intros [? ?]).
  simpl raise_if. cbv iota beta.
  rewrite bind_unfold.
  set (leave := match queue p with Some q0 => _ | None => _ end).
  assert (follows same_players leave) as Hleave.
  { subst leave. destruct (queue p); [|follow follows_ret].
    apply framed_queue_remove. }
  specialize (Hleave m). unfold same_players in Hleave.
  destruct (leave m) as [[[]|e|] m0]; simpl in Hleave;
    [|intros x px; simpl; rewrite Hleave; apply Hm..].
  rewrite bind_unfold. unfold update_player. simpl modify. cbv iota beta.
  set (m1 := with_players _ m0).
  assert (orderly m1) as Hm1.
  { apply (orderly_alter cid (set_queue (Some q)) m); [done|by subst m1; simpl; rewrite Hleave|].
    rewrite Hp. intros p0 [= <-]. simpl. rewrite Hg. split; [by right|].
    intros Ha. destruct (Hm cid p Hp) as [_ Hdead].
    rewrite Hg in Hdead. by apply Hdead. }
  revert Hm1. generalize m1.
  change (follows (upholds orderly)
    (let* m1 := get in
     when (bool_decide (queues m1 !! q = None))
       (modify (with_queues (insert q []))) >>
     modify (with_queues (alter (λ d, d ++ [cid]) q)) >>
     let* m2 := get in
     let len := length (default [] (queues m2 !! q)) in
     log (LogJoined cid q len) >>
     when (bool_decide (PLAYERS_PER_GAME ≤ Z.of_nat len)) (start_game q))).
  follow follows_bind; [follow follows_get|]. intros ma.
  follow follows_bind;
    [follow follows_when; apply same_players_orderly; by follow follows_modify|].
  intros _.
  follow follows_bind; [apply same_players_orderly; by follow follows_modify|].
  intros _. follow follows_bind; [follow follows_get|]. intros mb.
  follow follows_bind; [apply same_players_orderly, framed_log|]. intros _.
  follow follows_when. apply orderly_start_game.
Qed.

Lemma orderly_send_event cid event args :
  follows (upholds orderly) (send_event cid event args).
Proof.
  apply same_players_orderly. unfold send_event.
  step_through ltac:(done) ltac:(first [apply framed_log | apply framed_on_game]).
Qed.

Lemma orderly_work fuel gid : follows (upholds orderly) (work fuel gid).
Proof.
  unfold work. follow follows_bind; [follow follows_get|]. intros m0.
  destruct (games m0 !! gid) as [s|]; [|follow follows_ret].
  destruct (finished (thread s)); [follow follows_ret|].
  intros m1 Hm1.
  pose proof (orderly_game_handler fuel gid (roster (thread s)) m1 Hm1) as Hgh.
  by destruct (game_handler fuel gid (roster (thread s)) m1) as [[[]|e|] m2].
Qed.

Lemma orderly_meanwhile steps :
  follows (upholds orderly) (modify (meanwhile steps)).
Proof.
  follow follows_modify. intros m. unfold meanwhile.
  revert m. induction steps as [|c steps IH]; intros m Hm; simpl; [done|].
  apply IH. destruct c; simpl.
  - by apply orderly_connect.
  - by apply orderly_disconnect.
  - by apply orderly_join_queue.
  - by apply orderly_send_event.
  - by apply orderly_work.
Qed.

Lemma orderly_safe_stop sched fuel :
  follows (upholds orderly) (safe_stop sched fuel).
Proof.
  unfold safe_stop.
  follow follows_bind; [apply same_players_orderly, framed_log|]. intros _.
  follow follows_bind; [apply same_players_orderly; by follow follows_modify|].
  intros _. follow follows_bind; [follow follows_get|]. intros m.
  follow follows_bind.
  { follow follows_for_each. intros gid.
    follow follows_bind; [follow follows_get|]. intros m'.
    follow follows_when.
    follow follows_bind; [apply orderly_meanwhile|]. intros _.
    unfold close_game. follow follows_try_except.
    - unfold join. follow follows_bind; [follow follows_get|]. intros m0.
      destruct (games m0 !! gid) as [s|]; [|follow follows_raise].
      destruct (finished (thread s)); [follow follows_ret|].
      follow follows_bind; [apply orderly_meanwhile|]. intros _.
      apply orderly_work.
    - intros _. apply same_players_orderly, framed_log. }
  intros _. follow follows_bind; [follow follows_get|]. intros m1.
  follow follows_bind; [|intros _; apply same_players_orderly, framed_log].
  follow follows_for_each. intros pid.
  follow follows_bind; [follow follows_get|]. intros m'.
  follow follows_when.
  follow follows_bind; [apply orderly_meanwhile|]. intros _.
  unfold kick. follow follows_try_except.
  - apply orderly_disconnect.
  - intros _. apply same_players_orderly, framed_log.
Qed.

Lemma exec_orderly (o : op) (m : Manager) : orderly m → orderly (exec o m).
Proof.
  destruct o; simpl.
  - apply orderly_connect.
  - apply orderly_disconnect.
  - apply orderly_join_queue.
  - apply orderly_start_game.
  - apply orderly_send_event.
  - apply orderly_game_handler.
  - apply orderly_cleanup.
  - apply orderly_safe_stop.
Qed.

(** X16. Whatever operations a new manager has gone through, a
    registered player whose [alive] flag is cleared is in a game and in no
    queue: the flag is cleared only by a disconnection during a game, and
    the cleanup of the session removes the player. So every player who
    waits in a queue has its flag set, and [start_game] sends the startup
    status to the whole batch. *)
Theorem departed_only_in_game (ops : list op) (cid : Z) (p : Player) :
  players (run ops init) !! cid = Some p → alive p = false →
  is_Some (gameid p) ∧ queue p = None.
Proof.
  assert (∀ m, orderly m → orderly (run ops m)) as Hrun.
  { unfold run. induction ops as [|o ops' IH]; intros m Hm; simpl; [done|].
    apply IH. by apply exec_orderly. }
  assert (orderly init) as Hinit.
  { intros x px. unfold init. simpl. by rewrite lookup_empty. }
  intros Hp Ha. destruct (Hrun init Hinit cid p Hp) as [Hex Hdead].
  destruct (Hdead Ha) as [gid Hg]. split; [eauto|].
  destruct Hex; congruence.
Qed.

End Departed.

(** * Concrete runs *)

#[local] Existing Instance Duel.api.
#[local] Existing Instance Duel.os.

(** Closes [wf m] for a concrete [m] by running the check. *)
Ltac decide_wf :=
  apply wf_check_sound, (bool_decide_unpack _); vm_compute; exact I.

(** Closes [a = b] for a closed [a] by evaluating it. *)
Ltac evaluate :=
  lazymatch goal with
  | |- ?a = ?b =>
      let v := eval vm_compute in a in
      unify b v; vm_cast_no_check (eq_refl v)
  end.

(** A configuration whose game cannot be built. *)
Definition jammed : Settings := {|
  GAMES := {[ "duel"%string :=
              mkGameConf Duel.api (λ _ _ _, Throws (GameException 3))
                (Returns tt) ]};
  PLAYERS_PER_GAME := 2;
  GAME_TICKS_PER_SECOND := 10;
  TOKEN_LENGTH := 32
|}.

(** A configuration with a tick rate of zero. *)
Definition stalled : Settings := {|
  GAMES := {[ "duel"%string := Duel.conf ]};
  PLAYERS_PER_GAME := 2;
  GAME_TICKS_PER_SECOND := 0;
  TOKEN_LENGTH := 32
|}.

(** An evening of the server: a duel starts, the first player leaves it,
    the worker ends the session. *)
Definition evening : list op :=
  [Connect Duel.alice; Connect Duel.bob;
   JoinQueue 1 "duel"; JoinQueue 2 "duel";
   Disconnect 1; Work 1 1 [1; 2]].

(** The duel while [safe_stop] waits for its worker. *)
Definition closing : Manager :=
  Eval vm_compute in
  run (settings := Duel.standard) (os := Duel.os) [SafeStop quiet 0] Duel.arena.

(** Two players whose game could not be built when the second joined. *)
Definition stuck : Manager :=
  Eval vm_compute in
  run (settings := jammed) (os := Duel.os)
    [Connect Duel.alice; Connect Duel.bob;
     JoinQueue 1 "duel"; JoinQueue 2 "duel"] init.

(** The first player disconnects while [safe_stop] waits for the duel. *)
Definition restless : Schedule :=
  mkSchedule (λ _, []) (λ _, [CallDisconnect 1]) (λ _, []).


Lemma join_queue_fills_batch_witness :
  ∃ m', join_queue (settings := Duel.standard) 2 "duel" Duel.lobby = (Ok tt, m') ∧
        queues m' !! "duel"%string = Some [] ∧
        (roster ∘ thread) <$> games m' !! 1%positive = Some [1; 2].
Proof.
  edestruct (join_queue_fills_batch (settings := Duel.standard) 2 "duel" Duel.lobby)
    as (_ & _ & m' & Hjoin & Hq & Hg & _).
  - decide_wf.
  - evaluate.
  - evaluate.
  - evaluate.
  - evaluate.
  - evaluate.
  - evaluate.
  - evaluate.
  - evaluate.
  - exists m'. split; [exact Hjoin|]. split; [exact Hq|].
    rewrite Hg, lookup_insert_eq. reflexivity.
Defined.

Lemma queue_and_game_exclusive_witness :
  ∃ p, players Duel.arena !! 1 = Some p ∧
       ¬ (is_Some (queue p) ∧ is_Some (gameid p)).
Proof.
  eexists. split; [evaluate|].
  apply (queue_and_game_exclusive (settings := Duel.standard)
           [Connect Duel.alice; Connect Duel.bob;
            JoinQueue 1 "duel"; JoinQueue 2 "duel"] 1).
  evaluate.
Defined.

Lemma disconnect_spec_witness :
  disconnect 7 Duel.arena = (Raise NotRegistered, Duel.arena) ∧
  (∃ m', disconnect 1 Duel.arena = (Ok tt, m') ∧
         alive <$> players m' !! 1 = Some false ∧
         Duel.fallen ∘ game <$> games m' !! 1%positive = Some [1]) ∧
  (∃ m', disconnect 1 Duel.lobby = (Ok tt, m') ∧
         players m' !! 1 = None ∧ queues m' !! "duel"%string = Some []).
Proof.
  split; [|split].
  - apply (disconnect_spec 7 Duel.arena). evaluate.
  - destruct (disconnect_spec 1 Duel.arena) as [_ Hreg].
    edestruct Hreg as [_ Hkill]; [evaluate|evaluate|].
    eexists. split; [eapply Hkill; evaluate|].
    split; evaluate.
  - destruct (disconnect_spec 1 Duel.lobby) as [_ Hreg].
    edestruct Hreg as [Hdel _]; [evaluate|evaluate|].
    eexists. split; [apply Hdel; left; evaluate|].
    split; evaluate.
Defined.

Lemma session_cleanup_witness :
  (∃ m', game_handler (settings := Duel.standard) 1 1 [1; 2] Duel.forfeit
           = (Ok tt, m') ∧
         games m' = ∅ ∧ players m' !! 1 = None ∧
         gameid <$> players m' !! 2 = Some None ∧
         disconnect 1 m' = (Raise NotRegistered, m')) ∧
  is_Some (players Duel.forfeit !! 1) ∧
  (∃ m1, disconnect 1 closing = (Ok tt, m1) ∧ players m1 !! 1 = None).
Proof.
  assert (wf (settings := Duel.standard) Duel.arena) as Hwf by decide_wf.
  assert (wf (settings := Duel.standard) Duel.forfeit) as Hwf' by decide_wf.
  assert (wf (settings := Duel.standard) closing) as Hwf'' by decide_wf.
  split; [|split].
  - edestruct (session_cleanup (settings := Duel.standard) 1
                 (mkSession (api := Duel.api) (Duel.mkDuel [1; 2] [1] 0 [])
                    (mkThread [1; 2] false))
                 Duel.forfeit Hwf')
      as [Hexit _]; [evaluate|].
    edestruct (Hexit 1%nat (Ok tt)) as (_ & Hgames & Hin & Hgone & _).
    { evaluate. }
    { discriminate. }
    eexists. split; [evaluate|].
    split; [evaluate|]. split; [evaluate|]. split; [evaluate|].
    eapply (Hgone 1); [apply list_elem_of_here|evaluate|evaluate].
  - edestruct (session_cleanup (settings := Duel.standard) 1
                 (mkSession (api := Duel.api) (Duel.mkDuel [1; 2] [] 0 [])
                    (mkThread [1; 2] false))
                 Duel.arena Hwf)
      as (_ & Hstay & _); [evaluate|].
    edestruct (Hstay 1) as (_ & _ & p1 & Hp1 & _).
    + apply list_elem_of_here.
    + evaluate.
    + evaluate.
    + exists p1. exact Hp1.
  - edestruct (session_cleanup (settings := Duel.standard) 1
                 (mkSession (api := Duel.api) (Duel.mkDuel [1; 2] [] 0 [])
                    (mkThread [1; 2] false))
                 closing Hwf'')
      as (_ & _ & Hgone); [evaluate|].
    edestruct (Hgone 1) as (m1 & Hleave & Hnone & _).
    + apply list_elem_of_here.
    + evaluate.
    + evaluate.
    + exists m1. split; [exact Hleave|exact Hnone].
Defined.

(** C4 (as stated) fails while the manager is stopping: the first player
    of the duel disconnects while [safe_stop] waits for the duel, and is
    removed from the registry before the cleanup runs; the cleanup then
    raises at this player, the session stays in the table and the second
    player keeps its game. *)
Lemma session_cleanup_counterexample :
  ∃ m1 m2,
    disconnect 1 closing = (Ok tt, m1) ∧
    players m1 !! 1 = None ∧
    game_handler (settings := Duel.standard) 1 1 [1; 2] m1
      = (Raise KeyError, m2) ∧
    is_Some (games m2 !! 1%positive) ∧
    gameid <$> players m2 !! 2 = Some (Some 1%positive).
Proof.
  eexists _, _. split; [evaluate|]. split; [evaluate|].
  split; [evaluate|]. split; [eexists; evaluate|evaluate].
Qed.

Lemma safe_stop_spec_witness :
  (∃ m', safe_stop (settings := Duel.standard) quiet 1 Duel.forfeit
           = (Ok tt, m') ∧
         running m' = false ∧ games m' = ∅ ∧ players m' = ∅) ∧
  (∃ m', safe_stop (settings := Duel.standard) restless 1 Duel.arena
           = (Ok tt, m') ∧
         running m' = false ∧ players m' = ∅ ∧
         finished ∘ thread <$> games m' !! 1%positive = Some true).
Proof.
  split.
  - pose proof (safe_stop_spec (settings := Duel.standard) quiet 0 Duel.forfeit)
      as (Hstop & Hrun & _ & _ & Hempty).
    destruct Hempty as (Hg & Hp & _); [decide_wf|reflexivity|].
    eexists. split; [exact Hstop|]. split; [exact Hrun|].
    split; [exact Hg|exact Hp].
  - pose proof (safe_stop_spec (settings := Duel.standard) restless 0 Duel.arena)
      as (Hstop & Hrun & _ & _ & _).
    eexists. split; [exact Hstop|]. split; [exact Hrun|]. split; evaluate.
Defined.

(** C5 (as stated) fails: the table and the registry are not always
    empty after [safe_stop]. A player whose disconnection raises stays
    registered, as the two players do whose game could not be built; and
    a session whose participant disconnected during the wait stays in the
    table. *)
Lemma safe_stop_spec_counterexample :
  (∃ m', safe_stop (settings := jammed) quiet 1 stuck = (Ok tt, m') ∧
         is_Some (players m' !! 1) ∧ is_Some (players m' !! 2)) ∧
  (∃ m', safe_stop (settings := Duel.standard) restless 1 Duel.arena
           = (Ok tt, m') ∧
         is_Some (games m' !! 1%positive)).
Proof.
  split.
  - eexists. split; [evaluate|]. split; eexists; evaluate.
  - eexists. split; [evaluate|]. eexists; evaluate.
Qed.

Lemma connect_spec_witness :
  connect (settings := Duel.standard) Duel.alice Duel.lobby
    = (Raise AlreadyRegistered, Duel.lobby) ∧
  ∃ m', connect (settings := Duel.standard) (mkClient 3 300) Duel.lobby
          = (Ok "e3eaf1f8ff060d141b222930373e454c"%string, m') ∧
        players m' !! 3 =
          Some (mkPlayer (mkClient 3 300) true None None
                  "e3eaf1f8ff060d141b222930373e454c") ∧
        players m' !! 1 = players Duel.lobby !! 1.
Proof.
  destruct (connect_spec (settings := Duel.standard) Duel.alice Duel.lobby)
    as (_ & Hdup & _).
  destruct (connect_spec (settings := Duel.standard) (mkClient 3 300) Duel.lobby)
    as (_ & _ & Hnew).
  split.
  - apply Hdup; [evaluate|]. eexists. evaluate.
  - destruct Hnew as (m' & Hc & Hp & Hother & _); [evaluate|evaluate|done|].
    assert (fresh_token (settings := Duel.standard) Duel.lobby
            = "e3eaf1f8ff060d141b222930373e454c"%string) as Htok by evaluate.
    rewrite Htok in Hc, Hp.
    exists m'. split; [exact Hc|]. split.
    + rewrite Hp. apply lookup_insert_eq.
    + by apply Hother.
Defined.

Lemma connect_token_length_witness :
  ∃ tok m', connect (settings := Duel.standard) Duel.alice init = (Ok tok, m') ∧
            Z.of_nat (String.length tok) = 32.
Proof.
  eexists _, _. split; [evaluate|].
  eapply (connect_token_length (settings := Duel.standard) Duel.alice init);
    [evaluate|reflexivity].
Defined.

(** C7 (as stated) fails when [TOKEN_LENGTH] is odd: with
    [TOKEN_LENGTH = 3] one byte is read and the token has two characters. *)
Lemma connect_token_length_counterexample :
  ∃ tok m',
    connect (settings := Duel.settings 2 3) Duel.alice init = (Ok tok, m') ∧
    Z.of_nat (String.length tok) ≠ TOKEN_LENGTH (Settings := Duel.settings 2 3).
Proof.
  exists "03"%string. eexists. split; [evaluate|]. vm_compute. discriminate.
Qed.

Lemma send_event_spec_witness :
  send_event (api := Duel.api) 7 "move" [] Duel.arena = (Raise NotRegistered, Duel.arena) ∧
  send_event (api := Duel.api) 1 "move" [] Duel.lobby = (Raise NotInGame, Duel.lobby) ∧
  send_event (api := Duel.api) 1 "jump" [] Duel.arena = (Raise InvalidEvent, Duel.arena) ∧
  ∃ m', send_event (api := Duel.api) 1 "bomb" [5] Duel.arena = (Ok tt, m') ∧
        Duel.moves ∘ game <$> games m' !! 1%positive
          = Some [(1, "bomb"%string)].
Proof.
  split; [|split; [|split]].
  - apply (send_event_spec (api := Duel.api) 7 "move" [] Duel.arena). evaluate.
  - destruct (send_event_spec (api := Duel.api) 1 "move" [] Duel.lobby) as (_ & Hfree & _).
    eapply Hfree; evaluate.
  - destruct (send_event_spec (api := Duel.api) 1 "jump" [] Duel.arena) as (_ & _ & Hgame).
    edestruct Hgame as [Hbad _]; [evaluate|evaluate|evaluate|evaluate|].
    apply Hbad. vm_compute. intros Hin.
    repeat (apply elem_of_cons in Hin as [Hin|Hin]; [discriminate|]).
    by apply elem_of_nil in Hin.
  - destruct (send_event_spec (api := Duel.api) 1 "bomb" [5] Duel.arena) as (_ & _ & Hgame).
    edestruct Hgame as [_ Hgood]; [evaluate|evaluate|evaluate|evaluate|].
    eexists. split.
    + rewrite Hgood; [evaluate|].
      apply list_elem_of_further, list_elem_of_here.
    + evaluate.
Defined.

Lemma tick_fault_witness :
  ∃ m', game_handler (settings := Duel.standard) 1 1 [1; 2] Duel.late
          = (Ok tt, m') ∧
        games m' = ∅ ∧
        outbox m' =
          outbox Duel.late ++
          [(Duel.alice, ErrorNotice (GameException 7));
           (Duel.bob, ErrorNotice (GameException 7))] ∧
        gameid <$> players m' !! 1 = Some None.
Proof.
  edestruct (tick_fault (settings := Duel.standard) 1
               (mkSession (api := Duel.api) (Duel.mkDuel [1; 2] [] 2 [])
                  (mkThread [1; 2] false))
               Duel.late) with (fuel := 1%nat)
    as (m' & Hrun & _ & Hout & Hgames & _ & Hin & _).
  - decide_wf.
  - evaluate.
  - evaluate.
  - exists m'. split; [exact Hrun|]. split; [|split].
    + rewrite Hgames. evaluate.
    + rewrite Hout. evaluate.
    + erewrite (Hin 1); [|apply list_elem_of_here|evaluate]. evaluate.
Defined.

Lemma join_queue_again_witness :
  ∃ m', join_queue (settings := Duel.trio) 1 "duel" Duel.bench = (Ok tt, m') ∧
        queues Duel.bench !! "duel"%string = Some [1; 2] ∧
        queues m' !! "duel"%string = Some [2; 1] ∧
        players m' = players Duel.bench.
Proof.
  edestruct (join_queue_again (settings := Duel.trio) 1 "duel" Duel.bench)
    as (d & Hd & _ & _ & Hjoin).
  - decide_wf.
  - evaluate.
  - evaluate.
  - evaluate.
  - assert (d = [1; 2]) as -> by (vm_compute in Hd; congruence).
    eexists. split; [exact Hjoin|]. split; [evaluate|].
    split; [evaluate|evaluate].
Defined.

(** * Further runs *)

Lemma reachable_settled_witness :
  wf (settings := Duel.standard) (run (settings := Duel.standard) evening init) ∧
  running (run (settings := Duel.standard) evening init) = true.
Proof.
  apply (reachable_settled (settings := Duel.standard) evening).
  - reflexivity.
  - intros q conf Hq. cbv [GAMES Duel.standard Duel.settings] in Hq.
    apply lookup_singleton_Some in Hq as [_ <-].
    exists tt. split; [reflexivity|]. intros gid ps.
    eexists _, _. split; reflexivity.
  - cbv [legal_run legal evening].
    do 5 (split; [exact I|]).
    split; [eexists; split; [evaluate|reflexivity]|exact I].
Defined.

Lemma safe_stop_twice_witness :
  ∃ m1,
    safe_stop (settings := Duel.standard) quiet 1 Duel.arena = (Ok tt, m1) ∧
    safe_stop (settings := Duel.standard) restless 0 m1 =
      (Ok tt, with_logged (λ l, l ++ [LogStopping; LogAllTerminated]) m1).
Proof.
  apply (safe_stop_twice (settings := Duel.standard) 0 0 restless Duel.arena).
  decide_wf.
Defined.

Lemma join_queue_refusals_witness :
  join_queue (settings := Duel.standard) 1 "chess" Duel.lobby
    = (Raise InvalidQueue, Duel.lobby) ∧
  join_queue (settings := Duel.standard) 7 "duel" Duel.lobby
    = (Raise NotRegistered, Duel.lobby) ∧
  join_queue (settings := Duel.standard) 1 "duel" Duel.arena
    = (Raise InGame, Duel.arena).
Proof.
  destruct (join_queue_refusals (settings := Duel.standard) 1 "chess" Duel.lobby)
    as (_ & Hqueue & _).
  destruct (join_queue_refusals (settings := Duel.standard) 7 "duel" Duel.lobby)
    as (_ & _ & Hreg & _).
  destruct (join_queue_refusals (settings := Duel.standard) 1 "duel" Duel.arena)
    as (_ & _ & _ & Hgame).
  split; [apply Hqueue; evaluate|]. split.
  - apply Hreg; [evaluate|eexists; evaluate|evaluate].
  - eapply Hgame; [evaluate|eexists; evaluate|evaluate|eexists; evaluate].
Defined.

Lemma join_queue_enqueues_witness :
  ∃ m', join_queue (settings := Duel.trio) 2 "duel" Duel.lobby = (Ok tt, m') ∧
        queues m' !! "duel"%string = Some [1; 2] ∧ games m' = ∅.
Proof.
  edestruct (join_queue_enqueues (settings := Duel.trio) 2 "duel" Duel.lobby)
    as (m' & Hjoin & Hq & _ & _ & _ & Hg & _).
  - decide_wf.
  - evaluate.
  - eexists. evaluate.
  - evaluate.
  - evaluate.
  - vm_compute. discriminate.
  - vm_compute. reflexivity.
  - exists m'. split; [exact Hjoin|]. split.
    + rewrite Hq. evaluate.
    + rewrite Hg. evaluate.
Defined.

Lemma start_game_underfull_witness :
  fst (start_game (settings := Duel.standard) "duel" Duel.lobby)
    = Raise IndexError ∧
  fst (start_game (settings := Duel.standard) "duel" init) = Raise KeyError.
Proof.
  destruct (start_game_underfull (settings := Duel.standard) "duel" Duel.lobby)
    as [Hshort _].
  destruct (start_game_underfull (settings := Duel.standard) "duel" init)
    as [_ Hnone].
  split.
  - erewrite Hshort; [reflexivity|evaluate|vm_compute; lia].
  - rewrite Hnone; [reflexivity|evaluate|reflexivity].
Defined.

Lemma join_queue_loses_batch_witness :
  ∃ m', join_queue (settings := jammed) 2 "duel" Duel.lobby
          = (Raise (GameException 3), m') ∧
        queues m' !! "duel"%string = Some [] ∧ games m' = ∅ ∧
        disconnect 1 m' =
          (Raise ValueError, with_logged (λ l, l ++ [LogLeftQueue 1]) m').
Proof.
  assert (default [] (queues Duel.lobby !! "duel"%string) = [1]) as Hwaiting
    by evaluate.
  edestruct (join_queue_loses_batch (settings := jammed) 2 "duel" Duel.lobby)
    as (m' & Hjoin & Hq & Hg & _ & _ & Hall).
  - decide_wf.
  - evaluate.
  - evaluate.
  - evaluate.
  - evaluate.
  - vm_compute. discriminate.
  - vm_compute. reflexivity.
  - right. exists tt. split; [reflexivity|]. left. reflexivity.
  - exists m'. split; [exact Hjoin|]. split; [exact Hq|].
    split; [rewrite Hg; evaluate|].
    apply (Hall 1). rewrite Hwaiting. apply list_elem_of_here.
Defined.

Lemma tick_broadcast_witness :
  ∃ m' st,
    loop_pass (settings := Duel.standard) 1 [1; 2] Duel.arena = (Ok Next, m') ∧
    outbox m' =
      outbox Duel.arena ++
      [(Duel.alice, StatusUpdate st); (Duel.bob, StatusUpdate st)].
Proof.
  edestruct (tick_broadcast (settings := Duel.standard) 1
               (mkSession (api := Duel.api) (Duel.mkDuel [1; 2] [] 0 [])
                  (mkThread [1; 2] false))
               Duel.arena)
    as (m' & Hpass & Hout & _).
  - decide_wf.
  - evaluate.
  - vm_compute. discriminate.
  - evaluate.
  - evaluate.
  - exists m'. eexists. split; [exact Hpass|]. rewrite Hout. evaluate.
Defined.

Lemma zero_tick_rate_witness :
  ∃ m', game_handler (settings := stalled) 1 1 [1; 2] Duel.arena = (Ok tt, m') ∧
        outbox m' =
          outbox Duel.arena ++
          [(Duel.alice, ErrorNotice ZeroDivisionError);
           (Duel.bob, ErrorNotice ZeroDivisionError)] ∧
        games m' = ∅.
Proof.
  edestruct (zero_tick_rate (settings := stalled) 0 1
               (mkSession (api := Duel.api) (Duel.mkDuel [1; 2] [] 0 [])
                  (mkThread [1; 2] false))
               Duel.arena)
    as (m' & Hrun & Hout & _ & Hgames & _).
  - decide_wf.
  - evaluate.
  - reflexivity.
  - evaluate.
  - exists m'. split; [exact Hrun|]. split.
    + rewrite Hout. evaluate.
    + rewrite Hgames. evaluate.
Defined.

Lemma no_reconnect_in_session_witness :
  connect (settings := Duel.standard) Duel.alice (snd (disconnect 1 Duel.arena))
    = (Raise AlreadyRegistered, snd (disconnect 1 Duel.arena)).
Proof.
  eapply (no_reconnect_in_session (settings := Duel.standard)
            Duel.alice _ Duel.arena).
  - evaluate.
  - evaluate.
  - eexists. evaluate.
Defined.

Lemma stopping_disconnect_strands_session_witness :
  ∃ m1 m2,
    disconnect 1 closing = (Ok tt, m1) ∧
    game_handler (settings := Duel.standard) 1 1 [1; 2] m1
      = (Raise KeyError, m2) ∧
    is_Some (games m2 !! 1%positive).
Proof.
  edestruct (stopping_disconnect_strands_session (settings := Duel.standard) 1
               (mkSession (api := Duel.api) (Duel.mkDuel [1; 2] [] 0 [])
                  (mkThread [1; 2] false))
               1 closing)
    as (m1 & Hgone & _ & _ & Hworker).
  - decide_wf.
  - evaluate.
  - evaluate.
  - apply list_elem_of_here.
  - destruct (Hworker 0%nat) as (m2 & Hrun & Hstays).
    exists m1, m2. split; [exact Hgone|]. split; [exact Hrun|exact Hstays].
Defined.

Lemma connect_token_hex_witness :
  ∃ tok m',
    connect (settings := Duel.standard) Duel.alice init = (Ok tok, m') ∧
    Forall (λ c, c ∈ hex_digits) (String.list_ascii_of_string tok).
Proof.
  eexists _, _. split; [evaluate|].
  eapply (connect_token_hex (settings := Duel.standard) Duel.alice init).
  evaluate.
Defined.

Lemma connect_then_disconnect_witness :
  ∃ tok m1 m2,
    connect (settings := Duel.standard) (mkClient 3 300) Duel.lobby
      = (Ok tok, m1) ∧
    disconnect 3 m1 = (Ok tt, m2) ∧
    players m2 = players Duel.lobby.
Proof.
  edestruct (connect_then_disconnect (settings := Duel.standard)
               (mkClient 3 300) Duel.lobby)
    as (m2 & Hleave & Hplayers & _); [evaluate|].
  eexists _, _, m2. split; [evaluate|]. split; [exact Hleave|exact Hplayers].
Defined.

Lemma departed_only_in_game_witness :
  ∃ p, players Duel.forfeit !! 1 = Some p ∧
       is_Some (gameid p) ∧ queue p = None.
Proof.
  eexists. split; [evaluate|].
  apply (departed_only_in_game (settings := Duel.standard)
           [Connect Duel.alice; Connect Duel.bob;
            JoinQueue 1 "duel"; JoinQueue 2 "duel"; Disconnect 1] 1);
    evaluate.
Defined.
